(** * SubtitlesTools: the subtitle translator ([utils/subtitle_translator.py])

    A shallow embedding of [SubtitleTranslator] and [translate_srt_file],
    and the properties their specification states about them.

    Python values are modelled as follows.
    - [str] is a list of Unicode code points ([char := N]).
    - [int] is [Z].
    - the subtitle dict [{'index', 'timeline', 'text'}] is the record
      [Subtitle].
    - the call [openai_api.text_to_text] is the only effect that matters:
      it is a transition of an abstract service state, and every call is
      appended to a log.  [print] and [time.sleep] change neither a
      returned value nor the calls made and are left out.
    - a raised exception is a value of [exn]; a function that can raise
      returns an [outcome].  Inside the two [try] blocks only the call of
      the service (with the reading of its ['ai_text']) can raise, so
      [None] from the service stands for every exception caught there.
    - [int()] and [str()] are the ones of the language: the limit that
      CPython puts on the number of digits of a converted integer is an
      interpreter setting and is left out.
    - the file system is reduced to what is read at the input path and
      what is written to the output file. *)

From Stdlib Require Import String Ascii.
From Stdlib Require Import List ZArith NArith Lia Bool Arith.
From Stdlib Require Import Floats Uint63.
Import ListNotations.

(* ===================================================================== *)
(** * Python strings *)
(* ===================================================================== *)

Module PyStr.

Abbreviation char := N.
Abbreviation str := (list char).

Open Scope N_scope.

Definition nl : char := 10.

(** Decoding of the UTF-8 bytes of a Rocq string literal into code
    points, used only to write the literals of the source. *)
Fixpoint utf8_go (bs : list N) (need : nat) (acc : N) : str :=
  match bs with
  | [] => []
  | b :: r =>
      match need with
      | S O => (acc * 64 + (b - 128)) :: utf8_go r O 0
      | S k => utf8_go r k (acc * 64 + (b - 128))
      | O =>
          if b <? 128 then b :: utf8_go r O 0
          else if b <? 224 then utf8_go r 1%nat (b - 192)
          else if b <? 240 then utf8_go r 2%nat (b - 224)
          else utf8_go r 3%nat (b - 240)
      end
  end.

Definition u8 (s : string) : str :=
  utf8_go (map N_of_ascii (list_ascii_of_string s)) O 0.

(** [Py_UNICODE_ISSPACE]: what [str.strip()] removes and what [\s]
    matches in a [str] pattern. *)
Definition is_space (c : char) : bool :=
  ((9 <=? c) && (c <=? 13)) || ((28 <=? c) && (c <=? 32))
  || (c =? 133) || (c =? 160) || (c =? 5760)
  || ((8192 <=? c) && (c <=? 8202))
  || (c =? 8232) || (c =? 8233) || (c =? 8239) || (c =? 8287)
  || (c =? 12288).

Fixpoint lstrip (s : str) : str :=
  match s with
  | [] => []
  | c :: r => if is_space c then lstrip r else s
  end.

Fixpoint rstrip (s : str) : str :=
  match s with
  | [] => []
  | c :: r =>
      match rstrip r with
      | [] => if is_space c then [] else [c]
      | r' => c :: r'
      end
  end.

(** [s.strip()] *)
Definition strip (s : str) : str := rstrip (lstrip s).

(** A string that ends with a character that is not white space. *)
Definition solid_end (s : str) : Prop := is_space (last s nl) = false.

(** A string that starts with a character that is not white space. *)
Definition solid_start (s : str) : Prop := is_space (hd nl s) = false.

(** [not s] *)
Definition is_empty (s : str) : bool :=
  match s with
  | [] => true
  | _ :: _ => false
  end.

Fixpoint starts_with (p s : str) : bool :=
  match p, s with
  | [], _ => true
  | _ :: _, [] => false
  | a :: p', b :: s' => (a =? b) && starts_with p' s'
  end.

(** [p in s] *)
Fixpoint contains (p s : str) : bool :=
  starts_with p s ||
  match s with
  | [] => false
  | _ :: r => contains p r
  end.

(** Puts a character in front of the first piece of a split. *)
Definition cons_head (c : char) (l : list str) : list str :=
  match l with
  | [] => [[c]]
  | p :: ps => (c :: p) :: ps
  end.

(** [s.split(sep)] for a non-empty [sep]: the pieces between the
    leftmost non-overlapping occurrences of [sep].  [skip] counts the
    characters of an occurrence still to be passed over. *)
Fixpoint split_go (sep s : str) (skip : nat) : list str :=
  match s with
  | [] => [[]]
  | c :: r =>
      match skip with
      | S k => split_go sep r k
      | O =>
          if starts_with sep s
          then [] :: split_go sep r (Nat.pred (length sep))
          else cons_head c (split_go sep r O)
      end
  end.

Definition split (sep s : str) : list str := split_go sep s O.

(** [sep.join(l)] *)
Fixpoint join (sep : str) (l : list str) : str :=
  match l with
  | [] => []
  | [x] => x
  | x :: r => x ++ sep ++ join sep r
  end.

(** The pattern [\n\s*\n], tried just after its first [\n]: the number
    of characters that the greedy [\s*\n] takes, that is up to the last
    newline of the longest run of white space. *)
Fixpoint blank_run (s : str) : option nat :=
  match s with
  | [] => None
  | c :: r =>
      if is_space c then
        match blank_run r with
        | Some n => Some (S n)
        | None => if c =? nl then Some 1%nat else None
        end
      else None
  end.

(** A string in which the pattern [\n\s*\n] matches nowhere. *)
Fixpoint blank_free (s : str) : bool :=
  match s with
  | [] => true
  | c :: r =>
      (negb (c =? nl) || match blank_run r with None => true | Some _ => false end)
      && blank_free r
  end.

(** [re.split(r'\n\s*\n', s)] *)
Fixpoint re_split_go (s : str) (skip : nat) : list str :=
  match s with
  | [] => [[]]
  | c :: r =>
      match skip with
      | S k => re_split_go r k
      | O =>
          if c =? nl then
            match blank_run r with
            | Some n => [] :: re_split_go r n
            | None => cons_head c (re_split_go r O)
            end
          else cons_head c (re_split_go r O)
      end
  end.

Definition re_split_blank (s : str) : list str := re_split_go s O.

(** The Unicode character database: the decimal value of a character of
    category Nd, which [int()] and the pattern [\d] consult.  The table
    belongs to the interpreter, so it is a parameter; only its ASCII
    part is fixed, and the fact that a decimal value is one of 0 to 9,
    which holds of every version of the database. *)
Class UnicodeData := {
  decimal : char -> option Z;
  decimal_ascii :
    forall c, 48 <= c <= 57 -> decimal c = Some (Z.of_N c - 48)%Z;
  decimal_range :
    forall c d, decimal c = Some d -> (0 <= d <= 9)%Z
}.

(** [sys.int_info.default_max_str_digits]: the number of decimal digits
    beyond which [int()] of a string and [str()] of an [int] raise
    [ValueError].  The program never changes it. *)
Definition int_max_str_digits : Z := 4300.

(** The white space that [int()] skips at both ends: C's [isspace] for
    ASCII, and the non-ASCII white space, which [int()] first rewrites
    to a blank. *)
Definition int_space (c : char) : bool :=
  is_space c && negb ((28 <=? c) && (c <=? 31)).

Fixpoint int_lstrip (s : str) : str :=
  match s with
  | [] => []
  | c :: r => if int_space c then int_lstrip r else s
  end.

Fixpoint int_rstrip (s : str) : str :=
  match s with
  | [] => []
  | c :: r =>
      match int_rstrip r with
      | [] => if int_space c then [] else [c]
      | r' => c :: r'
      end
  end.

Section Int.
Context {U : UnicodeData}.

(** Digits with single underscores between them. [prev] tells whether
    the last character read was a digit. *)
Fixpoint int_digits (s : str) (acc : Z) (prev : bool) : option Z :=
  match s with
  | [] => if prev then Some acc else None
  | c :: r =>
      match decimal c with
      | Some d => int_digits r (acc * 10 + d)%Z true
      | None => if (c =? 95) && prev then int_digits r acc false else None
      end
  end.

(** The number of digit characters of a string. *)
Definition digit_count (s : str) : nat :=
  length (filter (fun c => match decimal c with
                           | Some _ => true
                           | None => false
                           end) s).

(** [int(s)] in base 10; [None] stands for [ValueError], which is
    raised for a string that does not write an integer and for one
    with more digits than the limit, leading zeros counted. *)
Definition py_int (s : str) : option Z :=
  match int_rstrip (int_lstrip s) with
  | [] => None
  | c :: r =>
      let body := if (c =? 45) || (c =? 43) then r else c :: r in
      if (int_max_str_digits <? Z.of_nat (digit_count body))%Z then None
      else if c =? 45 then option_map Z.opp (int_digits r 0%Z false)
      else if c =? 43 then int_digits r 0%Z false
      else int_digits (c :: r) 0%Z false
  end.

End Int.

(** The decimal digits of a natural number, most significant first.
    [fuel] bounds the number of digits. *)
Fixpoint digits_go (fuel : nat) (n : N) : str :=
  match fuel with
  | O => []
  | S k => if n <? 10 then [48 + n] else digits_go k (n / 10) ++ [48 + n mod 10]
  end.

Definition digits (n : N) : str := digits_go (S (N.to_nat (N.log2 n))) n.

(** The decimal writing of an integer, with its sign: what [str(z)]
    returns when it returns. *)
Definition to_decimal (z : Z) : str :=
  match z with
  | Z0 => [48]
  | Zpos p => digits (Npos p)
  | Zneg p => 45 :: digits (Npos p)
  end.

(** Whether [z] has no more decimal digits than the limit. *)
Definition str_fits (z : Z) : bool :=
  (Z.of_nat (length (digits (Z.abs_N z))) <=? int_max_str_digits)%Z.

(** [str(z)] for an [int]; [None] stands for the [ValueError] raised
    when [z] has more digits than the limit. *)
Definition py_str (z : Z) : option str :=
  if str_fits z then Some (to_decimal z) else None.

(** The value of a string of ASCII digits read after [acc]. *)
Definition digits_value (s : str) (acc : Z) : Z :=
  fold_left (fun a c => (a * 10 + (Z.of_N c - 48))%Z) s acc.

Definition ascii_digit (c : char) : Prop := 48 <= c <= 57.

End PyStr.

(* ===================================================================== *)
(** * The translator *)
(* ===================================================================== *)

Module Translator.
Import PyStr.

Open Scope N_scope.

(** ** Data *)

(** A subtitle: the dict with the keys ['index'], ['timeline'], ['text']. *)
Record Subtitle := {
  index : Z;
  timeline : str;
  text : str
}.

(** One entry of the [message] list given to the service. *)
Record Message := {
  role : str;
  content : str
}.

(** The arguments of one call of [openai_api.text_to_text]. *)
Record Call := {
  api_key : str;
  message : list Message;
  model : str
}.

Inductive exn :=
| KeyError
| ValueError
| FileNotFoundError
| ZeroDivisionError.

Inductive outcome (A : Type) :=
| Ok (a : A)
| Raise (e : exn).
Arguments Ok {A} a.
Arguments Raise {A} e.

Fixpoint str_eqb (a b : str) : bool :=
  match a, b with
  | [], [] => true
  | x :: a', y :: b' => (x =? y) && str_eqb a' b'
  | _, _ => false
  end.

(** [d[key]] for a dict kept as its list of items. *)
Fixpoint dict_get (d : list (str * str)) (key : str) : option str :=
  match d with
  | [] => None
  | (k, v) :: r => if str_eqb k key then Some v else dict_get r key
  end.

Definition bilingual : str := u8 "双语".

(** [self.translation_rules_dict] *)
Definition translation_rules_dict : list (str * str) :=
  [ (bilingual, u8 "你需要把用户提供的语言翻译成英文和中文，英文在上，中文在下");
    (u8 "英文", u8 "你需要把用户提供的语言翻译成英文");
    (u8 "中文", u8 "你需要把用户提供的语言翻译成中文") ].

Definition delimiter : str := u8 "===NEXT===".
Definition arrow : str := u8 "-->".

(** [range(n)] *)
Definition range (n : Z) : list Z := map Z.of_nat (seq 0 (Z.to_nat n)).

(** [range(0, stop, step)] for a step that is not zero. *)
Definition range_step (stop step : Z) : list Z :=
  if (0 <? step)%Z
  then map (fun k => (Z.of_nat k * step)%Z)
           (seq 0 (Z.to_nat ((stop + step - 1) / step)))
  else [].

(** [l[i:j]] for indices that are not negative. *)
Definition slice {A} (l : list A) (i j : Z) : list A :=
  firstn (Z.to_nat j - Z.to_nat i) (skipn (Z.to_nat i) l).

(** ** Parsing and writing SRT text *)

Section Parser.
Context {U : UnicodeData}.

(** The body of the loop of [parse_srt]: [None] where the source
    [continue]s, the record it appends otherwise. *)
Definition parse_block (block : str) : option Subtitle :=
  if is_empty (strip block) then None
  else
    let lines := split [nl] (strip block) in
    if (length lines <? 3)%nat then None
    else
      match py_int (nth 0 lines []) with
      | None => None
      | Some idx =>
          let time_line := nth 1 lines [] in
          if negb (contains arrow time_line) then None
          else
            let text_lines := skipn 2 lines in
            Some {| index := idx;
                    timeline := time_line;
                    text := join [nl] text_lines |}
      end.

Definition parse_srt (srt_content : str) : list Subtitle :=
  let blocks := re_split_blank (strip srt_content) in
  fold_left
    (fun subtitles block =>
       match parse_block block with
       | Some sub => subtitles ++ [sub]
       | None => subtitles
       end)
    blocks [].

End Parser.

(** The loop of [generate_srt] over the subtitles left, [srt_content]
    being the list built so far.  [str()] of an index raises
    [ValueError] beyond the limit on digits. *)
Fixpoint generate_srt_lines (subtitles : list Subtitle)
    (srt_content : list str) : outcome (list str) :=
  match subtitles with
  | [] => Ok srt_content
  | subtitle :: rest =>
      match py_str (index subtitle) with
      | None => Raise ValueError
      | Some index_text =>
          generate_srt_lines rest
            (srt_content
               ++ [index_text; timeline subtitle; text subtitle; []])
      end
  end.

Definition generate_srt (subtitles : list Subtitle) : outcome str :=
  match generate_srt_lines subtitles [] with
  | Ok srt_content => Ok (join [nl] srt_content)
  | Raise e => Raise e
  end.

(** ** What the parser and the writer do, for the statements *)

(** The text that [generate_srt] writes for one record, without the
    empty line that closes it. *)
Definition block_text (r : Subtitle) : str :=
  to_decimal (index r) ++ nl :: timeline r ++ nl :: text r.

(** The four strings that [generate_srt] appends for one record. *)
Definition fields (r : Subtitle) : list str :=
  [to_decimal (index r); timeline r; text r; []].

Section ParserStatements.
Context {U : UnicodeData}.

(** The records a block adds to the result of [parse_srt]. *)
Definition kept (block : str) : list Subtitle :=
  match parse_block block with
  | Some r => [r]
  | None => []
  end.

(** The lines of a block, the white space around the block left out. *)
Definition block_lines (block : str) : list str := split [nl] (strip block).

(** A block is valid when it has at least three lines, its first line
    reads as an integer and its second line holds the arrow. *)
Definition valid_block (block : str) : bool :=
  (3 <=? length (block_lines block))%nat
  && match py_int (nth 0 (block_lines block) []) with
     | Some _ => true
     | None => false
     end
  && contains arrow (nth 1 (block_lines block) []).

(** The record of a valid block. *)
Definition record_of_block (block : str) : Subtitle :=
  {| index := match py_int (nth 0 (block_lines block) []) with
              | Some idx => idx
              | None => 0%Z
              end;
     timeline := nth 1 (block_lines block) [];
     text := join [nl] (skipn 2 (block_lines block)) |}.

(** What a record that [parse_srt] produced allows: its index can be
    written, its written form is one block, and that block reads as
    the record. *)
Definition rereadable (r : Subtitle) : Prop :=
  str_fits (index r) = true
  /\ blank_free (block_text r) = true
  /\ solid_start (block_text r)
  /\ solid_end (block_text r)
  /\ kept (block_text r) = [r].

End ParserStatements.

(** ** Formatting *)

Definition is_cjk (c : char) : bool := (19968 <=? c) && (c <=? 40959).

Definition float_of_len (n : nat) : float :=
  PrimFloat.of_uint63 (Uint63.of_Z (Z.of_nat n)).

(** [_is_chinese]: the comparison is the one of binary64 floats, and the
    literal is the binary64 value that Python reads [0.3] as. *)
Definition _is_chinese (text : str) : bool :=
  let chinese_chars := length (filter is_cjk text) in
  let total_chars := length (filter (fun c => negb (is_space c)) text) in
  if (0 <? total_chars)%nat
  then PrimFloat.ltb
         (PrimFloat.mul (float_of_len total_chars) 0x1.3333333333333p-2%float)
         (float_of_len chinese_chars)
  else false.

Definition format_translated_subtitle
    (original_text translated_text translation_type : str) : str :=
  if str_eqb translation_type bilingual then
    let lines := split [nl] translated_text in
    if (2 <=? length lines)%nat then translated_text
    else if _is_chinese original_text
         then translated_text ++ [nl] ++ original_text
         else translated_text ++ [nl] ++ original_text
  else translated_text.

(** A record and what the translation makes of it: the index and the
    timeline are kept, the text is some translated text formatted
    against the original text. *)
Definition translated_record (translation_type : str) (sub out : Subtitle) : Prop :=
  index out = index sub
  /\ timeline out = timeline sub
  /\ exists translated_text,
       text out
       = format_translated_subtitle (text sub) translated_text translation_type.

(** The record written for a subtitle and the translated text found
    for it. *)
Definition formatted_record (translation_type : str) (subtitle : Subtitle)
    (translated_text : str) : Subtitle :=
  {| index := index subtitle;
     timeline := timeline subtitle;
     text := format_translated_subtitle (text subtitle) translated_text
               translation_type |}.

(** A list cut into consecutive batches of [size] elements, the last
    one shorter when the length is not a multiple of [size]. *)
Fixpoint batches_go {A} (fuel size : nat) (l : list A) : list (list A) :=
  match fuel, l with
  | O, _ => []
  | _, [] => []
  | S k, _ :: _ => firstn size l :: batches_go k size (skipn size l)
  end.

Definition batches {A} (size : nat) (l : list A) : list (list A) :=
  batches_go (length l) size l.

(** ** The translation service *)

Section Service.
Set Implicit Arguments.
Context {U : UnicodeData}.

(** The state of the remote service, and [openai_api.text_to_text]: the
    ['ai_text'] of its result, or [None] when the call raises. *)
Variable World : Type.
Variable text_to_text : Call -> World -> option str * World.

Record State := {
  world : World;
  calls : list Call
}.

(** A computation that calls the service and may raise. *)
Definition M (A : Type) : Type := State -> outcome A * State.

Definition ret {A} (a : A) : M A := fun st => (Ok a, st).
Definition raise {A} (e : exn) : M A := fun st => (Raise e, st).
(** A computation that does not call the service. *)
Definition lift {A} (o : outcome A) : M A := fun st => (o, st).
Definition bind {A B} (m : M A) (k : A -> M B) : M B :=
  fun st =>
    match m st with
    | (Ok a, st') => k a st'
    | (Raise e, st') => (Raise e, st')
    end.

Notation "x <- m ;; k" := (bind m (fun x => k))
  (at level 61, m at next level, right associativity).

(** One call of the service, logged. *)
Definition call_service (c : Call) (st : State) : option str * State :=
  let (r, w) := text_to_text c (world st) in
  (r, {| world := w; calls := calls st ++ [c] |}).

Definition system_role : str := u8 "system".
Definition user_role : str := u8 "user".

Definition system_prompt_of (rule : str) : str :=
  u8 "你是一个翻译助手，翻译规则：" ++ [nl] ++ rule.

Definition make_call (api_key' model' system_prompt user_content : str) : Call :=
  {| api_key := api_key';
     message := [ {| role := system_role; content := system_prompt |};
                  {| role := user_role; content := user_content |} ];
     model := model' |}.

(** The retry loop of [translate_single_text], over the attempts left. *)
Fixpoint single_attempts (c : Call) (text' : str) (max_retries : Z)
    (attempts : list Z) (st : State) : str * State :=
  match attempts with
  | [] => (text', st)
  | attempt :: rest =>
      match call_service c st with
      | (Some ai_text, st') => (strip ai_text, st')
      | (None, st') =>
          if (attempt =? max_retries - 1)%Z then (text', st')
          else single_attempts c text' max_retries rest st'
      end
  end.

Definition translate_single_text (api_key' model' text' translation_type : str)
    (max_retries : Z) : M str :=
  match dict_get translation_rules_dict translation_type with
  | None => raise KeyError
  | Some rule =>
      let system_prompt := system_prompt_of rule in
      let c := make_call api_key' model' system_prompt text' in
      fun st =>
        let (r, st') := single_attempts c text' max_retries (range max_retries) st in
        (Ok r, st')
  end.

Fixpoint _translate_one_by_one (api_key' model' : str) (texts : list str)
    (translation_type : str) (max_retries : Z) : M (list str) :=
  match texts with
  | [] => ret []
  | text' :: rest =>
      translated_text <-
        translate_single_text api_key' model' text' translation_type max_retries ;;
      translated_results <-
        _translate_one_by_one api_key' model' rest translation_type max_retries ;;
      ret (translated_text :: translated_results)
  end.

(** The pattern [^字幕\d+[:：]\s*] after its two first characters: the
    rest of the string after the match, if there is one.  [seen] tells
    whether a digit was read. *)
Fixpoint label_rest (s : str) (seen : bool) : option str :=
  match s with
  | [] => None
  | c :: r =>
      let colon :=
        if seen && ((c =? 58) || (c =? 65306)) then Some (lstrip r) else None in
      match decimal c with
      | Some _ =>
          match label_rest r true with
          | Some t => Some t
          | None => colon
          end
      | None => colon
      end
  end.

(** [re.sub(r'^字幕\d+[:：]\s*', '', s)] *)
Definition strip_label (s : str) : str :=
  match s with
  | 23383 :: 24149 :: r =>
      match label_rest r false with
      | Some t => t
      | None => s
      end
  | _ => s
  end.

Definition _parse_batch_translation (translated_text : str) (expected_count : nat)
    : list str :=
  let parts := split delimiter translated_text in
  fold_left
    (fun cleaned_parts part =>
       match strip part with
       | [] => cleaned_parts
       | cleaned =>
           match strip (strip_label cleaned) with
           | [] => cleaned_parts
           | cleaned' => cleaned_parts ++ [cleaned']
           end
       end)
    parts [].

(** The loop [while len(translated_parts) < len(texts)]; [fuel] bounds
    its iterations. *)
Fixpoint pad_loop (fuel : nat) (translated_parts texts : list str) : list str :=
  match fuel with
  | O => translated_parts
  | S k =>
      if (length translated_parts <? length texts)%nat
      then pad_loop k
             (translated_parts ++ [nth (length translated_parts) texts []]) texts
      else translated_parts
  end.

(** The user prompt of a batch: the instruction, then every text under
    its 1-based label. *)
Definition batch_header (translation_type : str) : str :=
  if str_eqb translation_type bilingual
  then u8 "请翻译以下字幕文本，每条字幕都要按照翻译规则输出（英文在上，中文在下），然后用 ===NEXT=== 分隔下一条字幕的翻译结果："
       ++ [nl; nl]
  else u8 "请翻译以下字幕文本为" ++ translation_type
       ++ u8 "，每条字幕的翻译结果用 ===NEXT=== 分隔：" ++ [nl; nl].

(** The loop [for i, text in enumerate(texts, 1)].  The position [i] of
    a text in a list is below [2 ^ 63], far from the limit on digits,
    so that writing it in the label cannot raise. *)
Fixpoint batch_items (i : Z) (texts : list str) (user_prompt : str) : str :=
  match texts with
  | [] => user_prompt
  | text' :: rest =>
      batch_items (i + 1) rest
        (user_prompt ++ u8 "字幕" ++ to_decimal i ++ u8 "：" ++ text' ++ [nl; nl])
  end.

Definition batch_user_prompt (texts : list str) (translation_type : str) : str :=
  batch_items 1 texts (batch_header translation_type).

(** The retry loop of [translate_texts_batch], over the attempts left. *)
Fixpoint batch_attempts (c : Call) (api_key' model' : str) (texts : list str)
    (translation_type : str) (max_retries : Z) (attempts : list Z)
    : M (list str) :=
  match attempts with
  | [] => ret texts
  | attempt :: rest =>
      fun st =>
        match call_service c st with
        | (Some translated_text, st') =>
            let translated_parts :=
              _parse_batch_translation translated_text (length texts) in
            if (Z.of_nat (length texts) - 1 <=? Z.of_nat (length translated_parts))%Z
            then
              (Ok (firstn (length texts)
                     (pad_loop (length texts) translated_parts texts)), st')
            else
              _translate_one_by_one api_key' model' texts translation_type
                max_retries st'
        | (None, st') =>
            if (attempt =? max_retries - 1)%Z
            then _translate_one_by_one api_key' model' texts translation_type
                   max_retries st'
            else batch_attempts c api_key' model' texts translation_type
                   max_retries rest st'
        end
  end.

Definition translate_texts_batch (api_key' model' : str) (texts : list str)
    (translation_type : str) (max_retries : Z) : M (list str) :=
  match texts with
  | [] => ret []
  | _ =>
      if (length texts <=? 1)%nat
      then _translate_one_by_one api_key' model' texts translation_type max_retries
      else
        match dict_get translation_rules_dict translation_type with
        | None => raise KeyError
        | Some rule =>
            let system_prompt := system_prompt_of rule in
            let user_prompt := batch_user_prompt texts translation_type in
            let c := make_call api_key' model' system_prompt user_prompt in
            batch_attempts c api_key' model' texts translation_type max_retries
              (range max_retries)
        end
  end.

(** ** The file translation *)

(** The loop [for j, subtitle in enumerate(batch_subtitles)]. *)
Fixpoint format_batch (j : nat) (batch_subtitles : list Subtitle)
    (translated_texts : list str) (translation_type : str) : list Subtitle :=
  match batch_subtitles with
  | [] => []
  | subtitle :: rest =>
      let original_text := text subtitle in
      let translated_text :=
        if (j <? length translated_texts)%nat
        then nth j translated_texts []
        else original_text in
      let formatted_text :=
        format_translated_subtitle original_text translated_text translation_type in
      {| index := index subtitle;
         timeline := timeline subtitle;
         text := formatted_text |}
      :: format_batch (S j) rest translated_texts translation_type
  end.

(** The loop [for i in range(0, len(subtitles), batch_size)], over the
    start indices left. *)
Fixpoint translate_batches (api_key' model' : str) (subtitles : list Subtitle)
    (translation_type : str) (batch_size : Z) (starts : list Z)
    (translated_subtitles : list Subtitle) : M (list Subtitle) :=
  match starts with
  | [] => ret translated_subtitles
  | i :: rest =>
      let batch_subtitles := slice subtitles i (i + batch_size) in
      let batch_texts := map text batch_subtitles in
      translated_texts <-
        translate_texts_batch api_key' model' batch_texts translation_type 3 ;;
      translate_batches api_key' model' subtitles translation_type batch_size rest
        (translated_subtitles
           ++ format_batch 0 batch_subtitles translated_texts translation_type)
  end.

(** [translate_srt_file].  [file] is what is read at [srt_file_path],
    [None] when the path does not exist; the result is the text written
    to the output file, whose path is not modelled. *)
Definition translate_srt_file (api_key' model' : str) (file : option str)
    (translation_type : str) (batch_size : Z) : M str :=
  match dict_get translation_rules_dict translation_type with
  | None => raise ValueError
  | Some _ =>
      match file with
      | None => raise FileNotFoundError
      | Some srt_content =>
          let subtitles := parse_srt srt_content in
          match subtitles with
          | [] => raise ValueError
          | _ =>
              if (batch_size =? 0)%Z then raise ZeroDivisionError
              else
                translated_subtitles <-
                  translate_batches api_key' model' subtitles translation_type
                    batch_size
                    (range_step (Z.of_nat (length subtitles)) batch_size) [] ;;
                lift (generate_srt translated_subtitles)
          end
      end
  end.

(** ** What the service does, for the statements *)

(** The first answer among at most [n] calls of [c], with the state
    after the last call made; [None] when the [n] calls all raise. *)
Fixpoint first_reply (n : nat) (c : Call) (st : State) : option str * State :=
  match n with
  | O => (None, st)
  | S k =>
      match call_service c st with
      | (Some t, st') => (Some t, st')
      | (None, st') => first_reply k c st'
      end
  end.

(** The call that carries one text alone. *)
Definition single_call (api_key' model' translation_type text' : str) : option Call :=
  option_map (fun rule => make_call api_key' model' (system_prompt_of rule) text')
    (dict_get translation_rules_dict translation_type).

(** The call that carries a whole batch under its labels. *)
Definition batch_call (api_key' model' translation_type : str) (texts : list str)
    : option Call :=
  option_map
    (fun rule => make_call api_key' model' (system_prompt_of rule)
                   (batch_user_prompt texts translation_type))
    (dict_get translation_rules_dict translation_type).

(** What the per-item path returns: position by position, the result of
    translating that text alone, in some state of the service. *)
Definition per_item (api_key' model' translation_type : str) (max_retries : Z)
    (text' r : str) : Prop :=
  exists s s' : State,
    translate_single_text api_key' model' text'
        translation_type max_retries s = (Ok r, s').

(** Batches translated one after the other, from the state [st] to the
    state [st']: the texts of a batch go to the batch translator
    together, as many translated texts come back, and each record of
    the batch is written with the translated text at its own position.
    The last argument but one is the list of the records written. *)
Inductive batches_translated (api_key' model' translation_type : str)
    : list (list Subtitle) -> State -> list Subtitle -> State -> Prop :=
| batches_done (st : State) :
    batches_translated api_key' model' translation_type [] st [] st
| batches_step (batch : list Subtitle) (rest : list (list Subtitle))
    (st st1 st' : State) (translated_texts : list str) (out : list Subtitle) :
    translate_texts_batch api_key' model' (map text batch) translation_type 3 st
    = (Ok translated_texts, st1) ->
    length translated_texts = length batch ->
    batches_translated api_key' model' translation_type rest st1 out st' ->
    batches_translated api_key' model' translation_type (batch :: rest) st
      (map (fun p => formatted_record translation_type (fst p) (snd p))
         (combine batch translated_texts)
       ++ out)
      st'.

End Service.
Unset Implicit Arguments.

(** ** A concrete interpreter table and a scripted service *)

(** The table that knows the ASCII digits only. *)
Definition ascii_decimal (c : char) : option Z :=
  if (48 <=? c) && (c <=? 57) then Some (Z.of_N c - 48)%Z else None.

Definition ascii_data : UnicodeData.
Proof.
  refine {| decimal := ascii_decimal |}.
  - intros c [H1 H2]. unfold ascii_decimal.
    apply N.leb_le in H1, H2. now rewrite H1, H2.
  - intros c d. unfold ascii_decimal.
    destruct ((48 <=? c) && (c <=? 57)) eqn:E; [|discriminate].
    apply andb_true_iff in E. destruct E as [H1 H2].
    apply N.leb_le in H1, H2. intros [= <-]. lia.
Defined.

(** A service that plays a script: each call takes the next entry, and
    raises once the script is over. *)
Definition script := list (option str).

Definition play (c : Call) (w : script) : option str * script :=
  match w with
  | [] => (None, [])
  | r :: w' => (r, w')
  end.

Definition fresh (w : script) : State script := {| world := w; calls := [] |}.

(** Sample arguments. *)
Definition demo_key : str := u8 "sk-demo".
Definition demo_model : str := u8 "demo-model".
Definition to_chinese : str := u8 "中文".
Definition to_chinese_rule : str := u8 "你需要把用户提供的语言翻译成中文".
Definition demo_texts : list str := [u8 "Hello"; u8 "World"; u8 "Bye"].

Definition demo_srt : str :=
  u8 "1" ++ [nl] ++ u8 "00:00:01,000 --> 00:00:02,000" ++ [nl] ++ u8 "Hello"
  ++ [nl; nl]
  ++ u8 "2" ++ [nl] ++ u8 "00:00:03,000 --> 00:00:04,000" ++ [nl] ++ u8 "World"
  ++ [nl; nl].

(** Blocks of a sample text: two that are valid, one that is not. *)
Definition sample_first : str :=
  u8 "1" ++ [nl] ++ u8 "00:00:01,000 --> 00:00:02,000" ++ [nl] ++ u8 "Hello".

Definition sample_note : str := u8 "note" ++ [nl] ++ u8 "not a record".

Definition sample_last : str :=
  u8 "2" ++ [nl] ++ u8 "00:00:03,000 --> 00:00:04,000" ++ [nl] ++ u8 "World"
  ++ [nl] ++ u8 "again".

Definition demo_single_call : Call :=
  make_call demo_key demo_model (system_prompt_of to_chinese_rule) (u8 "Hello").

Definition demo_batch_call : Call :=
  make_call demo_key demo_model (system_prompt_of to_chinese_rule)
    (batch_user_prompt demo_texts to_chinese).

End Translator.

(* ===================================================================== *)
(** * Shapes of replies and of records, for the statements *)
(* ===================================================================== *)

Module Shapes.
Import PyStr Translator.

Open Scope N_scope.

Section WithTable.
Context {U : UnicodeData}.

(** What the loop of [_parse_batch_translation] makes of one part of
    the reply: [None] where it appends nothing. *)
Definition clean_part (part : str) : option str :=
  match strip part with
  | [] => None
  | cleaned =>
      match strip (strip_label cleaned) with
      | [] => None
      | cleaned' => Some cleaned'
      end
  end.

Definition cleaned_parts (part : str) : list str :=
  match clean_part part with
  | Some cleaned => [cleaned]
  | None => []
  end.

End WithTable.

(** The label that the batch prompt puts in front of the text number
    [i]: [f"字幕{i}："]. *)
Definition prompt_label (i : Z) : str := u8 "字幕" ++ to_decimal i ++ u8 "：".

(** A record whose written form reads back as the record: a timeline
    of one line with the arrow, and a text that ends on a solid
    character and has no blank line, not even at its start. *)
Definition well_formed_record (r : Subtitle) : Prop :=
  ~ In nl (timeline r)
  /\ contains arrow (timeline r) = true
  /\ solid_end (text r)
  /\ blank_free (nl :: text r) = true.

(** A string of white space only. *)
Definition all_space (s : str) : Prop := Forall (fun c => is_space c = true) s.

(** A block of an SRT text as it stands between blank lines: it starts
    and ends on a character that is not white space, and no line of it
    is blank. *)
Definition srt_block (block : str) : Prop :=
  solid_start block /\ solid_end block /\ blank_free block = true.

(** The number of newlines of a string. *)
Definition newlines (s : str) : nat := length (filter (N.eqb nl) s).

(** What separates two blocks: white space with two newlines at least,
    that is the end of a line, one blank line or more, and the white
    space that may stand before the next block. *)
Definition blank_gap (gap : str) : Prop :=
  all_space gap /\ (2 <= newlines gap)%nat.

(** A text made of a first block and of more blocks, each after a gap. *)
Fixpoint srt_text (first : str) (rest : list (str * str)) : str :=
  match rest with
  | [] => first
  | (gap, block) :: rest' => first ++ gap ++ srt_text block rest'
  end.

End Shapes.

(* ===================================================================== *)
(** * The translation loops of [utils/audio_translator.py] *)
(* ===================================================================== *)

(** [generate_subtitles] drives the translator in three modes.  The code
    embedded here is what each mode does between the point where it has
    its texts and the point where it has the SRT text: lines 370-412
    (embedded subtitles) and lines 479-526, repeated at 573-620
    (transcribed audio).  The probing of the video, the transcription
    and the formatting of the times are outside. *)

Module AudioTranslator.
Import PyStr Translator.

Section Segments.

(** The times of a segment are floats that the translation carries
    along without reading them. *)
Variable Time : Type.

(** A transcribed segment: the dict with the keys ['start_time'],
    ['end_time'], ['text']. *)
Record Segment := {
  start_time : Time;
  end_time : Time;
  text : str
}.

(** A segment and what the translation makes of it: the times are
    kept, the text is some translated text formatted against the
    original text. *)
Definition translated_segment (translation_type : str) (segment out : Segment)
    : Prop :=
  start_time out = start_time segment
  /\ end_time out = end_time segment
  /\ exists translated_text,
       text out
       = format_translated_subtitle (text segment) translated_text
           translation_type.

Section Service.
Context {U : UnicodeData}.
Variable World : Type.
Variable text_to_text : Call -> World -> option str * World.

Notation "x <- m ;; k" := (bind m (fun x => k))
  (at level 61, m at next level, right associativity).

(** The choice written at lines 383-398, 492-506 and 586-600: the batch
    translator from [batch_min] texts on, the per-item path below. *)
Definition translate_by_size (api_key' text_models : str) (texts : list str)
    (translation_type : str) (batch_min : Z) : M World (list str) :=
  if (batch_min <=? Z.of_nat (length texts))%Z
  then translate_texts_batch text_to_text api_key' text_models texts
         translation_type 3
  else _translate_one_by_one text_to_text api_key' text_models texts
         translation_type 3.

(** The loop [for i in range(0, len(texts), batch_size)] of lines
    376-401, over the start indices left. *)
Fixpoint translate_text_batches (api_key' text_models : str) (texts : list str)
    (translation_type : str) (batch_size batch_min : Z) (starts : list Z)
    (translated_texts : list str) : M World (list str) :=
  match starts with
  | [] => ret translated_texts
  | i :: rest =>
      let batch_texts := slice texts i (i + batch_size) in
      translated_batch <-
        translate_by_size api_key' text_models batch_texts translation_type
          batch_min ;;
      translate_text_batches api_key' text_models texts translation_type
        batch_size batch_min rest (translated_texts ++ translated_batch)
  end.

(** The loop [for i, subtitle in enumerate(subtitles)] of lines 404-409:
    the text of a subtitle is replaced where a translated text exists. *)
Fixpoint format_subtitles (i : nat) (subtitles : list Subtitle)
    (translated_texts : list str) (translation_type : str) : list Subtitle :=
  match subtitles with
  | [] => []
  | subtitle :: rest =>
      (if (i <? length translated_texts)%nat
       then {| index := index subtitle;
               timeline := timeline subtitle;
               Translator.text :=
                 format_translated_subtitle (Translator.text subtitle)
                   (nth i translated_texts []) translation_type |}
       else subtitle)
      :: format_subtitles (S i) rest translated_texts translation_type
  end.

(** Lines 370-412: from the subtitles parsed out of the video to the
    text of the SRT file. *)
Definition embedded_srt_content (api_key' text_models : str)
    (subtitles : list Subtitle) (translation_type : str)
    (batch_size batch_min : Z) : M World str :=
  let texts := map Translator.text subtitles in
  if (batch_size =? 0)%Z then raise ZeroDivisionError
  else
    translated_texts <-
      translate_text_batches api_key' text_models texts translation_type
        batch_size batch_min (range_step (Z.of_nat (length texts)) batch_size)
        [] ;;
    lift (generate_srt
            (format_subtitles 0 subtitles translated_texts translation_type)).

(** The loop [for j, segment in enumerate(segments_group)] of lines
    510-518: a copy of the segment with the formatted text, for the
    segments that have a translated text. *)
Fixpoint format_segments (j : nat) (segments_group : list Segment)
    (translated_texts : list str) (translation_type : str) : list Segment :=
  match segments_group with
  | [] => []
  | segment :: rest =>
      if (j <? length translated_texts)%nat
      then {| start_time := start_time segment;
              end_time := end_time segment;
              text := format_translated_subtitle (text segment)
                        (nth j translated_texts []) translation_type |}
           :: format_segments (S j) rest translated_texts translation_type
      else format_segments (S j) rest translated_texts translation_type
  end.

(** The loop [for i, segments_group in enumerate(audio_segments_groups)]
    of lines 481-521, over the groups left. *)
Fixpoint translate_groups (api_key' text_models translation_type : str)
    (batch_min : Z) (audio_segments_groups : list (list Segment))
    (translated_segments_groups : list (list Segment))
    : M World (list (list Segment)) :=
  match audio_segments_groups with
  | [] => ret translated_segments_groups
  | segments_group :: rest =>
      match segments_group with
      | [] =>
          translate_groups api_key' text_models translation_type batch_min rest
            (translated_segments_groups ++ [[]])
      | _ :: _ =>
          let texts := map text segments_group in
          translated_texts <-
            translate_by_size api_key' text_models texts translation_type
              batch_min ;;
          let translated_segments :=
            format_segments 0 segments_group translated_texts translation_type in
          translate_groups api_key' text_models translation_type batch_min rest
            (translated_segments_groups ++ [translated_segments])
      end
  end.

(** Lines 479-526: the groups translated, then put end to end. *)
Definition all_translated_segments (api_key' text_models translation_type : str)
    (batch_min : Z) (audio_segments_groups : list (list Segment))
    : M World (list Segment) :=
  translated_segments_groups <-
    translate_groups api_key' text_models translation_type batch_min
      audio_segments_groups [] ;;
  ret (concat translated_segments_groups).

End Service.

End Segments.

Arguments start_time {Time} s.
Arguments end_time {Time} s.
Arguments text {Time} s.
Arguments translated_segment {Time} translation_type segment out.
Arguments format_segments {Time} j segments_group translated_texts
  translation_type.
Arguments translate_by_size {U} [World] text_to_text.
Arguments translate_text_batches {U} [World] text_to_text.
Arguments embedded_srt_content {U} [World] text_to_text.
Arguments translate_groups {Time U} [World] text_to_text.
Arguments all_translated_segments {Time U} [World] text_to_text.

End AudioTranslator.

(* ===================================================================== *)
(** * Facts about the string operations *)
(* ===================================================================== *)

Module StrFacts.
Import PyStr.

Open Scope N_scope.

(** *** White space *)

Lemma is_space_true (c : char) :
  is_space c = true ->
  9 <= c <= 13 \/ 28 <= c <= 32 \/ c = 133 \/ 160 <= c.
Proof.
  unfold is_space. intros H.
  repeat (rewrite ?orb_true_iff, ?andb_true_iff, ?N.leb_le, ?N.eqb_eq in H).
  lia.
Qed.

Lemma printable_not_space (c : char) : 33 <= c <= 132 -> is_space c = false.
Proof.
  intros H. destruct (is_space c) eqn:E; [|reflexivity].
  apply is_space_true in E. lia.
Qed.

Lemma nl_is_space : is_space nl = true.
Proof. reflexivity. Qed.

Lemma not_space_not_nl (c : char) : is_space c = false -> (c =? nl) = false.
Proof.
  intros H. apply N.eqb_neq. intros ->. rewrite nl_is_space in H. discriminate.
Qed.

(** *** The last character *)

Lemma last_cons {A} (x : A) (l : list A) (d : A) : last (x :: l) d = last l x.
Proof.
  revert x d. induction l as [|y l IH]; intros x d; [reflexivity|].
  change (last (x :: y :: l) d) with (last (y :: l) d).
  now rewrite (IH y d), (IH y x).
Qed.

Lemma last_app_gen {A} (a b : list A) (d : A) :
  last (a ++ b) d = last b (last a d).
Proof.
  revert d. induction a as [|x a IH]; intros d; [reflexivity|].
  rewrite <- app_comm_cons, !last_cons. apply IH.
Qed.

Lemma solid_end_nonempty (s : str) : solid_end s -> s <> [].
Proof. intros H ->. unfold solid_end in H. simpl in H. discriminate. Qed.

Lemma solid_start_nonempty (s : str) : solid_start s -> s <> [].
Proof. intros H ->. unfold solid_start in H. simpl in H. discriminate. Qed.

Lemma solid_end_app (a b : str) : solid_end b -> solid_end (a ++ b).
Proof.
  unfold solid_end. intros H. rewrite last_app_gen.
  destruct b as [|x b]; [discriminate H|].
  now rewrite last_cons in *.
Qed.

(** After a white space character, the end of the string is the end of
    what follows it. *)
Lemma solid_end_after_space (a b : str) (c : char) :
  is_space c = true -> solid_end (a ++ c :: b) -> solid_end b.
Proof.
  unfold solid_end. intros Hc. rewrite last_app_gen, last_cons.
  destruct b as [|x b].
  - simpl. congruence.
  - now rewrite !last_cons.
Qed.

(** *** Stripping *)

Lemma lstrip_solid (s : str) : solid_start s -> lstrip s = s.
Proof.
  destruct s as [|c r]; [reflexivity|]. unfold solid_start. simpl.
  now intros ->.
Qed.

Lemma lstrip_suffix (s : str) : exists p, s = p ++ lstrip s.
Proof.
  induction s as [|c r [p IH]]; [now exists []|]. simpl.
  destruct (is_space c).
  - exists (c :: p). simpl. now f_equal.
  - now exists [].
Qed.

Lemma lstrip_start (s : str) : lstrip s <> [] -> solid_start (lstrip s).
Proof.
  induction s as [|c r IH]; simpl; [congruence|].
  destruct (is_space c) eqn:E; [exact IH|]. intros _. exact E.
Qed.

Lemma rstrip_cons (c : char) (r : str) :
  rstrip (c :: r)
  = match rstrip r with
    | [] => if is_space c then [] else [c]
    | _ :: _ => c :: rstrip r
    end.
Proof. simpl. now destruct (rstrip r). Qed.

Lemma rstrip_solid (s : str) : solid_end s -> rstrip s = s.
Proof.
  induction s as [|c r IH]; [reflexivity|]. intros H. rewrite rstrip_cons.
  destruct r as [|x r].
  - simpl. unfold solid_end in H. simpl in H. now rewrite H.
  - rewrite IH; [reflexivity|]. exact H.
Qed.

Lemma rstrip_prefix (s : str) : exists q, s = rstrip s ++ q.
Proof.
  induction s as [|c r [q IH]]; [now exists []|]. rewrite rstrip_cons.
  destruct (rstrip r) as [|x r'] eqn:E.
  - destruct (is_space c).
    + now exists (c :: r).
    + exists r. reflexivity.
  - exists q. simpl. f_equal. exact IH.
Qed.

Lemma rstrip_end (s : str) : rstrip s <> [] -> solid_end (rstrip s).
Proof.
  induction s as [|c r IH]; [simpl; congruence|]. rewrite rstrip_cons.
  destruct (rstrip r) as [|x r'] eqn:E.
  - destruct (is_space c) eqn:Ec; [congruence|]. intros _. exact Ec.
  - intros _. change (solid_end (x :: r')). apply IH. discriminate.
Qed.

Lemma rstrip_start (s : str) :
  solid_start s -> rstrip s <> [] /\ solid_start (rstrip s).
Proof.
  destruct s as [|c r]; [discriminate|]. unfold solid_start. simpl hd.
  intros H. rewrite rstrip_cons. destruct (rstrip r).
  - rewrite H. split; [discriminate | exact H].
  - split; [discriminate | exact H].
Qed.

Lemma rstrip_app_space (s : str) (c : char) :
  is_space c = true -> rstrip (s ++ [c]) = rstrip s.
Proof.
  intros Hc. induction s as [|x s IH].
  - simpl. now rewrite Hc.
  - rewrite <- app_comm_cons, !rstrip_cons, IH. reflexivity.
Qed.

(** Stripping a string that is solid at both ends changes nothing. *)
Lemma strip_solid (s : str) : solid_start s -> solid_end s -> strip s = s.
Proof.
  intros Hs He. unfold strip. rewrite lstrip_solid by exact Hs.
  now apply rstrip_solid.
Qed.

(** What [strip] leaves, if anything, is solid at both ends and is a
    piece of the string. *)
Lemma strip_spec (s : str) :
  strip s <> [] ->
  solid_start (strip s) /\ solid_end (strip s)
  /\ exists p q, s = p ++ strip s ++ q.
Proof.
  unfold strip. intros H.
  assert (Hl : lstrip s <> []) by (intros E; rewrite E in H; now apply H).
  split; [|split].
  - now apply rstrip_start, lstrip_start.
  - now apply rstrip_end.
  - destruct (lstrip_suffix s) as [p Hp].
    destruct (rstrip_prefix (lstrip s)) as [q Hq].
    exists p, q. now rewrite <- Hq.
Qed.

(** *** Lines *)

Lemma split_nl_cons (c : char) (r : str) :
  split [nl] (c :: r)
  = if c =? nl then [] :: split [nl] r else cons_head c (split [nl] r).
Proof.
  unfold split. cbn [split_go starts_with length Nat.pred].
  now rewrite andb_true_r, N.eqb_sym.
Qed.

Lemma split_nl_nonempty (s : str) : split [nl] s <> [].
Proof.
  destruct s as [|c r]; [discriminate|]. rewrite split_nl_cons.
  destruct (c =? nl); [discriminate|].
  destruct (split [nl] r); discriminate.
Qed.

Lemma join_cons_head (sep : str) (c : char) (p : str) (ps : list str) :
  join sep ((c :: p) :: ps) = c :: join sep (p :: ps).
Proof. destruct ps; reflexivity. Qed.

Lemma join_cons_cons (sep x y : str) (r : list str) :
  join sep (x :: y :: r) = x ++ sep ++ join sep (y :: r).
Proof. reflexivity. Qed.

(** Joining the lines of a string gives the string back. *)
Lemma join_split_nl (s : str) : join [nl] (split [nl] s) = s.
Proof.
  induction s as [|c r IH]; [reflexivity|]. rewrite split_nl_cons.
  destruct (c =? nl) eqn:E.
  - apply N.eqb_eq in E. subst c.
    pose proof (split_nl_nonempty r) as Hne.
    destruct (split [nl] r) as [|p ps]; [congruence|].
    rewrite join_cons_cons, IH. reflexivity.
  - pose proof (split_nl_nonempty r) as Hne.
    destruct (split [nl] r) as [|p ps]; [congruence|].
    cbn [cons_head]. rewrite join_cons_head, IH. reflexivity.
Qed.

(** No line holds a newline. *)
Lemma split_nl_lines (s : str) : Forall (fun l => ~ In nl l) (split [nl] s).
Proof.
  induction s as [|c r IH].
  - repeat constructor. intros [].
  - rewrite split_nl_cons. destruct (c =? nl) eqn:E.
    + constructor; [intros [] | exact IH].
    + apply N.eqb_neq in E.
      destruct (split [nl] r) as [|p ps]; cbn [cons_head].
      * repeat constructor. intros [H|[]]. congruence.
      * inversion IH as [|? ? Hp Hps]; subst. constructor; [|exact Hps].
        intros [H|H]; [congruence | now apply Hp].
Qed.

Lemma split_nl_line (x : str) : ~ In nl x -> split [nl] x = [x].
Proof.
  induction x as [|c r IH]; [reflexivity|]. intros H.
  rewrite split_nl_cons.
  replace (c =? nl) with false
    by (symmetry; apply N.eqb_neq; intros ->; apply H; now left).
  rewrite IH by (intros Hin; apply H; now right). reflexivity.
Qed.

Lemma split_nl_app (x t : str) :
  ~ In nl x -> split [nl] (x ++ nl :: t) = x :: split [nl] t.
Proof.
  induction x as [|c r IH]; intros H.
  - cbn [app]. rewrite split_nl_cons. now rewrite N.eqb_refl.
  - rewrite <- app_comm_cons, split_nl_cons.
    replace (c =? nl) with false
      by (symmetry; apply N.eqb_neq; intros ->; apply H; now left).
    rewrite IH by (intros Hin; apply H; now right). reflexivity.
Qed.

(** Splitting what was joined gives the lines back. *)
Lemma split_nl_join (ls : list str) :
  ls <> [] -> Forall (fun l => ~ In nl l) ls -> split [nl] (join [nl] ls) = ls.
Proof.
  induction ls as [|x ls IH]; [congruence|]. intros _ F.
  inversion F as [|? ? Hx Hls]; subst.
  destruct ls as [|y ls].
  - now apply split_nl_line.
  - rewrite join_cons_cons. cbn [app].
    rewrite split_nl_app by exact Hx.
    rewrite IH; [reflexivity | discriminate | exact Hls].
Qed.

(** *** Blank lines *)

Lemma blank_run_cons (c : char) (r : str) :
  blank_run (c :: r) = None
  <-> is_space c = false
      \/ (blank_run r = None /\ (c =? nl) = false).
Proof.
  cbn [blank_run]. destruct (is_space c) eqn:Ec.
  - destruct (blank_run r) as [n|].
    + split; [discriminate | intros [H|[H _]]; discriminate].
    + destruct (c =? nl).
      * split; [discriminate | intros [H|[_ H]]; discriminate].
      * split; auto.
  - split; auto.
Qed.

Lemma blank_run_solid_start (s : str) : solid_start s -> blank_run s = None.
Proof.
  destruct s as [|c r]; [reflexivity|]. unfold solid_start. cbn [hd].
  intros H. apply blank_run_cons. now left.
Qed.

(** No match in a string, none in its beginning. *)
Lemma blank_run_prefix (a b : str) :
  blank_run (a ++ b) = None -> blank_run a = None.
Proof.
  induction a as [|c a IH]; [reflexivity|]. rewrite <- app_comm_cons.
  rewrite !blank_run_cons. intros [H|[H1 H2]]; [now left | right; auto].
Qed.

(** What follows a string that ends on a solid character adds no match. *)
Lemma blank_run_solid (a b : str) :
  solid_end a -> blank_run a = None -> blank_run (a ++ b) = None.
Proof.
  induction a as [|c a IH]; [intros H; discriminate H|].
  intros He. rewrite <- app_comm_cons, !blank_run_cons.
  intros [H|[H1 H2]]; [now left|].
  destruct a as [|x a].
  - left. exact He.
  - right. split; [|exact H2]. apply IH; [exact He | exact H1].
Qed.

Lemma blank_run_bound (s : str) (n : nat) :
  blank_run s = Some n -> (n <= length s)%nat.
Proof.
  revert n. induction s as [|c r IH]; intros n; cbn [blank_run]; [discriminate|].
  destruct (is_space c); [|discriminate].
  destruct (blank_run r) as [m|].
  - intros [= <-]. specialize (IH m eq_refl). simpl. lia.
  - destruct (c =? nl); [|discriminate]. intros [= <-]. simpl. lia.
Qed.

Lemma blank_free_cons (c : char) (r : str) :
  blank_free (c :: r) = true
  <-> ((c =? nl) = false \/ blank_run r = None) /\ blank_free r = true.
Proof.
  cbn [blank_free]. rewrite andb_true_iff, orb_true_iff, negb_true_iff.
  destruct (blank_run r); intuition congruence.
Qed.

Lemma blank_free_suffix (a b : str) :
  blank_free (a ++ b) = true -> blank_free b = true.
Proof.
  induction a as [|c a IH]; [auto|]. rewrite <- app_comm_cons, blank_free_cons.
  intros [_ H]. now apply IH.
Qed.

Lemma blank_free_prefix (a b : str) :
  blank_free (a ++ b) = true -> blank_free a = true.
Proof.
  induction a as [|c a IH]; [reflexivity|].
  rewrite <- app_comm_cons, !blank_free_cons. intros [[H|H] Hf].
  - split; [now left | now apply IH].
  - split; [right; now apply blank_run_prefix with b | now apply IH].
Qed.

Lemma blank_free_after_line (p q : str) :
  ~ In nl p -> blank_free q = true -> blank_free (p ++ q) = true.
Proof.
  induction p as [|c p IH]; [auto|]. intros H Hq.
  rewrite <- app_comm_cons, blank_free_cons. split.
  - left. apply N.eqb_neq. intros ->. apply H. now left.
  - apply IH; [|exact Hq]. intros Hin. apply H. now right.
Qed.

(** *** Splitting on blank lines *)

Lemma re_split_go_skip (s : str) (n : nat) :
  re_split_go s n = re_split_go (skipn n s) O.
Proof.
  revert n. induction s as [|c r IH]; intros [|n]; try reflexivity.
  cbn [re_split_go skipn]. apply IH.
Qed.

Lemma re_split_plain (c : char) (r : str) :
  (c =? nl) = false \/ blank_run r = None ->
  re_split_go (c :: r) O = cons_head c (re_split_go r O).
Proof.
  cbn [re_split_go]. intros [->| ->]; [reflexivity|].
  now destruct (c =? nl).
Qed.

Lemma re_split_match (r : str) (n : nat) :
  blank_run r = Some n ->
  re_split_go (nl :: r) O = [] :: re_split_go (skipn n r) O.
Proof.
  intros H. cbn [re_split_go]. rewrite N.eqb_refl, H.
  now rewrite re_split_go_skip.
Qed.

(** Every piece is free of blank lines, and the first piece starts the
    string. *)
Lemma re_split_pieces_bounded (m : nat) (s : str) :
  (length s <= m)%nat ->
  Forall (fun b => blank_free b = true) (re_split_go s O)
  /\ exists p ps q, re_split_go s O = p :: ps /\ s = p ++ q.
Proof.
  revert s. induction m as [|m IH]; intros s Hlen.
  - destruct s; [|simpl in Hlen; lia]. split.
    + repeat constructor.
    + now exists [], [], [].
  - destruct s as [|c r].
    + split; [repeat constructor | now exists [], [], []].
    + simpl in Hlen.
      destruct (c =? nl) eqn:Ec; [destruct (blank_run r) as [n|] eqn:Er|].
      * apply N.eqb_eq in Ec. subst c. rewrite (re_split_match _ _ Er).
        destruct (IH (skipn n r)) as [F _]; [rewrite length_skipn; lia|].
        split; [constructor; [reflexivity | exact F]|].
        now exists [], (re_split_go (skipn n r) O), (nl :: r).
      * rewrite re_split_plain by (now right).
        destruct (IH r) as [F (p & ps & q & E & Hr)]; [lia|].
        rewrite E in *. cbn [cons_head].
        apply Forall_cons_iff in F. destruct F as [Hp Hps]. split.
        -- constructor; [|exact Hps]. apply blank_free_cons. split; [|exact Hp].
           right. apply blank_run_prefix with q. now rewrite <- Hr.
        -- exists (c :: p), ps, q. split; [reflexivity|]. simpl. now f_equal.
      * rewrite re_split_plain by (now left).
        destruct (IH r) as [F (p & ps & q & E & Hr)]; [lia|].
        rewrite E in *. cbn [cons_head].
        apply Forall_cons_iff in F. destruct F as [Hp Hps]. split.
        -- constructor; [|exact Hps]. apply blank_free_cons. split; [|exact Hp].
           now left.
        -- exists (c :: p), ps, q. split; [reflexivity|]. simpl. now f_equal.
Qed.

Lemma re_split_pieces (s : str) :
  Forall (fun b => blank_free b = true) (re_split_blank s).
Proof. exact (proj1 (re_split_pieces_bounded (length s) s (le_n _))). Qed.

(** A string free of blank lines is its only piece. *)
Lemma re_split_whole (s : str) : blank_free s = true -> re_split_blank s = [s].
Proof.
  unfold re_split_blank. induction s as [|c r IH]; [reflexivity|].
  rewrite blank_free_cons. intros [H Hf].
  rewrite re_split_plain by exact H. now rewrite IH.
Qed.

(** A block, one empty line, and the rest. *)
Lemma re_split_block (b rest : str) :
  blank_free b = true -> solid_end b -> solid_start rest ->
  re_split_go (b ++ nl :: nl :: rest) O = b :: re_split_go rest O.
Proof.
  intros Hf He Hs. induction b as [|c b IH]; [discriminate He|].
  apply blank_free_cons in Hf. destruct Hf as [Hc Hf].
  rewrite <- app_comm_cons. destruct b as [|x b].
  - cbn [app].
    rewrite re_split_plain by (left; now apply not_space_not_nl).
    assert (Hrun : blank_run (nl :: rest) = Some 1%nat).
    { cbn [blank_run]. rewrite nl_is_space, (blank_run_solid_start _ Hs).
      now rewrite N.eqb_refl. }
    rewrite (re_split_match _ _ Hrun). reflexivity.
  - assert (He' : solid_end (x :: b)) by exact He.
    rewrite re_split_plain.
    + rewrite IH by assumption. reflexivity.
    + destruct Hc as [Hc|Hc]; [now left | right].
      now apply blank_run_solid.
Qed.

Lemma solid_start_app (a b : str) : solid_start a -> solid_start (a ++ b).
Proof. destruct a; [discriminate | auto]. Qed.

(** Blocks joined by one empty line split back into the blocks. *)
Lemma re_split_join (blocks : list str) :
  blocks <> [] ->
  Forall (fun b => blank_free b = true /\ solid_start b /\ solid_end b) blocks ->
  re_split_blank (join [nl; nl] blocks) = blocks.
Proof.
  induction blocks as [|b blocks IH]; [congruence|]. intros _ F.
  inversion F as [|? ? (Hf & Hs & He) Hrest]; subst.
  destruct blocks as [|b2 blocks].
  - now apply re_split_whole.
  - rewrite join_cons_cons. unfold re_split_blank. cbn [app].
    rewrite re_split_block; try assumption.
    + f_equal. apply IH; [discriminate | exact Hrest].
    + inversion Hrest as [|? ? (_ & Hs2 & _) _]; subst.
      destruct blocks; [exact Hs2|]. rewrite join_cons_cons.
      now apply solid_start_app.
Qed.

(** *** Reading and writing integers *)

Lemma int_space_printable (c : char) : 33 <= c <= 132 -> int_space c = false.
Proof.
  intros H. unfold int_space. now rewrite printable_not_space.
Qed.

Lemma int_rstrip_id (s : str) :
  Forall (fun c => int_space c = false) s -> int_rstrip s = s.
Proof.
  induction 1 as [|c r Hc Hr IH]; [reflexivity|].
  cbn [int_rstrip]. rewrite IH, Hc. now destruct r.
Qed.

Lemma digits_value_snoc (s : str) (c : char) (acc : Z) :
  digits_value (s ++ [c]) acc
  = (digits_value s acc * 10 + (Z.of_N c - 48))%Z.
Proof. unfold digits_value. now rewrite fold_left_app. Qed.

Lemma digits_go_spec (fuel : nat) (n : N) :
  n < 2 ^ N.of_nat fuel -> (0 < fuel)%nat ->
  digits_go fuel n <> []
  /\ Forall ascii_digit (digits_go fuel n)
  /\ digits_value (digits_go fuel n) 0 = Z.of_N n.
Proof.
  revert n. induction fuel as [|k IH]; intros n Hn Hfuel; [lia|].
  cbn [digits_go]. destruct (n <? 10) eqn:E.
  - apply N.ltb_lt in E. split; [discriminate|]. split.
    + constructor; [|constructor]. unfold ascii_digit. lia.
    + unfold digits_value. cbn [fold_left]. lia.
  - apply N.ltb_ge in E.
    rewrite Nat2N.inj_succ, N.pow_succ_r' in Hn.
    assert (Hdiv : n / 10 < 2 ^ N.of_nat k)
      by (apply N.Div0.div_lt_upper_bound; lia).
    assert (Hk : (0 < k)%nat).
    { destruct k; [|lia]. simpl in Hn. lia. }
    destruct (IH (n / 10) Hdiv Hk) as (Hne & Hd & Hv).
    split; [|split].
    + intros H. apply app_eq_nil in H. destruct H as [_ H]. discriminate.
    + apply Forall_app. split; [exact Hd|]. constructor; [|constructor].
      assert (Hm : n mod 10 < 10) by (apply N.mod_lt; discriminate).
      unfold ascii_digit. clear - Hm.
      generalize dependent (n mod 10). intros m Hm. lia.
    + rewrite digits_value_snoc, Hv.
      assert (Hm : n mod 10 < 10) by (apply N.mod_lt; discriminate).
      pose proof (N.div_mod' n 10) as Hdm. clear - Hm Hdm.
      generalize dependent (n mod 10). generalize dependent (n / 10).
      intros q m Hm Hdm. lia.
Qed.

Lemma digits_spec (p : positive) :
  digits (Npos p) <> []
  /\ Forall ascii_digit (digits (Npos p))
  /\ digits_value (digits (Npos p)) 0 = Zpos p.
Proof.
  unfold digits. apply digits_go_spec; [|lia].
  rewrite Nat2N.inj_succ, N2Nat.id.
  apply N.log2_spec. lia.
Qed.

(** The characters of a written integer: digits and the minus sign. *)
Lemma to_decimal_chars (z : Z) :
  to_decimal z <> [] /\ Forall (fun c => 45 <= c <= 57) (to_decimal z).
Proof.
  destruct z as [|p|p]; cbn [to_decimal].
  - split; [discriminate|]. repeat constructor; lia.
  - destruct (digits_spec p) as (Hne & Hd & _). split; [exact Hne|].
    eapply Forall_impl; [|exact Hd]. unfold ascii_digit. intros; lia.
  - destruct (digits_spec p) as (Hne & Hd & _). split; [discriminate|].
    constructor; [lia|].
    eapply Forall_impl; [|exact Hd]. unfold ascii_digit. intros; lia.
Qed.

Lemma to_decimal_line (z : Z) : ~ In nl (to_decimal z).
Proof.
  destruct (to_decimal_chars z) as [_ F]. intros Hin.
  rewrite Forall_forall in F. specialize (F _ Hin). unfold nl in F. lia.
Qed.

Lemma to_decimal_solid_start (z : Z) : solid_start (to_decimal z).
Proof.
  destruct (to_decimal_chars z) as [Hne F].
  destruct (to_decimal z) as [|c r]; [congruence|].
  inversion F; subst. unfold solid_start. cbn [hd].
  apply printable_not_space. lia.
Qed.

Section ReadInt.
Context {U : UnicodeData}.

Lemma int_digits_ascii (s : str) (acc : Z) :
  Forall ascii_digit s -> int_digits s acc true = Some (digits_value s acc).
Proof.
  intros F. revert acc. induction F as [|c r Hc Hr IH]; intros acc.
  - reflexivity.
  - cbn [int_digits]. rewrite (decimal_ascii c Hc). exact (IH _).
Qed.

Lemma int_digits_ascii_first (s : str) (acc : Z) :
  s <> [] -> Forall ascii_digit s ->
  int_digits s acc false = Some (digits_value s acc).
Proof.
  intros Hne F. destruct F as [|c r Hc Hr]; [congruence|].
  cbn [int_digits]. rewrite (decimal_ascii c Hc).
  exact (int_digits_ascii r _ Hr).
Qed.

Lemma ascii_digits_no_space (s : str) :
  Forall ascii_digit s -> Forall (fun c => int_space c = false) s.
Proof.
  apply Forall_impl. unfold ascii_digit. intros c H.
  apply int_space_printable. lia.
Qed.

Lemma digit_count_cons (c : char) (r : str) :
  digit_count (c :: r)
  = match decimal c with
    | Some _ => S (digit_count r)
    | None => digit_count r
    end.
Proof. unfold digit_count. cbn [filter]. now destruct (decimal c). Qed.

Lemma digit_count_ascii (s : str) :
  Forall ascii_digit s -> digit_count s = length s.
Proof.
  induction 1 as [|c r Hc _ IH]; [reflexivity|].
  rewrite digit_count_cons, (decimal_ascii c Hc), IH. reflexivity.
Qed.

Lemma py_int_digits (s : str) :
  s <> [] -> Forall ascii_digit s ->
  (Z.of_nat (length s) <= int_max_str_digits)%Z ->
  py_int s = Some (digits_value s 0).
Proof.
  intros Hne F Hlen. unfold py_int.
  pose proof (ascii_digits_no_space s F) as Hs.
  pose proof (digit_count_ascii s F) as Hcount.
  destruct s as [|c r]; [congruence|].
  inversion Hs as [|? ? Hc Hr]; subst.
  cbn [int_lstrip]. rewrite Hc, (int_rstrip_id _ Hs).
  inversion F as [|? ? Hd _]; subst. unfold ascii_digit in Hd.
  replace (c =? 45) with false by (symmetry; apply N.eqb_neq; lia).
  replace (c =? 43) with false by (symmetry; apply N.eqb_neq; lia).
  cbn [orb]. cbv zeta. rewrite Hcount.
  replace (int_max_str_digits <? Z.of_nat (length (c :: r)))%Z with false
    by (symmetry; apply Z.ltb_ge; exact Hlen).
  now apply int_digits_ascii_first.
Qed.

Lemma py_int_minus_digits (s : str) :
  s <> [] -> Forall ascii_digit s ->
  (Z.of_nat (length s) <= int_max_str_digits)%Z ->
  py_int (45 :: s) = Some (- digits_value s 0)%Z.
Proof.
  intros Hne F Hlen. unfold py_int.
  pose proof (ascii_digits_no_space s F) as Hs.
  assert (H45 : int_space 45 = false) by reflexivity.
  cbn [int_lstrip]. rewrite H45.
  rewrite (int_rstrip_id (45 :: s)) by (constructor; assumption).
  rewrite N.eqb_refl. cbn [orb]. cbv zeta. rewrite (digit_count_ascii s F).
  replace (int_max_str_digits <? Z.of_nat (length s))%Z with false
    by (symmetry; apply Z.ltb_ge; exact Hlen).
  rewrite (int_digits_ascii_first s 0 Hne F). reflexivity.
Qed.

(** Reading a written integer gives the integer back, when it has no
    more digits than the limit. *)
Lemma py_int_to_decimal (z : Z) :
  str_fits z = true -> py_int (to_decimal z) = Some z.
Proof.
  unfold str_fits. intros Hfit. apply Z.leb_le in Hfit.
  destruct z as [|p|p]; cbn [to_decimal Z.abs_N] in *.
  - rewrite py_int_digits; [reflexivity | discriminate | | ].
    + repeat constructor; unfold ascii_digit; lia.
    + unfold int_max_str_digits. cbn [length]. lia.
  - destruct (digits_spec p) as (Hne & Hd & Hv).
    now rewrite py_int_digits, Hv.
  - destruct (digits_spec p) as (Hne & Hd & Hv).
    now rewrite py_int_minus_digits, Hv.
Qed.

(** The digits of a number below [10 ^ k] are at most [k], and one for
    zero. *)
Lemma digits_go_length (fuel : nat) (n : N) (k : nat) :
  n < 10 ^ N.of_nat k -> (length (digits_go fuel n) <= Nat.max 1 k)%nat.
Proof.
  revert n k. induction fuel as [|f IH]; intros n k Hn; cbn [digits_go].
  - cbn [length]. lia.
  - destruct (n <? 10) eqn:E; [cbn [length]; lia|].
    apply N.ltb_ge in E.
    destruct k as [|k]; [cbn in Hn; lia|].
    destruct k as [|k]; [cbn in Hn; lia|].
    rewrite length_app. cbn [length].
    assert (Hdiv : n / 10 < 10 ^ N.of_nat (S k)).
    { apply N.Div0.div_lt_upper_bound.
      rewrite (Nat2N.inj_succ (S k)), N.pow_succ_r' in Hn. exact Hn. }
    specialize (IH _ _ Hdiv). lia.
Qed.

(** What [int_digits] reads is below the power of ten of the number
    of digits read. *)
Lemma int_digits_bound (s : str) (acc : Z) (prev : bool) (v : Z) :
  int_digits s acc prev = Some v -> (0 <= acc)%Z ->
  (0 <= v < (acc + 1) * 10 ^ Z.of_nat (digit_count s))%Z.
Proof.
  revert acc prev. induction s as [|c r IH]; intros acc prev; cbn [int_digits].
  - destruct prev; [|discriminate]. intros [= <-] Hacc.
    change (digit_count []) with O. cbn [Z.of_nat]. rewrite Z.pow_0_r. lia.
  - rewrite digit_count_cons.
    destruct (decimal c) as [d|] eqn:Ed.
    + intros Hv Hacc. pose proof (decimal_range c d Ed) as Hd.
      specialize (IH _ _ Hv ltac:(lia)).
      rewrite Nat2Z.inj_succ, Z.pow_succ_r by lia.
      destruct IH as [H0 H1]. split; [exact H0|].
      eapply Z.lt_le_trans; [exact H1|].
      assert (Hp : (0 < 10 ^ Z.of_nat (digit_count r))%Z)
        by (apply Z.pow_pos_nonneg; lia).
      nia.
    + destruct ((c =? 95) && prev); [|discriminate].
      intros Hv Hacc. exact (IH _ _ Hv Hacc).
Qed.

Lemma str_fits_below (v : Z) (k : nat) :
  (0 <= v < 10 ^ Z.of_nat k)%Z -> (Z.of_nat k <= int_max_str_digits)%Z ->
  str_fits v = true /\ str_fits (- v) = true.
Proof.
  intros Hv Hk.
  assert (Hfit : (Z.of_nat (length (digits (Z.abs_N v)))
                  <= int_max_str_digits)%Z).
  { assert (Hn : Z.abs_N v < 10 ^ N.of_nat k).
    { apply N2Z.inj_lt. rewrite N2Z.inj_abs_N, Z.abs_eq by lia.
      rewrite N2Z.inj_pow, nat_N_Z. exact (proj2 Hv). }
    pose proof (digits_go_length (S (N.to_nat (N.log2 (Z.abs_N v))))
                  (Z.abs_N v) k Hn) as Hlen.
    fold (digits (Z.abs_N v)) in Hlen.
    unfold int_max_str_digits in *. lia. }
  unfold str_fits. rewrite Zabs2N.inj_opp.
  split; apply Z.leb_le; exact Hfit.
Qed.

(** An integer that [int()] has read can be written by [str()]. *)
Lemma py_int_fits (s : str) (z : Z) : py_int s = Some z -> str_fits z = true.
Proof.
  unfold py_int. destruct (int_rstrip (int_lstrip s)) as [|c r]; [discriminate|].
  cbv zeta.
  destruct (int_max_str_digits <? _)%Z eqn:Hlim; [discriminate|].
  apply Z.ltb_ge in Hlim.
  destruct (c =? 45) eqn:E45; [|destruct (c =? 43) eqn:E43]; cbn [orb] in Hlim.
  - destruct (int_digits r 0 false) as [v|] eqn:Ev; [|discriminate].
    intros [= <-].
    pose proof (int_digits_bound _ _ _ _ Ev ltac:(lia)) as Hb.
    rewrite Z.add_0_l, Z.mul_1_l in Hb.
    exact (proj2 (str_fits_below v _ Hb Hlim)).
  - intros Ev.
    pose proof (int_digits_bound _ _ _ _ Ev ltac:(lia)) as Hb.
    rewrite Z.add_0_l, Z.mul_1_l in Hb.
    exact (proj1 (str_fits_below z _ Hb Hlim)).
  - intros Ev.
    pose proof (int_digits_bound _ _ _ _ Ev ltac:(lia)) as Hb.
    rewrite Z.add_0_l, Z.mul_1_l in Hb.
    exact (proj1 (str_fits_below z _ Hb Hlim)).
Qed.

End ReadInt.

End StrFacts.

(* ===================================================================== *)
(** * Facts on white space, blocks and gaps *)
(* ===================================================================== *)

Module TextFacts.
Import PyStr Translator Shapes StrFacts.

Open Scope N_scope.

(** *** White space around the content *)

Lemma lstrip_all_space (a s : str) : all_space a -> lstrip (a ++ s) = lstrip s.
Proof.
  induction 1 as [|c a Hc _ IH]; [reflexivity|].
  cbn [app lstrip]. now rewrite Hc.
Qed.

Lemma rstrip_all_space (s b : str) : all_space b -> rstrip (s ++ b) = rstrip s.
Proof.
  induction b as [|c b IH] using rev_ind; intros Hb.
  - now rewrite app_nil_r.
  - apply Forall_app in Hb. destruct Hb as [Hb Hc].
    apply Forall_cons_iff in Hc. destruct Hc as [Hc _].
    rewrite app_assoc, rstrip_app_space by exact Hc. now apply IH.
Qed.

Lemma strip_all_space_r (s b : str) : all_space b -> strip (s ++ b) = strip s.
Proof.
  intros Hb. unfold strip. induction s as [|c s IH].
  - cbn [app lstrip]. rewrite <- (app_nil_r b) at 1.
    now rewrite lstrip_all_space.
  - cbn [app lstrip]. destruct (is_space c); [exact IH|].
    now apply (rstrip_all_space (c :: s) b).
Qed.

Lemma strip_around (a s b : str) :
  all_space a -> all_space b -> strip (a ++ s ++ b) = strip s.
Proof.
  intros Ha Hb. unfold strip. rewrite lstrip_all_space by exact Ha.
  now apply strip_all_space_r.
Qed.

Lemma strip_all_space (s : str) : all_space s -> strip s = [].
Proof.
  intros H. unfold strip. rewrite <- (app_nil_r s).
  now rewrite lstrip_all_space.
Qed.

Lemma strip_padded (a s b : str) :
  all_space a -> all_space b -> solid_start s -> solid_end s ->
  strip (a ++ s ++ b) = s.
Proof.
  intros Ha Hb Hs He. rewrite strip_around by assumption.
  now apply strip_solid.
Qed.

Lemma strip_twice (s : str) : strip (strip s) = strip s.
Proof.
  destruct (strip s) as [|c r] eqn:E; [reflexivity|].
  rewrite <- E.
  destruct (strip_spec s) as (Hs & He & _); [rewrite E; discriminate|].
  now apply strip_solid.
Qed.

(** *** The newlines of a gap *)

Lemma newlines_cons (c : char) (s : str) :
  newlines (c :: s) = if nl =? c then S (newlines s) else newlines s.
Proof. unfold newlines. cbn [filter]. now destruct (nl =? c). Qed.

Lemma newlines_none (s : str) : newlines s = O -> ~ In nl s.
Proof.
  induction s as [|c s IH]; [intros _ []|].
  rewrite newlines_cons. destruct (nl =? c) eqn:E; [discriminate|].
  apply N.eqb_neq in E. intros H [Hc|Hin]; [congruence | now apply IH].
Qed.

Lemma first_newline (s : str) :
  (1 <= newlines s)%nat ->
  exists pre r, s = pre ++ nl :: r /\ ~ In nl pre /\ newlines s = S (newlines r).
Proof.
  induction s as [|c s IH]; [cbn; lia|].
  rewrite newlines_cons. destruct (nl =? c) eqn:E.
  - apply N.eqb_eq in E. subst c. intros _. exists [], s. now split.
  - apply N.eqb_neq in E. intros H.
    destruct (IH H) as (pre & r & -> & Hpre & Hn).
    exists (c :: pre), r. split; [reflexivity|]. split; [|exact Hn].
    intros [Hc|Hin]; [congruence | now apply Hpre].
Qed.

Lemma last_newline (s : str) :
  (1 <= newlines s)%nat ->
  exists r post, s = r ++ nl :: post /\ ~ In nl post.
Proof.
  induction s as [|c s IH]; [cbn; lia|].
  destruct (newlines s) as [|n] eqn:En.
  - rewrite newlines_cons, En. destruct (nl =? c) eqn:E; [|lia].
    apply N.eqb_eq in E. subst c. intros _. exists [], s.
    split; [reflexivity | now apply newlines_none].
  - intros _. destruct (IH ltac:(lia)) as (r & post & -> & Hpost).
    exists (c :: r), post. now split.
Qed.

Lemma gap_parts (gap : str) :
  blank_gap gap ->
  exists pre mid post,
    gap = pre ++ nl :: mid ++ nl :: post
    /\ all_space pre /\ all_space mid /\ all_space post
    /\ ~ In nl pre /\ ~ In nl post.
Proof.
  intros [Hspace Hn].
  destruct (first_newline gap ltac:(lia)) as (pre & r & -> & Hpre & Hr).
  destruct (last_newline r ltac:(lia)) as (mid & post & -> & Hpost).
  exists pre, mid, post. split; [reflexivity|].
  apply Forall_app in Hspace. destruct Hspace as [H1 H2].
  apply Forall_cons_iff in H2. destruct H2 as [_ H2].
  apply Forall_app in H2. destruct H2 as [H2 H3].
  apply Forall_cons_iff in H3. destruct H3 as [_ H3].
  repeat split; assumption.
Qed.

(** *** The pattern at a gap *)

Lemma blank_run_no_newline (p r : str) :
  all_space p -> ~ In nl p -> solid_start r -> blank_run (p ++ r) = None.
Proof.
  intros Hp Hnl Hr. induction Hp as [|c p Hc _ IH].
  - now apply blank_run_solid_start.
  - cbn [app]. apply blank_run_cons. right. split.
    + apply IH. intros H. apply Hnl. now right.
    + apply N.eqb_neq. intros ->. apply Hnl. now left.
Qed.

Lemma blank_run_gap (mid post r : str) :
  all_space mid -> all_space post -> ~ In nl post -> solid_start r ->
  blank_run (mid ++ nl :: post ++ r) = Some (S (length mid)).
Proof.
  intros Hmid Hpost Hnl Hr. induction Hmid as [|c mid Hc _ IH].
  - cbn [app blank_run length].
    rewrite nl_is_space, (blank_run_no_newline _ _ Hpost Hnl Hr).
    now rewrite N.eqb_refl.
  - cbn [app blank_run length]. now rewrite Hc, IH.
Qed.

Lemma re_split_at_gap (pre mid post r : str) :
  ~ In nl pre -> all_space mid -> all_space post -> ~ In nl post ->
  solid_start r ->
  re_split_go (pre ++ nl :: mid ++ nl :: post ++ r) O
  = pre :: re_split_go (post ++ r) O.
Proof.
  intros Hpre Hmid Hpost Hnl Hr. induction pre as [|c pre IH].
  - cbn [app].
    rewrite (re_split_match _ _ (blank_run_gap _ _ _ Hmid Hpost Hnl Hr)).
    f_equal. f_equal. clear. induction mid as [|c mid IH]; [reflexivity|].
    exact IH.
  - cbn [app]. rewrite re_split_plain.
    + rewrite IH; [reflexivity|]. intros H. apply Hpre. now right.
    + left. apply N.eqb_neq. intros ->. apply Hpre. now left.
Qed.

(** A block, a gap, and what follows: the block is cut off with the
    white space that ends its last line, and what follows keeps the
    white space that starts its first line. *)
Lemma re_split_gap (b pre mid post r : str) :
  blank_free b = true -> solid_end b ->
  ~ In nl pre -> all_space mid -> all_space post -> ~ In nl post ->
  solid_start r ->
  re_split_go (b ++ pre ++ nl :: mid ++ nl :: post ++ r) O
  = (b ++ pre) :: re_split_go (post ++ r) O.
Proof.
  intros Hf He Hpre Hmid Hpost Hnl Hr.
  induction b as [|c b IH]; [discriminate He|].
  apply blank_free_cons in Hf. destruct Hf as [Hc Hf].
  rewrite <- !app_comm_cons. destruct b as [|x b].
  - cbn [app].
    rewrite re_split_plain by (left; now apply not_space_not_nl).
    now rewrite re_split_at_gap.
  - assert (He' : solid_end (x :: b)) by exact He.
    rewrite re_split_plain.
    + rewrite IH by assumption. reflexivity.
    + destruct Hc as [Hc|Hc]; [now left | right].
      now apply blank_run_solid.
Qed.

(** *** A text of blocks and gaps *)

Lemma srt_text_solid (first : str) (rest : list (str * str)) :
  Forall srt_block (first :: map snd rest) ->
  solid_start (srt_text first rest) /\ solid_end (srt_text first rest).
Proof.
  revert first. induction rest as [|[gap block] rest IH]; intros first F;
    apply Forall_cons_iff in F; destruct F as [(Hs & He & _) F].
  - now split.
  - cbn [srt_text map snd] in *. destruct (IH _ F) as [_ He'].
    split; [now apply solid_start_app | now apply solid_end_app, solid_end_app].
Qed.

(** The pieces that the pattern cuts are the blocks, each with white
    space around it. *)
Lemma re_split_srt_text (rest : list (str * str)) (first post : str) :
  Forall srt_block (first :: map snd rest) ->
  Forall blank_gap (map fst rest) ->
  all_space post -> ~ In nl post ->
  Forall2 (fun piece block => strip piece = block)
    (re_split_go (post ++ srt_text first rest) O)
    (first :: map snd rest).
Proof.
  revert first post.
  induction rest as [|[gap block] rest IH]; intros first post F G Hpost Hnl;
    apply Forall_cons_iff in F; destruct F as [(Hs & He & Hf) F].
  - cbn [srt_text map].
    assert (Hfree : blank_free (post ++ first) = true)
      by (now apply blank_free_after_line).
    pose proof (re_split_whole _ Hfree) as E. unfold re_split_blank in E.
    rewrite E. constructor; [|constructor].
    rewrite <- (app_nil_r first) at 1.
    now apply strip_padded; [| constructor | |].
  - cbn [srt_text map fst snd] in *.
    apply Forall_cons_iff in G. destruct G as [Hgap G].
    destruct (gap_parts _ Hgap)
      as (pre & mid & post' & -> & Hpre & Hmid & Hpost' & Hnl1 & Hnl2).
    destruct (srt_text_solid block rest F) as [Hstart _].
    replace (post ++ first ++ (pre ++ nl :: mid ++ nl :: post')
             ++ srt_text block rest)
      with ((post ++ first) ++ pre ++ nl :: mid ++ nl :: post'
            ++ srt_text block rest).
    2:{ repeat (first [rewrite <- app_assoc | progress (cbn [app])]).
        reflexivity. }
    rewrite re_split_gap; try assumption.
    + constructor; [|now apply IH].
      rewrite <- app_assoc. now apply strip_padded.
    + now apply blank_free_after_line.
    + now apply solid_end_app.
Qed.

(** *** Every text is made of blocks and gaps *)

Lemma lstrip_split (s : str) : exists p, s = p ++ lstrip s /\ all_space p.
Proof.
  induction s as [|c s (p & E & Hp)];
    [exists []; split; [reflexivity | constructor]|].
  cbn [lstrip]. destruct (is_space c) eqn:Hc.
  - exists (c :: p). split; [cbn [app]; now f_equal | now constructor].
  - exists []. split; [reflexivity | constructor].
Qed.

Lemma rstrip_split (s : str) : exists q, s = rstrip s ++ q /\ all_space q.
Proof.
  induction s as [|c s (q & E & Hq)];
    [exists []; split; [reflexivity | constructor]|].
  rewrite rstrip_cons. destruct (rstrip s) as [|x r] eqn:Er.
  - cbn [app] in E. subst q. destruct (is_space c) eqn:Hc.
    + exists (c :: s). split; [reflexivity | now constructor].
    + exists s. split; [reflexivity | exact Hq].
  - exists q. split; [cbn [app]; now f_equal | exact Hq].
Qed.

Lemma all_space_last (s : str) (d : char) :
  all_space s -> is_space d = true -> is_space (last s d) = true.
Proof.
  intros H. revert d. induction H as [|c s Hc _ IH]; intros d Hd; [exact Hd|].
  rewrite last_cons. now apply IH.
Qed.

Lemma all_space_not_solid (s : str) : all_space s -> ~ solid_end s.
Proof.
  intros H He. unfold solid_end in He.
  rewrite (all_space_last s nl H nl_is_space) in He. discriminate.
Qed.

Lemma solid_end_suffix (a b : str) : solid_end (a ++ b) -> b <> [] -> solid_end b.
Proof.
  unfold solid_end. rewrite last_app_gen. intros H Hne.
  destruct b as [|x b]; [congruence|]. now rewrite last_cons in *.
Qed.

Lemma newlines_app (a b : str) : newlines (a ++ b) = (newlines a + newlines b)%nat.
Proof. unfold newlines. now rewrite filter_app, length_app. Qed.

Lemma blank_run_some (r : str) (n : nat) :
  blank_run r = Some n -> exists w r2, r = w ++ nl :: r2 /\ all_space w.
Proof.
  revert n. induction r as [|c r IH]; intros n; cbn [blank_run]; [discriminate|].
  destruct (is_space c) eqn:Hc; [|discriminate].
  destruct (blank_run r) as [m|] eqn:Er.
  - intros _. destruct (IH m eq_refl) as (w & r2 & -> & Hw).
    exists (c :: w), r2. split; [reflexivity | now constructor].
  - destruct (c =? nl) eqn:E; [|discriminate]. apply N.eqb_eq in E. subst c.
    intros _. exists [], r. split; [reflexivity | constructor].
Qed.

Lemma leftmost_match (t : str) :
  blank_free t = false ->
  exists p r n, t = p ++ nl :: r /\ blank_run r = Some n /\ blank_free p = true.
Proof.
  induction t as [|c t IH]; [discriminate|]. intros H.
  destruct (c =? nl) eqn:Ec; [destruct (blank_run t) as [n|] eqn:Er|].
  - apply N.eqb_eq in Ec. subst c. now exists [], t, n.
  - assert (Ht : blank_free t = false).
    { destruct (blank_free t) eqn:Ht; [|reflexivity].
      assert (Hc : blank_free (c :: t) = true)
        by (apply blank_free_cons; split; [now right | exact Ht]).
      congruence. }
    destruct (IH Ht) as (p & r & n & -> & Hr & Hp).
    exists (c :: p), r, n. split; [reflexivity|]. split; [exact Hr|].
    apply blank_free_cons. split; [|exact Hp].
    right. now apply blank_run_prefix with (nl :: r).
  - assert (Ht : blank_free t = false).
    { destruct (blank_free t) eqn:Ht; [|reflexivity].
      assert (Hc : blank_free (c :: t) = true)
        by (apply blank_free_cons; split; [now left | exact Ht]).
      congruence. }
    destruct (IH Ht) as (p & r & n & -> & Hr & Hp).
    exists (c :: p), r, n. split; [reflexivity|]. split; [exact Hr|].
    apply blank_free_cons. split; [now left | exact Hp].
Qed.

Lemma first_block (t : str) :
  solid_start t -> solid_end t -> blank_free t = false ->
  exists b g t',
    t = b ++ g ++ t' /\ srt_block b /\ blank_gap g
    /\ solid_start t' /\ solid_end t' /\ (length t' < length t)%nat.
Proof.
  intros Hs He Hf.
  destruct (leftmost_match t Hf) as (p & r & n & Et & Hr & Hp).
  assert (Hsp : solid_start p).
  { destruct p as [|c p]; [|now subst t].
    subst t. unfold solid_start in Hs. cbn [app hd] in Hs.
    rewrite nl_is_space in Hs. discriminate. }
  destruct (rstrip_start p Hsp) as [Hne Hsb].
  pose proof (rstrip_end p Hne) as Heb.
  destruct (rstrip_split p) as (pre & Ep & Hpre).
  assert (Hfb : blank_free (rstrip p) = true)
    by (rewrite Ep in Hp; now apply blank_free_prefix in Hp).
  destruct (blank_run_some r n Hr) as (w & r2 & Er & Hw).
  destruct (lstrip_split r2) as (ws2 & Er2 & Hws2).
  assert (Et' : t = rstrip p ++ (pre ++ nl :: w ++ nl :: ws2) ++ lstrip r2).
  { rewrite Et, Er. rewrite Ep at 1. rewrite Er2 at 1.
    repeat (first [rewrite <- app_assoc | progress (cbn [app])]). reflexivity. }
  assert (Hne' : lstrip r2 <> []).
  { intros E. rewrite E, app_nil_r in Er2. subst r2.
    rewrite Et, Er in He.
    replace (p ++ nl :: w ++ nl :: ws2) with ((p ++ nl :: w) ++ nl :: ws2) in He
      by (now rewrite <- app_assoc).
    apply (solid_end_after_space _ _ nl nl_is_space) in He.
    now apply (all_space_not_solid ws2). }
  exists (rstrip p), (pre ++ nl :: w ++ nl :: ws2), (lstrip r2).
  split; [exact Et'|]. split; [now repeat split|]. split.
  - split.
    + apply Forall_app. split; [exact Hpre|].
      constructor; [exact nl_is_space|]. apply Forall_app. split; [exact Hw|].
      constructor; [exact nl_is_space | exact Hws2].
    + rewrite newlines_app, newlines_cons, N.eqb_refl.
      rewrite newlines_app, newlines_cons, N.eqb_refl. lia.
  - split; [now apply lstrip_start|]. split.
    + rewrite Et', app_assoc in He. now apply solid_end_suffix in He.
    + rewrite Et'. rewrite !length_app.
      destruct (rstrip p); [congruence | cbn [length]; lia].
Qed.

Lemma trimmed_is_srt_text (n : nat) (t : str) :
  (length t <= n)%nat -> solid_start t -> solid_end t ->
  exists first rest,
    t = srt_text first rest
    /\ Forall srt_block (first :: map snd rest)
    /\ Forall blank_gap (map fst rest).
Proof.
  revert t. induction n as [|n IH]; intros t Hlen Hs He.
  - destruct t; [discriminate He | cbn in Hlen; lia].
  - destruct (blank_free t) eqn:Hf.
    + exists t, []. split; [reflexivity|]. split; [|constructor].
      constructor; [now repeat split | constructor].
    + destruct (first_block t Hs He Hf)
        as (b & g & t' & Et & Hb & Hg & Hs' & He' & Hlt).
      destruct (IH t' ltac:(lia) Hs' He') as (first & rest & -> & F & G).
      exists b, ((g, first) :: rest). split; [exact Et|]. split.
      * constructor; [exact Hb | exact F].
      * constructor; [exact Hg | exact G].
Qed.

(** A text is white space only, or blocks separated by gaps with white
    space around them. *)
Lemma every_text_is_blocks (s : str) :
  all_space s
  \/ exists before first rest after,
       s = before ++ srt_text first rest ++ after
       /\ all_space before /\ all_space after
       /\ Forall srt_block (first :: map snd rest)
       /\ Forall blank_gap (map fst rest).
Proof.
  destruct (lstrip_split s) as (p & Es & Hp).
  destruct (rstrip_split (lstrip s)) as (q & El & Hq).
  fold (strip s) in El.
  destruct (strip s) as [|c r] eqn:E.
  - left. rewrite Es, El. cbn [app]. apply Forall_app. now split.
  - right. destruct (strip_spec s) as (Hs & He & _); [rewrite E; discriminate|].
    rewrite E in Hs, He.
    destruct (trimmed_is_srt_text _ (c :: r) (le_n _) Hs He)
      as (first & rest & Et & F & G).
    exists p, first, rest, q. split; [|now repeat split].
    rewrite Es at 1. rewrite El, Et. reflexivity.
Qed.

End TextFacts.

(* ===================================================================== *)
(** * Properties of the batch translator *)
(* ===================================================================== *)

Module BatchProofs.
Import PyStr Translator.

Section WithService.
Context {U : UnicodeData}.
Variable World : Type.
Variable text_to_text : Call -> World -> option str * World.


(** *** The padding loop *)

Lemma pad_loop_done (fuel : nat) (parts texts : list str) :
  (length texts <= length parts)%nat -> pad_loop fuel parts texts = parts.
Proof.
  destruct fuel as [|k]; simpl; [reflexivity|].
  intros H. apply Nat.ltb_ge in H. now rewrite H.
Qed.

Lemma skipn_nth_cons {A} (d : A) (l : list A) (n : nat) :
  (n < length l)%nat -> skipn n l = nth n l d :: skipn (S n) l.
Proof.
  revert n. induction l as [|x l IH]; intros [|n] H; simpl in *; try lia.
  - reflexivity.
  - apply IH. lia.
Qed.

(** With fuel for every missing position, the loop appends exactly the
    source texts of the missing positions. *)
Lemma pad_loop_spec (fuel : nat) (parts texts : list str) :
  (length texts - length parts <= fuel)%nat ->
  pad_loop fuel parts texts = parts ++ skipn (length parts) texts.
Proof.
  revert parts. induction fuel as [|k IH]; intros parts H; simpl.
  - rewrite skipn_all2 by lia. now rewrite app_nil_r.
  - destruct (length parts <? length texts)%nat eqn:E.
    + apply Nat.ltb_lt in E.
      rewrite IH by (rewrite length_app; simpl; lia).
      rewrite (skipn_nth_cons [] texts _ E).
      rewrite length_app, Nat.add_1_r, <- app_assoc. reflexivity.
    + apply Nat.ltb_ge in E. rewrite skipn_all2 by lia.
      now rewrite app_nil_r.
Qed.

Lemma padded_length (parts texts : list str) :
  (length texts - 1 <= length parts)%nat ->
  length (firstn (length texts) (pad_loop (length texts) parts texts))
  = length texts.
Proof.
  intros H. rewrite pad_loop_spec by lia.
  rewrite length_firstn, length_app, length_skipn. lia.
Qed.

(** *** The per-item path *)

Lemma range_nonpos (n : Z) : (n <= 0)%Z -> range n = [].
Proof.
  intros H. unfold range. now replace (Z.to_nat n) with O by lia.
Qed.

Lemma range_pos (n : Z) :
  (0 < n)%Z -> range n = map Z.of_nat (seq 0 (Z.to_nat n))
               /\ Z.of_nat (0 + Z.to_nat n) = n.
Proof. intros H. split; [reflexivity | lia]. Qed.

(** The retry loop of one text against the first reply of the service. *)
Lemma single_attempts_reply (c : Call) (text' : str) (max_retries : Z)
    (n k : nat) (st : State World) :
  Z.of_nat (k + n) = max_retries ->
  single_attempts text_to_text c text' max_retries (map Z.of_nat (seq k n)) st
  = match first_reply text_to_text n c st with
    | (Some t, st') => (strip t, st')
    | (None, st') => (text', st')
    end.
Proof.
  revert k st. induction n as [|n IH]; intros k st H; simpl; [reflexivity|].
  destruct (call_service text_to_text c st) as [[t|] st'] eqn:E;
    [reflexivity|].
  destruct (Z.of_nat k =? max_retries - 1)%Z eqn:Last.
  - apply Z.eqb_eq in Last. assert (n = O) by lia. subst n. reflexivity.
  - apply IH. lia.
Qed.

Lemma single_text_reply (api_key' model' text' translation_type : str)
    (max_retries : Z) (c : Call) (st : State World) :
  single_call api_key' model' translation_type text' = Some c ->
  translate_single_text text_to_text api_key' model' text'
      translation_type max_retries st
  = match first_reply text_to_text (Z.to_nat max_retries) c st with
    | (Some t, st') => (Ok (strip t), st')
    | (None, st') => (Ok text', st')
    end.
Proof.
  unfold single_call, translate_single_text. intros Hc.
  destruct (dict_get translation_rules_dict translation_type) as [rule|];
    [|discriminate].
  simpl in Hc. injection Hc as <-.
  destruct (Z_lt_le_dec 0 max_retries) as [Hpos|Hneg].
  - destruct (range_pos _ Hpos) as [-> Hsum].
    rewrite (single_attempts_reply _ _ _ _ _ _ Hsum).
    now destruct (first_reply text_to_text _ _ _) as [[t|] st'].
  - rewrite (range_nonpos _ Hneg). replace (Z.to_nat max_retries) with O by lia.
    reflexivity.
Qed.

(** With a supported mode, translating one text never raises. *)
Lemma single_text_total (api_key' model' text' translation_type rule : str)
    (max_retries : Z) (st : State World) :
  dict_get translation_rules_dict translation_type = Some rule ->
  exists r st', translate_single_text text_to_text api_key' model' text'
      translation_type max_retries st
                = (Ok r, st').
Proof.
  intros Hrule.
  assert (Hc : single_call api_key' model' translation_type text'
               = Some (make_call api_key' model' (system_prompt_of rule) text'))
    by (unfold single_call; now rewrite Hrule).
  rewrite (single_text_reply _ _ _ _ _ _ _ Hc).
  destruct (first_reply text_to_text _ _ _) as [[t|] st']; eauto.
Qed.

Lemma one_by_one_total (api_key' model' translation_type rule : str)
    (max_retries : Z) (texts : list str) (st : State World) :
  dict_get translation_rules_dict translation_type = Some rule ->
  exists res st',
    _translate_one_by_one text_to_text api_key' model' texts
        translation_type max_retries st
    = (Ok res, st')
    /\ Forall2 (per_item text_to_text api_key' model'
        translation_type max_retries) texts res.
Proof.
  intros Hrule. revert st.
  induction texts as [|t texts IH]; intros st; simpl.
  - exists [], st. split; [reflexivity | constructor].
  - destruct (single_text_total api_key' model' t _ _ max_retries st Hrule)
      as (r & st1 & E1).
    destruct (IH st1) as (res & st2 & E2 & F).
    exists (r :: res), st2. unfold bind. rewrite E1, E2. split; [reflexivity|].
    constructor; [|exact F]. now exists st, st1.
Qed.

Lemma Forall2_length_eq {A B} (R : A -> B -> Prop) (l : list A) (l' : list B) :
  Forall2 R l l' -> length l = length l'.
Proof. induction 1; simpl; congruence. Qed.

(** Without attempts the per-item path gives the texts back and calls
    nothing. *)
Lemma one_by_one_no_attempt (api_key' model' translation_type rule : str)
    (max_retries : Z) (texts : list str) (st : State World) :
  dict_get translation_rules_dict translation_type = Some rule ->
  (max_retries <= 0)%Z ->
  _translate_one_by_one text_to_text api_key' model' texts
      translation_type max_retries st
  = (Ok texts, st).
Proof.
  intros Hrule Hneg.
  induction texts as [|t texts IH]; simpl; [reflexivity|].
  unfold bind, translate_single_text. rewrite Hrule, (range_nonpos _ Hneg).
  simpl. now rewrite IH.
Qed.

(** *** The calls that are made *)

Lemma reply_calls (n : nat) (c : Call) (st : State World) :
  exists k, (k <= n)%nat
            /\ calls (snd (first_reply text_to_text n c st)) = calls st ++ repeat c k.
Proof.
  revert st. induction n as [|n IH]; intros st; simpl.
  - exists O. split; [lia|]. simpl. now rewrite app_nil_r.
  - unfold call_service.
    destruct (text_to_text c (world st)) as [[t|] w].
    + exists 1%nat. split; [lia | reflexivity].
    + match goal with |- context [first_reply text_to_text n c ?s] =>
          destruct (IH s) as (k & Hk & E) end.
      exists (S k). split; [lia|]. rewrite E. simpl.
      now rewrite <- app_assoc.
Qed.

Lemma reply_none_calls (n : nat) (c : Call) (st : State World) :
  fst (first_reply text_to_text n c st) = None ->
  calls (snd (first_reply text_to_text n c st)) = calls st ++ repeat c n.
Proof.
  revert st. induction n as [|n IH]; intros st; simpl.
  - intros _. now rewrite app_nil_r.
  - unfold call_service.
    destruct (text_to_text c (world st)) as [[t|] w]; simpl; [discriminate|].
    intros H. rewrite (IH _ H). simpl. now rewrite <- app_assoc.
Qed.

(** The calls of the per-item path each carry one of the texts alone. *)
Lemma one_by_one_calls (api_key' model' translation_type : str)
    (max_retries : Z) (texts : list str) (st : State World) :
  exists new,
    calls (snd (_translate_one_by_one text_to_text api_key' model' texts
        translation_type max_retries st))
    = calls st ++ new
    /\ Forall (fun c => exists text', In text' texts
                 /\ single_call api_key' model' translation_type text' = Some c)
              new.
Proof.
  revert st. induction texts as [|t texts IH]; intros st; simpl.
  - exists []. split; [now rewrite app_nil_r | constructor].
  - unfold bind.
    destruct (single_call api_key' model' translation_type t) as [c|] eqn:Hc.
    + rewrite (single_text_reply _ _ _ _ _ _ _ Hc).
      destruct (reply_calls (Z.to_nat max_retries) c st) as (k & _ & Ek).
      assert (exists r st1,
                 (match first_reply text_to_text (Z.to_nat max_retries) c st with
                  | (Some t0, st') => (Ok (strip t0), st')
                  | (None, st') => (Ok t, st')
                  end) = (Ok r, st1) /\ calls st1 = calls st ++ repeat c k)
        as (r & st1 & -> & E1).
      { destruct (first_reply text_to_text _ c st) as [[t0|] st']; simpl in Ek; eauto. }
      destruct (IH st1) as (new & E2 & F).
      destruct (_translate_one_by_one _ _ _ texts _ _ st1) as [[res|e] st2]; simpl in *;
        exists (repeat c k ++ new);
        (split; [rewrite E2, E1; now rewrite app_assoc|]);
        (apply Forall_app; split;
         [ apply Forall_forall; intros x Hx; apply repeat_spec in Hx; subst x;
           exists t; auto
         | eapply Forall_impl; [|exact F]; intros x (t' & Hin & Hx);
           exists t'; auto ]).
    + unfold single_call in Hc. unfold translate_single_text.
      destruct (dict_get translation_rules_dict translation_type);
        [discriminate|].
      exists []. simpl. split; [now rewrite app_nil_r | constructor].
Qed.

Lemma batch_items_length (texts : list str) (i : Z) (prompt : str) :
  (length prompt <= length (batch_items i texts prompt))%nat.
Proof.
  revert i prompt. induction texts as [|t texts IH]; intros i prompt; simpl.
  - lia.
  - etransitivity; [|apply IH]. rewrite length_app. lia.
Qed.

Lemma batch_items_longer (texts : list str) (i : Z) (prompt text' : str) :
  In text' texts -> (length text' < length (batch_items i texts prompt))%nat.
Proof.
  revert i prompt. induction texts as [|t texts IH]; intros i prompt; simpl.
  - intros [].
  - intros [->|Hin]; [|now apply IH].
    eapply Nat.lt_le_trans; [|apply batch_items_length].
    repeat (rewrite length_app; simpl). lia.
Qed.

(** A batch prompt is never one of its own texts. *)
Lemma batch_call_differs (api_key' model' translation_type text' : str)
    (texts : list str) (c : Call) :
  In text' texts ->
  single_call api_key' model' translation_type text' = Some c ->
  batch_call api_key' model' translation_type texts <> Some c.
Proof.
  unfold single_call, batch_call. intros Hin.
  destruct (dict_get translation_rules_dict translation_type) as [rule|];
    simpl; [|discriminate].
  intros [= <-] [= E].
  pose proof (batch_items_longer texts 1 (batch_header translation_type) _ Hin) as L.
  unfold batch_user_prompt in E. rewrite E in L. lia.
Qed.

(** *** The batch loop against the first reply of the service *)

Lemma batch_attempts_reply (c : Call) (api_key' model' translation_type : str)
    (texts : list str) (max_retries : Z) (n k : nat) (st : State World) :
  Z.of_nat (k + n) = max_retries ->
  batch_attempts text_to_text c api_key' model' texts translation_type
    max_retries (map Z.of_nat (seq k n)) st
  = match first_reply text_to_text n c st with
    | (Some t, st') =>
        let parts := _parse_batch_translation t (length texts) in
        if (Z.of_nat (length texts) - 1 <=? Z.of_nat (length parts))%Z
        then (Ok (firstn (length texts) (pad_loop (length texts) parts texts)), st')
        else _translate_one_by_one text_to_text api_key' model' texts
            translation_type max_retries st'
    | (None, st') =>
        match n with
        | O => (Ok texts, st')
        | S _ => _translate_one_by_one text_to_text api_key' model' texts
            translation_type max_retries st'
        end
    end.
Proof.
  revert k st. induction n as [|n IH]; intros k st H; simpl; [reflexivity|].
  destruct (call_service text_to_text c st) as [[t|] st'] eqn:E;
    [reflexivity|].
  destruct (Z.of_nat k =? max_retries - 1)%Z eqn:Last.
  - apply Z.eqb_eq in Last. assert (n = O) by lia. subst n. reflexivity.
  - rewrite IH by lia. destruct n as [|n]; [|reflexivity].
    apply Z.eqb_neq in Last. lia.
Qed.

Lemma batch_reply (api_key' model' translation_type : str) (texts : list str)
    (max_retries : Z) (c : Call) (st : State World) :
  (2 <= length texts)%nat ->
  batch_call api_key' model' translation_type texts = Some c ->
  translate_texts_batch text_to_text api_key' model' texts
      translation_type max_retries st
  = match first_reply text_to_text (Z.to_nat max_retries) c st with
    | (Some t, st') =>
        let parts := _parse_batch_translation t (length texts) in
        if (length texts - 1 <=? length parts)%nat
        then (Ok (firstn (length texts) (parts ++ skipn (length parts) texts)), st')
        else _translate_one_by_one text_to_text api_key' model' texts
            translation_type max_retries st'
    | (None, st') =>
        _translate_one_by_one text_to_text api_key' model' texts
            translation_type max_retries st'
    end.
Proof.
  intros HN Hc. unfold translate_texts_batch.
  destruct texts as [|t0 texts0] eqn:Et; [simpl in HN; lia|]. rewrite <- Et in *.
  destruct (length texts <=? 1)%nat eqn:Short;
    [apply Nat.leb_le in Short; lia|].
  unfold batch_call in Hc.
  destruct (dict_get translation_rules_dict translation_type) as [rule|] eqn:Hrule;
    [|discriminate].
  simpl in Hc. injection Hc as <-.
  destruct (Z_lt_le_dec 0 max_retries) as [Hpos|Hneg].
  - destruct (range_pos _ Hpos) as [-> Hsum].
    rewrite (batch_attempts_reply _ _ _ _ _ _ _ _ _ Hsum).
    destruct (first_reply text_to_text _ _ st) as [[t|] st'].
    + cbv zeta.
      destruct (Z.of_nat (length texts) - 1 <=? Z.of_nat
                  (length (_parse_batch_translation t (length texts))))%Z eqn:A.
      * apply Z.leb_le in A.
        replace (length texts - 1 <=? _)%nat with true
          by (symmetry; apply Nat.leb_le; lia).
        now rewrite pad_loop_spec by lia.
      * apply Z.leb_gt in A.
        replace (length texts - 1 <=? _)%nat with false
          by (symmetry; apply Nat.leb_gt; lia).
        reflexivity.
    + destruct (Z.to_nat max_retries) eqn:En; [lia | reflexivity].
  - rewrite (range_nonpos _ Hneg). replace (Z.to_nat max_retries) with O by lia.
    simpl. now rewrite (one_by_one_no_attempt _ _ _ _ _ _ _ Hrule Hneg).
Qed.

Lemma last_as_nth {A} (l : list A) (d : A) :
  last l d = nth (length l - 1) l d.
Proof.
  induction l as [|x [|y l] IH]; try reflexivity.
  change (last (x :: y :: l) d) with (last (y :: l) d). rewrite IH.
  simpl. now rewrite Nat.sub_0_r.
Qed.

(** Position by position, an accepted batch: the segment where there is
    one, the source text at that index otherwise. *)
Lemma accepted_nth (parts texts : list str) (i : nat) :
  (i < length texts)%nat ->
  nth i (firstn (length texts) (parts ++ skipn (length parts) texts)) []
  = if (i <? length parts)%nat then nth i parts [] else nth i texts [].
Proof.
  intros Hi. rewrite nth_firstn.
  replace (i <? length texts)%nat with true by (symmetry; now apply Nat.ltb_lt).
  destruct (i <? length parts)%nat eqn:E.
  - apply Nat.ltb_lt in E. now rewrite app_nth1.
  - apply Nat.ltb_ge in E. rewrite app_nth2 by lia. rewrite nth_skipn.
    f_equal. lia.
Qed.

Lemma accepted_length (parts texts : list str) :
  (length texts - 1 <= length parts)%nat ->
  length (firstn (length texts) (parts ++ skipn (length parts) texts))
  = length texts.
Proof.
  intros H. rewrite length_firstn, length_app, length_skipn. lia.
Qed.

Lemma translate_texts_batch_short_eq (api_key' model' translation_type : str)
    (texts : list str) (max_retries : Z) (st : State World) :
  (length texts <= 1)%nat ->
  translate_texts_batch text_to_text api_key' model' texts
      translation_type max_retries st
  = _translate_one_by_one text_to_text api_key' model' texts
      translation_type max_retries st.
Proof.
  intros Hshort. unfold translate_texts_batch.
  destruct texts as [|t texts]; [reflexivity|].
  apply Nat.leb_le in Hshort. now rewrite Hshort.
Qed.

(** With a supported mode the batch translator never raises. *)
Lemma translate_texts_batch_total (api_key' model' translation_type rule : str)
    (texts : list str) (max_retries : Z) (st : State World) :
  dict_get translation_rules_dict translation_type = Some rule ->
  exists res st',
    translate_texts_batch text_to_text api_key' model' texts
        translation_type max_retries st = (Ok res, st').
Proof.
  intros Hrule.
  assert (Hone : forall s, exists res st',
             _translate_one_by_one text_to_text api_key' model' texts
                 translation_type max_retries s
             = (Ok res, st')).
  { intros s.
    destruct (one_by_one_total api_key' model' _ _ max_retries texts s Hrule)
      as (res & st' & E & _).
    eauto. }
  destruct (le_lt_dec (length texts) 1) as [Hshort|Hlong].
  - rewrite translate_texts_batch_short_eq by exact Hshort. apply Hone.
  - assert (Hc : batch_call api_key' model' translation_type texts
                 = Some (make_call api_key' model' (system_prompt_of rule)
                           (batch_user_prompt texts translation_type)))
      by (unfold batch_call; now rewrite Hrule).
    rewrite (batch_reply _ _ _ _ _ _ _ Hlong Hc).
    destruct (first_reply text_to_text _ _ st) as [[t|] st1]; [|apply Hone].
    cbv zeta. destruct (length texts - 1 <=? _)%nat; [eauto | apply Hone].
Qed.

(** *** The claims *)

(** With a supported mode both paths return as many translated texts
    as they are given texts. *)
Lemma one_by_one_same_length (api_key' model' translation_type rule : str)
    (max_retries : Z) (texts : list str) (st : State World) :
  dict_get translation_rules_dict translation_type = Some rule ->
  exists res st',
    _translate_one_by_one text_to_text api_key' model' texts translation_type
      max_retries st
    = (Ok res, st')
    /\ length res = length texts.
Proof.
  intros Hrule.
  destruct (one_by_one_total api_key' model' translation_type
              rule max_retries texts st Hrule) as (res & st' & E & F).
  exists res, st'. split; [exact E|].
  symmetry. exact (Forall2_length_eq _ _ _ F).
Qed.

Lemma batch_same_length (api_key' model' translation_type rule : str)
    (max_retries : Z) (texts : list str) (st : State World) :
  dict_get translation_rules_dict translation_type = Some rule ->
  exists res st',
    translate_texts_batch text_to_text api_key' model' texts translation_type
      max_retries st
    = (Ok res, st')
    /\ length res = length texts.
Proof.
  intros Hrule.
  destruct (le_lt_dec (length texts) 1) as [Hshort|Hlong].
  - rewrite translate_texts_batch_short_eq by exact Hshort.
    now apply one_by_one_same_length with rule.
  - assert (Hc : batch_call api_key' model' translation_type texts
                 = Some (make_call api_key' model' (system_prompt_of rule)
                           (batch_user_prompt texts translation_type)))
      by (unfold batch_call; now rewrite Hrule).
    rewrite (batch_reply _ _ _ _ _ _ _ Hlong Hc).
    destruct (first_reply text_to_text _ _ st) as [[t|] st1];
      [|now apply one_by_one_same_length with rule].
    cbv zeta.
    destruct (length texts - 1 <=? _)%nat eqn:A;
      [|now apply one_by_one_same_length with rule].
    apply Nat.leb_le in A. eexists _, st1. split; [reflexivity|].
    now apply accepted_length.
Qed.

(** C10. With the empty list of texts the batch translator returns the
    empty list at once: the state of the service and the log of calls
    are untouched, whatever the mode. *)
Theorem translate_texts_batch_empty (api_key' model' translation_type : str)
    (max_retries : Z) (st : State World) :
  translate_texts_batch text_to_text api_key' model' [] translation_type
    max_retries st
  = (Ok [], st).
Proof. reflexivity. Qed.

(** C4. When the service raises at each of the [max_retries] calls made
    for one text, [translate_single_text] returns that text unchanged as
    a normal result; nothing but those calls has been made. *)
Theorem translate_single_text_exhausted
    (api_key' model' text' translation_type : str) (max_retries : Z)
    (c : Call) (st : State World) :
  single_call api_key' model' translation_type text' = Some c ->
  fst (first_reply text_to_text (Z.to_nat max_retries) c st) = None ->
  exists st',
    translate_single_text text_to_text api_key' model' text'
        translation_type max_retries st = (Ok text', st')
    /\ calls st' = calls st ++ repeat c (Z.to_nat max_retries).
Proof.
  intros Hc Hnone. rewrite (single_text_reply _ _ _ _ _ _ _ Hc).
  pose proof (reply_none_calls _ _ _ Hnone) as Hcalls.
  destruct (first_reply text_to_text _ c st) as [[t|] st']; simpl in *; [discriminate|].
  now exists st'.
Qed.

(** C8. For at most one text the batch translator is the per-item path:
    it computes what [_translate_one_by_one] computes, every call it
    makes carries one of the texts alone, and the labelled batch prompt
    of these texts is not among the calls. *)
Theorem translate_texts_batch_short (api_key' model' translation_type : str)
    (texts : list str) (max_retries : Z) (st : State World) :
  (length texts <= 1)%nat ->
  translate_texts_batch text_to_text api_key' model' texts
      translation_type max_retries st
  = _translate_one_by_one text_to_text api_key' model' texts
      translation_type max_retries st
  /\ exists new,
       calls (snd (translate_texts_batch text_to_text api_key' model' texts
           translation_type max_retries st))
       = calls st ++ new
       /\ Forall (fun c =>
                    (exists text', In text' texts
                       /\ single_call api_key' model' translation_type text' = Some c)
                    /\ batch_call api_key' model' translation_type texts <> Some c)
                 new.
Proof.
  intros Hshort.
  pose proof (translate_texts_batch_short_eq api_key' model' translation_type
                texts max_retries st Hshort) as E.
  split; [exact E|]. rewrite E.
  destruct (one_by_one_calls api_key' model' translation_type max_retries texts st)
    as (new & Hnew & F).
  exists new. split; [exact Hnew|].
  eapply Forall_impl; [|exact F]. intros c (t & Hin & Hc). split.
  - now exists t.
  - now apply (batch_call_differs _ _ _ t).
Qed.

(** C2. When the first reply to the batch call has at least [N - 1]
    cleaned segments, the batch is accepted: the result has length [N],
    holds the segment at every position that has one and the source text
    of that index at the others, segments beyond [N] being dropped; with
    exactly [N - 1] segments the last entry is the last source text. *)
Theorem translate_texts_batch_accepts (api_key' model' translation_type : str)
    (texts : list str) (max_retries : Z) (c : Call) (st st' : State World) (t : str) :
  (2 <= length texts)%nat ->
  batch_call api_key' model' translation_type texts = Some c ->
  first_reply text_to_text (Z.to_nat max_retries) c st = (Some t, st') ->
  (length texts - 1 <= length (_parse_batch_translation t (length texts)))%nat ->
  let parts := _parse_batch_translation t (length texts) in
  exists res,
    translate_texts_batch text_to_text api_key' model' texts
        translation_type max_retries st = (Ok res, st')
    /\ res = firstn (length texts) (parts ++ skipn (length parts) texts)
    /\ length res = length texts
    /\ (forall i, (i < length texts)%nat ->
          nth i res [] = if (i <? length parts)%nat then nth i parts []
                         else nth i texts [])
    /\ (length parts = (length texts - 1)%nat -> last res [] = last texts []).
Proof.
  intros HN Hc Hreply Hcount parts.
  exists (firstn (length texts) (parts ++ skipn (length parts) texts)).
  split; [|split; [reflexivity|split; [|split]]].
  - rewrite (batch_reply _ _ _ _ _ _ _ HN Hc), Hreply. cbv zeta.
    apply Nat.leb_le in Hcount. fold parts. fold parts in Hcount.
    now rewrite Hcount.
  - now apply accepted_length.
  - intros i Hi. now apply accepted_nth.
  - intros Hlen. rewrite !last_as_nth, accepted_length by exact Hcount.
    rewrite accepted_nth by lia.
    replace (length texts - 1 <? length parts)%nat with false
      by (symmetry; apply Nat.ltb_ge; lia).
    reflexivity.
Qed.

(** C3. For [N >= 2] texts, when the first reply to the batch call has
    fewer than [N - 1] cleaned segments, or every attempt of the batch
    call raises, the result is the one of the per-item path run on the
    whole batch: entry by entry the translation of that text alone. *)
Theorem translate_texts_batch_falls_back (api_key' model' translation_type : str)
    (texts : list str) (max_retries : Z) (c : Call) (st st' : State World)
    (r : option str) :
  (2 <= length texts)%nat ->
  batch_call api_key' model' translation_type texts = Some c ->
  first_reply text_to_text (Z.to_nat max_retries) c st = (r, st') ->
  match r with
  | Some t => (length (_parse_batch_translation t (length texts))
               < length texts - 1)%nat
  | None => True
  end ->
  exists res st'',
    translate_texts_batch text_to_text api_key' model' texts
        translation_type max_retries st = (Ok res, st'')
    /\ _translate_one_by_one text_to_text api_key' model' texts
        translation_type max_retries st'
       = (Ok res, st'')
    /\ Forall2 (per_item text_to_text api_key' model'
        translation_type max_retries) texts res.
Proof.
  intros HN Hc Hreply Hr.
  assert (exists rule, dict_get translation_rules_dict translation_type = Some rule)
    as (rule & Hrule).
  { unfold batch_call in Hc.
    destruct (dict_get translation_rules_dict translation_type) as [rule|];
      [eauto | discriminate]. }
  destruct (one_by_one_total api_key' model' _ _ max_retries texts st' Hrule)
    as (res & st'' & E & F).
  exists res, st''. split; [|split; assumption].
  rewrite (batch_reply _ _ _ _ _ _ _ HN Hc), Hreply.
  destruct r as [t|]; [|exact E].
  cbv zeta. apply Nat.leb_gt in Hr. now rewrite Hr.
Qed.

(** C1. With a supported mode the batch translator returns normally a
    list with one entry for each input text, in the order of the input:
    either every entry is the translation of the text at that position
    taken alone, or the entries are, position by position, the segments
    of an accepted batch reply completed with the source texts. *)
Theorem translate_texts_batch_length (api_key' model' translation_type rule : str)
    (texts : list str) (max_retries : Z) (st : State World) :
  dict_get translation_rules_dict translation_type = Some rule ->
  exists res st',
    translate_texts_batch text_to_text api_key' model' texts
        translation_type max_retries st = (Ok res, st')
    /\ length res = length texts
    /\ (Forall2 (per_item text_to_text api_key' model'
        translation_type max_retries) texts res
        \/ exists t,
             let parts := _parse_batch_translation t (length texts) in
             (length texts - 1 <= length parts)%nat
             /\ forall i, (i < length texts)%nat ->
                  nth i res [] = if (i <? length parts)%nat then nth i parts []
                                 else nth i texts []).
Proof.
  intros Hrule.
  destruct (le_lt_dec (length texts) 1) as [Hshort|Hlong].
  - pose proof (translate_texts_batch_short_eq api_key' model' translation_type
                  texts max_retries st Hshort) as E.
    destruct (one_by_one_total api_key' model' _ _ max_retries texts st Hrule)
      as (res & st' & E' & F).
    exists res, st'. rewrite E. split; [exact E'|]. split; [|now left].
    symmetry. exact (Forall2_length_eq _ _ _ F).
  - assert (Hc : batch_call api_key' model' translation_type texts
                 = Some (make_call api_key' model' (system_prompt_of rule)
                           (batch_user_prompt texts translation_type)))
      by (unfold batch_call; now rewrite Hrule).
    rewrite (batch_reply _ _ _ _ _ _ _ Hlong Hc).
    destruct (first_reply text_to_text _ _ st) as [[t|] st1].
    + cbv zeta.
      destruct (length texts - 1 <=? _)%nat eqn:A.
      * apply Nat.leb_le in A. eexists _, st1. split; [reflexivity|].
        split; [now apply accepted_length|]. right. exists t. cbv zeta.
        split; [exact A|]. intros i Hi. now apply accepted_nth.
      * destruct (one_by_one_total api_key' model' _ _ max_retries texts st1 Hrule)
          as (res & st' & E' & F).
        exists res, st'. split; [exact E'|]. split; [|now left].
        symmetry. exact (Forall2_length_eq _ _ _ F).
    + destruct (one_by_one_total api_key' model' _ _ max_retries texts st1 Hrule)
        as (res & st' & E' & F).
      exists res, st'. split; [exact E'|]. split; [|now left].
      symmetry. exact (Forall2_length_eq _ _ _ F).
Qed.

End WithService.

(** *** The claims at sample inputs, with the scripted service *)

Lemma translate_texts_batch_length_witness :
  dict_get translation_rules_dict to_chinese = Some to_chinese_rule
  /\ exists res st',
       translate_texts_batch (U := ascii_data) play demo_key demo_model demo_texts
         to_chinese 3 (fresh [Some (u8 "你好 ===NEXT=== 世界")])
       = (Ok res, st')
       /\ length res = length demo_texts.
Proof.
  assert (H : dict_get translation_rules_dict to_chinese = Some to_chinese_rule)
    by (vm_compute; reflexivity).
  split; [exact H|].
  destruct (translate_texts_batch_length (U := ascii_data) script play
              demo_key demo_model to_chinese to_chinese_rule demo_texts 3
              (fresh [Some (u8 "你好 ===NEXT=== 世界")]) H)
    as (res & st' & E & L & _).
  exists res, st'. split; assumption.
Defined.

Lemma translate_texts_batch_accepts_witness :
  exists res,
    translate_texts_batch (U := ascii_data) play demo_key demo_model demo_texts
      to_chinese 3 (fresh [None; Some (u8 "你好 ===NEXT=== 世界")])
    = (Ok res, {| world := []; calls := [demo_batch_call; demo_batch_call] |})
    /\ last res [] = last demo_texts [].
Proof.
  destruct (translate_texts_batch_accepts (U := ascii_data) script play
              demo_key demo_model to_chinese demo_texts 3 demo_batch_call
              (fresh [None; Some (u8 "你好 ===NEXT=== 世界")])
              {| world := []; calls := [demo_batch_call; demo_batch_call] |}
              (u8 "你好 ===NEXT=== 世界"))
    as (res & E & _ & _ & _ & Hlast).
  - vm_compute. lia.
  - vm_compute. reflexivity.
  - vm_compute. reflexivity.
  - vm_compute. lia.
  - exists res. split; [exact E|]. apply Hlast. vm_compute. reflexivity.
Defined.

Lemma translate_texts_batch_falls_back_witness :
  exists res st'',
    translate_texts_batch (U := ascii_data) play demo_key demo_model demo_texts
      to_chinese 3 (fresh [Some (u8 "你好"); Some (u8 "a"); None; None; None])
    = (Ok res, st'')
    /\ _translate_one_by_one play demo_key demo_model demo_texts
         to_chinese 3
         {| world := [Some (u8 "a"); None; None; None];
            calls := [demo_batch_call] |}
       = (Ok res, st'').
Proof.
  destruct (translate_texts_batch_falls_back (U := ascii_data) script play
              demo_key demo_model to_chinese demo_texts 3 demo_batch_call
              (fresh [Some (u8 "你好"); Some (u8 "a"); None; None; None])
              {| world := [Some (u8 "a"); None; None; None];
                 calls := [demo_batch_call] |}
              (Some (u8 "你好")))
    as (res & st'' & E & E' & _).
  - vm_compute. lia.
  - vm_compute. reflexivity.
  - vm_compute. reflexivity.
  - vm_compute. lia.
  - exists res, st''. split; assumption.
Defined.

Lemma translate_single_text_exhausted_witness :
  exists st',
    translate_single_text play demo_key demo_model (u8 "Hello")
      to_chinese 3 (fresh [None; None; None])
    = (Ok (u8 "Hello"), st')
    /\ calls st' = calls (fresh [None; None; None])
                   ++ repeat demo_single_call (Z.to_nat 3).
Proof.
  apply (translate_single_text_exhausted script play
           demo_key demo_model (u8 "Hello") to_chinese 3 demo_single_call
           (fresh [None; None; None])); vm_compute; reflexivity.
Defined.

Lemma translate_texts_batch_short_witness :
  translate_texts_batch (U := ascii_data) play demo_key demo_model [u8 "Hello"]
    to_chinese 3 (fresh [Some (u8 " 你好 ")])
  = _translate_one_by_one play demo_key demo_model [u8 "Hello"]
      to_chinese 3 (fresh [Some (u8 " 你好 ")]).
Proof.
  apply (translate_texts_batch_short (U := ascii_data) script play
           demo_key demo_model to_chinese [u8 "Hello"] 3
           (fresh [Some (u8 " 你好 ")])).
  vm_compute. lia.
Defined.

End BatchProofs.

(* ===================================================================== *)
(** * Properties of the SRT parser and writer *)
(* ===================================================================== *)

Module ParserProofs.
Import PyStr Translator Shapes StrFacts TextFacts.

Section WithTable.
Context {U : UnicodeData}.

Lemma fold_kept (blocks : list str) (acc : list Subtitle) :
  fold_left
    (fun subtitles block =>
       match parse_block block with
       | Some sub => subtitles ++ [sub]
       | None => subtitles
       end)
    blocks acc
  = acc ++ flat_map kept blocks.
Proof.
  revert acc. induction blocks as [|b blocks IH]; intros acc; cbn [fold_left flat_map].
  - now rewrite app_nil_r.
  - rewrite IH. unfold kept at 2. destruct (parse_block b).
    + now rewrite <- app_assoc.
    + reflexivity.
Qed.

(** [parse_srt] keeps, in order, the records of the blocks of the
    stripped text. *)
Lemma parse_srt_blocks (srt_content : str) :
  parse_srt srt_content = flat_map kept (re_split_blank (strip srt_content)).
Proof. unfold parse_srt. now rewrite fold_kept. Qed.

(** *** The filter of the specification *)

Lemma kept_valid (block : str) :
  kept block = if valid_block block then [record_of_block block] else [].
Proof.
  unfold kept, parse_block, valid_block, record_of_block, block_lines.
  destruct (strip block) as [|c r] eqn:Es; [reflexivity|].
  cbn [is_empty]. cbv zeta.
  destruct (length (split [nl] (c :: r)) <? 3)%nat eqn:El.
  - apply Nat.ltb_lt in El.
    replace (3 <=? _)%nat with false by (symmetry; apply Nat.leb_gt; lia).
    reflexivity.
  - apply Nat.ltb_ge in El.
    replace (3 <=? _)%nat with true by (symmetry; apply Nat.leb_le; lia).
    cbn [andb].
    destruct (py_int (nth 0 (split [nl] (c :: r)) [])) as [idx|]; [|reflexivity].
    cbn [andb]. now destruct (contains arrow (nth 1 (split [nl] (c :: r)) [])).
Qed.

Lemma flat_map_filter_map {A B} (keep : A -> bool) (f : A -> B) (l : list A) :
  flat_map (fun a => if keep a then [f a] else []) l = map f (filter keep l).
Proof.
  induction l as [|a l IH]; [reflexivity|]. cbn [flat_map filter].
  rewrite IH. now destruct (keep a).
Qed.

Lemma filter_none {A} (keep : A -> bool) (l : list A) :
  (forall a, In a l -> keep a = false) -> filter keep l = [].
Proof.
  induction l as [|a l IH]; [reflexivity|]. intros H. cbn [filter].
  rewrite (H a) by (now left). apply IH. intros a' Hin. apply H. now right.
Qed.

Lemma parse_srt_keeps_blocks_aux (srt_content : str) :
  parse_srt srt_content
  = map record_of_block
      (filter valid_block (re_split_blank (strip srt_content))).
Proof.
  rewrite parse_srt_blocks, <- flat_map_filter_map.
  apply flat_map_ext. exact kept_valid.
Qed.

Lemma kept_strip (piece block : str) :
  strip piece = block -> kept piece = kept block.
Proof.
  intros E. unfold kept, parse_block.
  assert (E' : strip block = strip piece)
    by (rewrite <- E; apply strip_twice).
  now rewrite E'.
Qed.

Lemma flat_map_kept_pieces (pieces blocks : list str) :
  Forall2 (fun piece block => strip piece = block) pieces blocks ->
  flat_map kept pieces = flat_map kept blocks.
Proof.
  induction 1 as [|piece block pieces blocks E _ IH]; [reflexivity|].
  cbn [flat_map]. now rewrite (kept_strip _ _ E), IH.
Qed.

(** What [parse_srt] reads in a text of blocks and gaps, with white
    space around it. *)
Lemma parse_srt_text (before after first : str) (rest : list (str * str)) :
  all_space before -> all_space after ->
  Forall srt_block (first :: map snd rest) ->
  Forall blank_gap (map fst rest) ->
  parse_srt (before ++ srt_text first rest ++ after)
  = map record_of_block (filter valid_block (first :: map snd rest)).
Proof.
  intros Hb Ha F G. rewrite parse_srt_blocks.
  destruct (srt_text_solid first rest F) as [Hs He].
  rewrite (strip_padded _ _ _ Hb Ha Hs He).
  pose proof (re_split_srt_text rest first [] F G (Forall_nil _)
                (fun H => H)) as Hpieces.
  cbn [app] in Hpieces. unfold re_split_blank.
  rewrite (flat_map_kept_pieces _ _ Hpieces), <- flat_map_filter_map.
  apply flat_map_ext. exact kept_valid.
Qed.

Lemma parse_srt_blank (srt_content : str) :
  all_space srt_content -> parse_srt srt_content = [].
Proof.
  intros H. rewrite parse_srt_blocks, (strip_all_space _ H). reflexivity.
Qed.

(** C6. [parse_srt] splits the text into blocks at the blank lines and
    keeps a block exactly when it is valid.  For a text made of blocks
    with a gap of blank lines between two of them and white space
    around the whole, the records are, in order, those of the blocks
    that have at least three lines, a first line that reads as an
    integer and a second line with the arrow; the other blocks add
    nothing and raise nothing.  A text of white space only gives the
    empty list, and so does a text without a valid block. *)
Theorem parse_srt_keeps_valid_blocks
    (before after first : str) (rest : list (str * str)) :
  all_space before -> all_space after ->
  Forall srt_block (first :: map snd rest) ->
  Forall blank_gap (map fst rest) ->
  parse_srt (before ++ srt_text first rest ++ after)
  = map record_of_block (filter valid_block (first :: map snd rest))
  /\ (Forall (fun block => valid_block block = false) (first :: map snd rest) ->
      parse_srt (before ++ srt_text first rest ++ after) = [])
  /\ parse_srt (before ++ after) = [].
Proof.
  intros Hb Ha F G.
  pose proof (parse_srt_text before after first rest Hb Ha F G) as E.
  split; [exact E|]. split.
  - intros Hnone. rewrite E, filter_none; [reflexivity|].
    now apply Forall_forall.
  - apply parse_srt_blank. apply Forall_app. now split.
Qed.

(** *** Writing records and reading them back *)

Lemma arrow_contains_refl : contains arrow arrow = true.
Proof. vm_compute. reflexivity. Qed.

Lemma three_lines (lines : list str) :
  (3 <= length lines)%nat ->
  exists l0 l1 l2 ls, lines = l0 :: l1 :: l2 :: ls.
Proof.
  destruct lines as [|l0 [|l1 [|l2 ls]]]; simpl; try lia. intros _. eauto.
Qed.

(** The record of a valid block without blank lines can be read back. *)
Lemma valid_block_rereadable (block : str) :
  blank_free block = true -> valid_block block = true ->
  rereadable (record_of_block block).
Proof.
  intros Hfree Hvalid. unfold valid_block in Hvalid.
  apply andb_true_iff in Hvalid. destruct Hvalid as [Hvalid Harrow].
  apply andb_true_iff in Hvalid. destruct Hvalid as [Hlen Hint].
  apply Nat.leb_le in Hlen.
  destruct (three_lines _ Hlen) as (l0 & l1 & l2 & ls & Elines).
  unfold rereadable, record_of_block, block_text. rewrite Elines in *.
  cbn [nth skipn index timeline text] in *.
  destruct (py_int l0) as [idx|] eqn:Eint; [clear Hint | discriminate].
  pose proof (py_int_fits _ _ Eint) as Hfits.
  set (txt := join [nl] (l2 :: ls)).
  (* the stripped block, line by line *)
  assert (Estrip : strip block = l0 ++ nl :: l1 ++ nl :: txt).
  { rewrite <- (join_split_nl (strip block)). fold (block_lines block).
    rewrite Elines. now rewrite !join_cons_cons. }
  assert (Hne : strip block <> []).
  { rewrite Estrip. destruct l0; discriminate. }
  destruct (strip_spec _ Hne) as (_ & Hend & p & q & Hb).
  assert (Hfree' : blank_free (strip block) = true).
  { rewrite Hb in Hfree. apply blank_free_suffix in Hfree.
    now apply blank_free_prefix in Hfree. }
  pose proof (split_nl_lines (strip block)) as Hlines.
  fold (block_lines block) in Hlines. rewrite Elines in Hlines.
  apply Forall_cons_iff in Hlines. destruct Hlines as [_ Hlines].
  rewrite Estrip in Hfree', Hend.
  assert (Hfree_rest : blank_free (nl :: l1 ++ nl :: txt) = true)
    by (now apply blank_free_suffix in Hfree').
  assert (Hend_rest : solid_end (l1 ++ nl :: txt))
    by (now apply (solid_end_after_space l0 _ nl nl_is_space)).
  assert (Hend_txt : solid_end txt)
    by (now apply (solid_end_after_space l1 _ nl nl_is_space)).
  assert (Hstart : solid_start (to_decimal idx ++ nl :: l1 ++ nl :: txt))
    by (apply solid_start_app, to_decimal_solid_start).
  assert (Hend' : solid_end (to_decimal idx ++ nl :: l1 ++ nl :: txt)).
  { apply solid_end_app.
    change (solid_end ([nl] ++ l1 ++ nl :: txt)). now apply solid_end_app. }
  split; [exact Hfits|]. split; [|split; [|split]]; try assumption.
  - apply blank_free_after_line; [apply to_decimal_line | exact Hfree_rest].
  - rewrite kept_valid. unfold valid_block, record_of_block, block_lines.
    rewrite (strip_solid _ Hstart Hend').
    assert (Esplit : split [nl] (to_decimal idx ++ nl :: l1 ++ nl :: txt)
                     = to_decimal idx :: l1 :: l2 :: ls).
    { change (to_decimal idx ++ nl :: l1 ++ nl :: txt)
        with (join [nl] (to_decimal idx :: l1 :: l2 :: ls)).
      apply split_nl_join; [discriminate|].
      constructor; [apply to_decimal_line | exact Hlines]. }
    rewrite Esplit. cbn [nth skipn length].
    rewrite (py_int_to_decimal _ Hfits), Harrow. reflexivity.
Qed.

Lemma parse_srt_rereadable (srt_content : str) :
  Forall rereadable (parse_srt srt_content).
Proof.
  rewrite parse_srt_keeps_blocks_aux.
  pose proof (re_split_pieces (strip srt_content)) as Hfree.
  induction Hfree as [|b bs Hb Hbs IH]; [constructor|].
  cbn [filter]. destruct (valid_block b) eqn:Hv; [|exact IH].
  cbn [map]. constructor; [|exact IH].
  now apply valid_block_rereadable.
Qed.

(** [generate_srt] returns when the indices can be written, and then
    it writes the four strings of each record, a newline between two
    strings. *)
Lemma generate_srt_lines_fields (subtitles : list Subtitle) (acc : list str) :
  Forall (fun r => str_fits (index r) = true) subtitles ->
  generate_srt_lines subtitles acc = Ok (acc ++ flat_map fields subtitles).
Proof.
  intros F. revert acc.
  induction F as [|r rs Hr _ IH]; intros acc; cbn [generate_srt_lines flat_map].
  - now rewrite app_nil_r.
  - unfold py_str. rewrite Hr, IH. now rewrite <- app_assoc.
Qed.

Lemma generate_srt_fields (subtitles : list Subtitle) :
  Forall (fun r => str_fits (index r) = true) subtitles ->
  generate_srt subtitles = Ok (join [nl] (flat_map fields subtitles)).
Proof.
  intros F. unfold generate_srt. now rewrite generate_srt_lines_fields.
Qed.

(** Beyond the limit on digits it raises [ValueError]. *)
Lemma generate_srt_lines_raises (subtitles : list Subtitle) (acc : list str) :
  Exists (fun r => str_fits (index r) = false) subtitles ->
  generate_srt_lines subtitles acc = Raise ValueError.
Proof.
  revert acc. induction subtitles as [|r rs IH]; intros acc H;
    [inversion H|].
  cbn [generate_srt_lines]. unfold py_str.
  destruct (str_fits (index r)) eqn:E; [|reflexivity].
  apply IH. inversion H; subst; [congruence | assumption].
Qed.

Lemma fields_blocks (subtitles : list Subtitle) :
  subtitles <> [] ->
  join [nl] (flat_map fields subtitles)
  = join [nl; nl] (map block_text subtitles) ++ [nl].
Proof.
  induction subtitles as [|r rs IH]; [congruence|]. intros _.
  cbn [flat_map map]. unfold fields at 1. cbn [app].
  destruct rs as [|r2 rs].
  - cbn [flat_map map join app]. unfold block_text.
    repeat (rewrite <- app_assoc; cbn [app]). reflexivity.
  - specialize (IH ltac:(discriminate)).
    rewrite !join_cons_cons.
    change (join [nl] ([] :: flat_map fields (r2 :: rs)))
      with ([] ++ [nl] ++ join [nl] (flat_map fields (r2 :: rs))).
    rewrite IH. cbn [map]. rewrite join_cons_cons. unfold block_text.
    repeat (rewrite <- app_assoc; cbn [app]). reflexivity.
Qed.

Lemma join_solid (sep : str) (blocks : list str) :
  blocks <> [] ->
  Forall (fun b => solid_start b /\ solid_end b) blocks ->
  solid_start (join sep blocks) /\ solid_end (join sep blocks).
Proof.
  induction blocks as [|b blocks IH]; [congruence|]. intros _ F.
  apply Forall_cons_iff in F. destruct F as [[Hs He] F].
  destruct blocks as [|b2 blocks]; [now split|].
  destruct (IH ltac:(discriminate) F) as [_ He'].
  rewrite join_cons_cons. split.
  - now apply solid_start_app.
  - now apply solid_end_app, solid_end_app.
Qed.

Lemma flat_map_kept_blocks (subtitles : list Subtitle) :
  Forall rereadable subtitles ->
  flat_map kept (map block_text subtitles) = subtitles.
Proof.
  induction 1 as [|r rs (_ & _ & _ & _ & Hk) _ IH]; [reflexivity|].
  cbn [map flat_map]. now rewrite Hk, IH.
Qed.

Lemma rereadable_fits (subtitles : list Subtitle) :
  Forall rereadable subtitles ->
  Forall (fun r => str_fits (index r) = true) subtitles.
Proof. apply Forall_impl. now intros r [H _]. Qed.

(** What is written for records that can be read back reads back as
    these records. *)
Lemma parse_written (subtitles : list Subtitle) :
  Forall rereadable subtitles ->
  parse_srt (join [nl] (flat_map fields subtitles)) = subtitles.
Proof.
  intros F. destruct subtitles as [|r rs] eqn:E.
  - vm_compute. reflexivity.
  - rewrite <- E in *. assert (Hne : subtitles <> []) by (subst; discriminate).
    clear E.
    assert (Hshape : Forall (fun b => blank_free b = true
                                      /\ solid_start b /\ solid_end b)
                       (map block_text subtitles)).
    { apply Forall_map. eapply Forall_impl; [|exact F].
      intros x (_ & H1 & H2 & H3 & _). auto. }
    assert (Hne' : map block_text subtitles <> [])
      by (destruct subtitles; [congruence | discriminate]).
    destruct (join_solid [nl; nl] (map block_text subtitles) Hne') as [Hs He].
    { eapply Forall_impl; [|exact Hshape]. intros x (_ & H2 & H3). auto. }
    rewrite parse_srt_blocks, fields_blocks by exact Hne.
    assert (Estrip : strip (join [nl; nl] (map block_text subtitles) ++ [nl])
                     = join [nl; nl] (map block_text subtitles)).
    { unfold strip. rewrite lstrip_solid by (now apply solid_start_app).
      rewrite rstrip_app_space by exact nl_is_space.
      now apply rstrip_solid. }
    rewrite Estrip, (re_split_join _ Hne' Hshape).
    now apply flat_map_kept_blocks.
Qed.

Lemma parse_generated (subtitles : list Subtitle) :
  Forall rereadable subtitles ->
  generate_srt subtitles = Ok (join [nl] (flat_map fields subtitles))
  /\ parse_srt (join [nl] (flat_map fields subtitles)) = subtitles.
Proof.
  intros F. split.
  - now apply generate_srt_fields, rereadable_fits.
  - now apply parse_written.
Qed.

Lemma srt_block_rereadable (blocks : list str) :
  Forall srt_block blocks ->
  Forall (fun block => valid_block block = true) blocks ->
  Forall rereadable (map record_of_block blocks).
Proof.
  intros F V. apply Forall_map.
  induction F as [|b bs (_ & _ & Hf) _ IH]; [constructor|].
  apply Forall_cons_iff in V. destruct V as [Hv V].
  constructor; [now apply valid_block_rereadable | now apply IH].
Qed.

Lemma filter_all {A} (keep : A -> bool) (l : list A) :
  Forall (fun a => keep a = true) l -> filter keep l = l.
Proof.
  induction 1 as [|a l Ha _ IH]; [reflexivity|].
  cbn [filter]. now rewrite Ha, IH.
Qed.

(** C7. Parsing a valid input and writing the records keeps every
    record.  For a text made of valid blocks with gaps of blank lines
    between them, [parse_srt] reads one record for each block, in
    order: its index is the integer of the first line, its timeline is
    the second line as it stands, its text is the other lines joined
    by newlines.  [generate_srt] then returns, and writes for each
    record its index in decimal, its timeline and its text; read
    again, what is written gives the same records. *)
Theorem parse_generate_roundtrip
    (before after first : str) (rest : list (str * str)) :
  all_space before -> all_space after ->
  Forall srt_block (first :: map snd rest) ->
  Forall blank_gap (map fst rest) ->
  Forall (fun block => valid_block block = true) (first :: map snd rest) ->
  parse_srt (before ++ srt_text first rest ++ after)
  = map record_of_block (first :: map snd rest)
  /\ generate_srt (parse_srt (before ++ srt_text first rest ++ after))
     = Ok (join [nl]
             (flat_map fields (map record_of_block (first :: map snd rest))))
  /\ parse_srt
       (join [nl]
          (flat_map fields (map record_of_block (first :: map snd rest))))
     = map record_of_block (first :: map snd rest).
Proof.
  intros Hb Ha F G V.
  pose proof (parse_srt_text before after first rest Hb Ha F G) as E.
  rewrite (filter_all _ _ V) in E. rewrite E.
  split; [reflexivity|].
  apply parse_generated. now apply srt_block_rereadable.
Qed.

(** For every text, what is read can be written, and reads back as
    itself. *)
Lemma parse_generate_parse (srt_content : str) :
  exists written,
    generate_srt (parse_srt srt_content) = Ok written
    /\ parse_srt written = parse_srt srt_content.
Proof.
  eexists. apply parse_generated, parse_srt_rereadable.
Qed.

End WithTable.

(** *** Sample texts *)

Ltac by_computation := vm_compute; first [reflexivity | lia].

Ltac sample_block := split; [|split]; by_computation.

Ltac sample_gap := split; [repeat constructor | by_computation].

Lemma parse_srt_keeps_valid_blocks_witness :
  parse_srt (U := ascii_data)
    ([nl] ++ srt_text sample_first
               [([32; nl; 32; nl; 32], sample_note); ([nl; nl], sample_last)]
     ++ [32; nl])
  = map (record_of_block (U := ascii_data))
      (filter (valid_block (U := ascii_data))
         [sample_first; sample_note; sample_last])
  /\ (Forall (fun block => valid_block (U := ascii_data) block = false)
        [sample_first; sample_note; sample_last] ->
      parse_srt (U := ascii_data)
        ([nl] ++ srt_text sample_first
                   [([32; nl; 32; nl; 32], sample_note); ([nl; nl], sample_last)]
         ++ [32; nl])
      = [])
  /\ parse_srt (U := ascii_data) ([nl] ++ [32; nl]) = [].
Proof.
  apply (parse_srt_keeps_valid_blocks (U := ascii_data) [nl] [32; nl]
           sample_first
           [([32; nl; 32; nl; 32], sample_note); ([nl; nl], sample_last)]).
  - repeat constructor.
  - repeat constructor.
  - constructor; [sample_block|]. constructor; [sample_block|].
    constructor; [sample_block | constructor].
  - constructor; [sample_gap|]. constructor; [sample_gap | constructor].
Defined.

Lemma parse_generate_roundtrip_witness :
  parse_srt (U := ascii_data)
    ([nl] ++ srt_text sample_first [([nl; 32; nl], sample_last)] ++ [32; nl])
  = map (record_of_block (U := ascii_data)) [sample_first; sample_last]
  /\ generate_srt
       (parse_srt (U := ascii_data)
          ([nl] ++ srt_text sample_first [([nl; 32; nl], sample_last)]
           ++ [32; nl]))
     = Ok (join [nl]
             (flat_map fields
                (map (record_of_block (U := ascii_data))
                   [sample_first; sample_last])))
  /\ parse_srt (U := ascii_data)
       (join [nl]
          (flat_map fields
             (map (record_of_block (U := ascii_data))
                [sample_first; sample_last])))
     = map (record_of_block (U := ascii_data)) [sample_first; sample_last].
Proof.
  apply (parse_generate_roundtrip (U := ascii_data) [nl] [32; nl] sample_first
           [([nl; 32; nl], sample_last)]).
  - repeat constructor.
  - repeat constructor.
  - constructor; [sample_block|]. constructor; [sample_block | constructor].
  - constructor; [sample_gap | constructor].
  - constructor; [by_computation|]. constructor; [by_computation | constructor].
Defined.

End ParserProofs.

(* ===================================================================== *)
(** * Properties of the formatter and of the file translation *)
(* ===================================================================== *)

Module PipelineProofs.
Import PyStr Translator StrFacts BatchProofs ParserProofs.

(** *** Formatting *)

Lemma bilingual_is_bilingual : str_eqb bilingual bilingual = true.
Proof. vm_compute. reflexivity. Qed.

Lemma length_cons_head (c : char) (l : list str) :
  l <> [] -> length (cons_head c l) = length l.
Proof. destruct l; [congruence | reflexivity]. Qed.

(** A text spans two lines or more exactly when it holds a newline. *)
Lemma two_lines_newline (s : str) :
  (2 <= length (split [nl] s))%nat <-> In nl s.
Proof.
  induction s as [|c r IH].
  - simpl. split; [lia | intros []].
  - rewrite split_nl_cons. destruct (c =? nl) eqn:E.
    + apply N.eqb_eq in E. subst c. split; [intros _; now left|]. intros _.
      pose proof (split_nl_nonempty r). destruct (split [nl] r); [congruence|].
      simpl. lia.
    + apply N.eqb_neq in E.
      rewrite length_cons_head by apply split_nl_nonempty.
      rewrite IH. split; [now right | intros [H|H]; [congruence | exact H]].
Qed.

Lemma format_bilingual_lines (original_text translated_text : str) :
  (2 <= length (split [nl] translated_text))%nat ->
  format_translated_subtitle original_text translated_text bilingual
  = translated_text.
Proof.
  intros H. unfold format_translated_subtitle.
  rewrite bilingual_is_bilingual. apply Nat.leb_le in H. now rewrite H.
Qed.

(** C9. In the bilingual mode a translated text of two lines or more
    is returned as it is, whatever the original text. *)
Theorem format_bilingual_multiline (original_text translated_text : str) :
  (2 <= length (split [nl] translated_text))%nat ->
  format_translated_subtitle original_text translated_text bilingual
  = translated_text.
Proof.
  intros H. unfold format_translated_subtitle.
  replace (str_eqb bilingual bilingual) with true
    by (symmetry; exact bilingual_is_bilingual).
  apply Nat.leb_le in H. rewrite H. reflexivity.
Qed.

Lemma format_bilingual_multiline_witness :
  format_translated_subtitle (u8 "你好") (u8 "Hello" ++ [nl] ++ u8 "你好") bilingual
  = u8 "Hello" ++ [nl] ++ u8 "你好".
Proof.
  apply (format_bilingual_multiline (u8 "你好") (u8 "Hello" ++ [nl] ++ u8 "你好")).
  vm_compute. lia.
Defined.

(** Formatting twice in the bilingual mode is formatting once. *)
Lemma format_bilingual_idempotent (original_text translated_text : str) :
  format_translated_subtitle original_text
    (format_translated_subtitle original_text translated_text bilingual)
    bilingual
  = format_translated_subtitle original_text translated_text bilingual.
Proof.
  apply format_bilingual_lines. unfold format_translated_subtitle.
  rewrite bilingual_is_bilingual.
  destruct (2 <=? length (split [nl] translated_text))%nat eqn:E.
  - now apply Nat.leb_le.
  - apply two_lines_newline.
    destruct (_is_chinese original_text);
      apply in_or_app; right; now left.
Qed.

(** *** The file translation *)

Lemma format_batch_records (translation_type : str) (translated_texts : list str)
    (batch_subtitles : list Subtitle) (j : nat) :
  Forall2 (translated_record translation_type) batch_subtitles
    (format_batch j batch_subtitles translated_texts translation_type).
Proof.
  revert j. induction batch_subtitles as [|sub rest IH]; intros j; cbn [format_batch].
  - constructor.
  - constructor; [|apply IH].
    unfold translated_record. cbn [index timeline text]. eauto.
Qed.

Lemma firstn_add {A} (a b : nat) (l : list A) :
  firstn (a + b) l = firstn a l ++ firstn b (skipn a l).
Proof.
  revert l. induction a as [|a IH]; intros l; [reflexivity|].
  destruct l as [|x l]; [now rewrite !firstn_nil|].
  cbn [Nat.add firstn skipn app]. now rewrite IH.
Qed.

Lemma slice_batch {A} (l : list A) (k : nat) (batch_size : Z) :
  (0 < batch_size)%Z ->
  slice l (Z.of_nat k * batch_size) (Z.of_nat k * batch_size + batch_size)
  = firstn (Z.to_nat batch_size) (skipn (k * Z.to_nat batch_size) l).
Proof.
  intros H. unfold slice. f_equal; [|f_equal]; nia.
Qed.

Lemma ceil_covers (len batch_size : Z) :
  (0 <= len)%Z -> (0 < batch_size)%Z ->
  (len <= (len + batch_size - 1) / batch_size * batch_size)%Z.
Proof.
  intros Hl Hb.
  pose proof (Z.div_mod (len + batch_size - 1) batch_size ltac:(lia)) as E.
  pose proof (Z.mod_pos_bound (len + batch_size - 1) batch_size Hb) as B.
  generalize dependent ((len + batch_size - 1) / batch_size)%Z.
  generalize dependent ((len + batch_size - 1) mod batch_size)%Z.
  intros r Hr q Hq. nia.
Qed.

Lemma Forall2_index (translation_type : str) (subs out : list Subtitle) :
  Forall2 (translated_record translation_type) subs out ->
  length out = length subs
  /\ map index out = map index subs
  /\ map timeline out = map timeline subs.
Proof.
  induction 1 as [|s o subs out (Hi & Ht & _) _ (IHl & IHi & IHt)];
    [repeat split|].
  cbn [length map]. now rewrite IHl, IHi, IHt, Hi, Ht.
Qed.

Section WithService.
Context {U : UnicodeData}.
Variable World : Type.
Variable text_to_text : Call -> World -> option str * World.

(** The batches of the loop, from the [k]-th on: every record met is
    translated in its place. *)
Lemma translate_batches_records (api_key' model' translation_type rule : str)
    (subtitles : list Subtitle) (batch_size : Z) :
  dict_get translation_rules_dict translation_type = Some rule ->
  (0 < batch_size)%Z ->
  forall (n k : nat) (acc : list Subtitle) (st : State World),
  exists out st',
    translate_batches text_to_text api_key' model' subtitles translation_type
      batch_size (map (fun i => (Z.of_nat i * batch_size)%Z) (seq k n)) acc st
    = (Ok (acc ++ out), st')
    /\ Forall2 (translated_record translation_type)
         (firstn (n * Z.to_nat batch_size)
            (skipn (k * Z.to_nat batch_size) subtitles))
         out.
Proof.
  intros Hrule Hsize. induction n as [|n IH]; intros k acc st.
  - exists [], st. cbn [seq map translate_batches]. unfold ret.
    rewrite app_nil_r. split; [reflexivity | constructor].
  - cbn [seq map translate_batches]. unfold bind.
    rewrite slice_batch by exact Hsize.
    set (batch_subtitles :=
           firstn (Z.to_nat batch_size)
             (skipn (k * Z.to_nat batch_size) subtitles)).
    destruct (translate_texts_batch_total World text_to_text api_key' model'
                translation_type rule (map text batch_subtitles) 3 st Hrule)
      as (translated_texts & st1 & ->).
    destruct (IH (S k)
                (acc ++ format_batch 0 batch_subtitles translated_texts
                          translation_type) st1)
      as (out & st' & -> & F).
    exists (format_batch 0 batch_subtitles translated_texts translation_type
            ++ out), st'.
    split; [now rewrite app_assoc|].
    replace (S n * Z.to_nat batch_size)%nat
      with (Z.to_nat batch_size + n * Z.to_nat batch_size)%nat by lia.
    rewrite firstn_add. apply Forall2_app.
    + apply format_batch_records.
    + rewrite skipn_skipn.
      replace (Z.to_nat batch_size + k * Z.to_nat batch_size)%nat
        with (S k * Z.to_nat batch_size)%nat by lia.
      exact F.
Qed.

(** The whole loop translates every record in its place. *)
Lemma translate_batches_all (api_key' model' translation_type rule : str)
    (subtitles : list Subtitle) (batch_size : Z) (st : State World) :
  dict_get translation_rules_dict translation_type = Some rule ->
  (0 < batch_size)%Z ->
  exists out st',
    translate_batches text_to_text api_key' model' subtitles translation_type
      batch_size (range_step (Z.of_nat (length subtitles)) batch_size) [] st
    = (Ok out, st')
    /\ Forall2 (translated_record translation_type) subtitles out.
Proof.
  intros Hrule Hsize. unfold range_step.
  replace (0 <? batch_size)%Z with true by (symmetry; now apply Z.ltb_lt).
  set (n := Z.to_nat ((Z.of_nat (length subtitles) + batch_size - 1) / batch_size)).
  destruct (translate_batches_records api_key' model' translation_type rule
              subtitles batch_size Hrule Hsize n 0 [] st)
    as (out & st' & E & F).
  exists out, st'. split; [exact E|].
  cbn [Nat.mul skipn] in F. rewrite firstn_all2 in F; [exact F|].
  pose proof (ceil_covers (Z.of_nat (length subtitles)) batch_size
                ltac:(lia) Hsize) as Hc.
  assert (0 <= (Z.of_nat (length subtitles) + batch_size - 1) / batch_size)%Z
    by (apply Z.div_pos; lia).
  subst n. nia.
Qed.

(** Without a positive batch size: zero raises, and a negative size
    makes the loop run over no batch, so that nothing is written. *)
Lemma translate_srt_file_bad_batch_size
    (api_key' model' srt_content translation_type rule : str)
    (batch_size : Z) (st : State World) :
  dict_get translation_rules_dict translation_type = Some rule ->
  parse_srt srt_content <> [] ->
  (batch_size <= 0)%Z ->
  translate_srt_file text_to_text api_key' model' (Some srt_content)
    translation_type batch_size st
  = if (batch_size =? 0)%Z then (Raise ZeroDivisionError, st) else (Ok [], st).
Proof.
  intros Hrule Hrecords Hsize. unfold translate_srt_file. rewrite Hrule.
  destruct (parse_srt srt_content) as [|sub subs]; [congruence|].
  destruct (batch_size =? 0)%Z eqn:E; [reflexivity|].
  apply Z.eqb_neq in E. unfold range_step.
  replace (0 <? batch_size)%Z with false by (symmetry; apply Z.ltb_ge; lia).
  reflexivity.
Qed.

End WithService.

(** *** Each record with its own translated text *)

Lemma format_batch_combine (translation_type : str)
    (translated_texts : list str) (batch_subtitles : list Subtitle) (j : nat) :
  (j + length batch_subtitles <= length translated_texts)%nat ->
  format_batch j batch_subtitles translated_texts translation_type
  = map (fun p => formatted_record translation_type (fst p) (snd p))
      (combine batch_subtitles (skipn j translated_texts)).
Proof.
  revert j. induction batch_subtitles as [|sub rest IH]; intros j Hlen;
    [reflexivity|].
  cbn [length] in Hlen. cbn [format_batch].
  replace (j <? length translated_texts)%nat with true
    by (symmetry; apply Nat.ltb_lt; lia).
  rewrite (skipn_nth_cons [] translated_texts j) by lia.
  cbn [combine map fst snd]. rewrite IH by lia. reflexivity.
Qed.

(** The slices that the loop takes are the batches of the list. *)
Lemma slices_batches {A} (size : nat) :
  (0 < size)%nat ->
  forall (n fuel : nat) (l : list A),
  (length l <= n * size)%nat ->
  (0 < n -> (n - 1) * size < length l)%nat ->
  (length l <= fuel)%nat ->
  map (fun i => firstn size (skipn (i * size) l)) (seq 0 n)
  = batches_go fuel size l.
Proof.
  intros Hsize. induction n as [|n IH]; intros fuel l Hup Hlow Hfuel.
  - destruct l as [|x l]; [|cbn in Hup; lia]. now destruct fuel.
  - specialize (Hlow ltac:(lia)).
    destruct l as [|x l]; [cbn in Hlow; lia|].
    destruct fuel as [|fuel]; [cbn in Hfuel; lia|].
    cbn [seq map batches_go]. f_equal.
    rewrite <- seq_shift, map_map.
    rewrite <- (IH fuel (skipn size (x :: l))).
    + apply map_ext. intros i. rewrite skipn_skipn. do 2 f_equal. lia.
    + rewrite length_skipn. lia.
    + intros Hn. rewrite length_skipn.
      destruct n as [|m]; [lia|].
      replace (S (S m) - 1)%nat with (S m) in Hlow by lia.
      replace (S m - 1)%nat with m by lia.
      cbn [Nat.mul] in Hlow. lia.
    + rewrite length_skipn. cbn [length] in *. lia.
Qed.

Lemma range_batches {A} (batch_size : Z) (l : list A) :
  (0 < batch_size)%Z ->
  map (fun i => firstn (Z.to_nat batch_size)
                  (skipn (i * Z.to_nat batch_size) l))
    (seq 0 (Z.to_nat ((Z.of_nat (length l) + batch_size - 1) / batch_size)))
  = batches (Z.to_nat batch_size) l.
Proof.
  intros Hsize. unfold batches.
  pose proof (ceil_covers (Z.of_nat (length l)) batch_size ltac:(lia) Hsize)
    as Hc.
  pose proof (Z.mul_div_le (Z.of_nat (length l) + batch_size - 1) batch_size
                Hsize) as Hd.
  assert (H0 : (0 <= (Z.of_nat (length l) + batch_size - 1) / batch_size)%Z)
    by (apply Z.div_pos; lia).
  apply slices_batches; [lia | nia | nia | lia].
Qed.

Lemma batches_go_concat {A} (size : nat) :
  (0 < size)%nat ->
  forall (fuel : nat) (l : list A),
  (length l <= fuel)%nat -> concat (batches_go fuel size l) = l.
Proof.
  intros Hsize. induction fuel as [|fuel IH]; intros l Hfuel.
  - destruct l; [reflexivity | cbn in Hfuel; lia].
  - destruct l as [|x l]; [reflexivity|].
    cbn [batches_go concat]. rewrite IH.
    + apply firstn_skipn.
    + rewrite length_skipn. cbn [length] in *. lia.
Qed.

(** The batches hold every element once, in order. *)
Lemma batches_concat {A} (size : nat) (l : list A) :
  (0 < size)%nat -> concat (batches size l) = l.
Proof. intros H. now apply batches_go_concat. Qed.

Lemma combine_fst {A B} (f : A -> B) (g : A -> str -> A)
    (l : list A) (l' : list str) :
  (forall a t, f (g a t) = f a) ->
  length l' = length l ->
  map f (map (fun p => g (fst p) (snd p)) (combine l l')) = map f l.
Proof.
  intros Hf. revert l'. induction l as [|a l IH]; intros [|t l'] Hlen;
    try discriminate; [reflexivity|].
  cbn [combine map fst snd]. rewrite Hf. f_equal. apply IH.
  now injection Hlen.
Qed.

Section WithService.
Context {U : UnicodeData}.
Variable World : Type.
Variable text_to_text : Call -> World -> option str * World.

Lemma batches_translated_fields (api_key' model' translation_type : str)
    (chunks : list (list Subtitle)) (st st' : State World)
    (out : list Subtitle) :
  batches_translated text_to_text api_key' model' translation_type chunks st
    out st' ->
  map index out = map index (concat chunks)
  /\ map timeline out = map timeline (concat chunks).
Proof.
  induction 1 as [st|batch rest st st1 st' translated_texts out E Hlen _ IH].
  - now split.
  - destruct IH as [Hi Ht]. cbn [concat]. rewrite !map_app, Hi, Ht.
    split; f_equal.
    + now apply (combine_fst index (formatted_record translation_type)).
    + now apply (combine_fst timeline (formatted_record translation_type)).
Qed.

(** The loop of [translate_srt_file] over its batches: it returns, and
    it writes each record with the translated text of its own
    position in its own batch. *)
Lemma translate_batches_aligned (api_key' model' translation_type rule : str)
    (subtitles : list Subtitle) (batch_size : Z) :
  dict_get translation_rules_dict translation_type = Some rule ->
  (0 < batch_size)%Z ->
  forall (n k : nat) (acc : list Subtitle) (st : State World),
  exists out st',
    translate_batches text_to_text api_key' model' subtitles translation_type
      batch_size (map (fun i => (Z.of_nat i * batch_size)%Z) (seq k n)) acc st
    = (Ok (acc ++ out), st')
    /\ batches_translated text_to_text api_key' model' translation_type
         (map (fun i => firstn (Z.to_nat batch_size)
                          (skipn (i * Z.to_nat batch_size) subtitles))
            (seq k n))
         st out st'.
Proof.
  intros Hrule Hsize. induction n as [|n IH]; intros k acc st.
  - exists [], st. cbn [seq map translate_batches]. unfold ret.
    rewrite app_nil_r. split; [reflexivity | constructor].
  - cbn [seq map translate_batches]. unfold bind.
    rewrite slice_batch by exact Hsize.
    set (batch_subtitles :=
           firstn (Z.to_nat batch_size)
             (skipn (k * Z.to_nat batch_size) subtitles)).
    destruct (batch_same_length World text_to_text api_key' model'
                translation_type rule 3 (map text batch_subtitles) st Hrule)
      as (translated_texts & st1 & E & Hlen).
    rewrite length_map in Hlen. rewrite E.
    destruct (IH (S k)
                (acc ++ format_batch 0 batch_subtitles translated_texts
                          translation_type) st1)
      as (out & st' & -> & R).
    rewrite format_batch_combine by (cbn [Nat.add]; lia). cbn [skipn].
    eexists _, st'. split; [now rewrite <- app_assoc|].
    now apply batches_step with st1.
Qed.

Lemma translate_batches_batches (api_key' model' translation_type rule : str)
    (subtitles : list Subtitle) (batch_size : Z) (st : State World) :
  dict_get translation_rules_dict translation_type = Some rule ->
  (0 < batch_size)%Z ->
  exists out st',
    translate_batches text_to_text api_key' model' subtitles translation_type
      batch_size (range_step (Z.of_nat (length subtitles)) batch_size) [] st
    = (Ok out, st')
    /\ batches_translated text_to_text api_key' model' translation_type
         (batches (Z.to_nat batch_size) subtitles) st out st'.
Proof.
  intros Hrule Hsize. unfold range_step.
  replace (0 <? batch_size)%Z with true by (symmetry; now apply Z.ltb_lt).
  destruct (translate_batches_aligned api_key' model' translation_type rule
              subtitles batch_size Hrule Hsize
              (Z.to_nat ((Z.of_nat (length subtitles) + batch_size - 1)
                         / batch_size)) 0 [] st)
    as (out & st' & E & R).
  exists out, st'. split; [exact E|].
  now rewrite range_batches in R.
Qed.

End WithService.

(** *** What is written *)

Lemma generate_srt_lines_length (subtitles : list Subtitle)
    (acc srt_content : list str) :
  generate_srt_lines subtitles acc = Ok srt_content ->
  length srt_content = (length acc + 4 * length subtitles)%nat.
Proof.
  revert acc. induction subtitles as [|r rs IH]; intros acc;
    cbn [generate_srt_lines].
  - intros [= <-]. cbn [length]. lia.
  - destruct (py_str (index r)); [|discriminate].
    intros H. rewrite (IH _ H), length_app. cbn [length]. lia.
Qed.

Lemma generate_srt_nonempty (out : list Subtitle) :
  generate_srt out = Ok [] -> out = [].
Proof.
  destruct out as [|r rs]; [reflexivity|]. unfold generate_srt.
  destruct (generate_srt_lines (r :: rs) []) as [srt_content|e] eqn:E;
    [|discriminate].
  apply generate_srt_lines_length in E. cbn [length] in E.
  destruct srt_content as [|x [|y l]]; [cbn in E; lia | cbn in E; lia|].
  rewrite join_cons_cons. intros [= H].
  apply app_eq_nil in H. destruct H as [_ H]. discriminate.
Qed.

(** *** Sample inputs *)

Example parse_srt_demo :
  parse_srt (U := ascii_data) demo_srt
  = [ {| index := 1; timeline := u8 "00:00:01,000 --> 00:00:02,000";
         text := u8 "Hello" |};
      {| index := 2; timeline := u8 "00:00:03,000 --> 00:00:04,000";
         text := u8 "World" |} ].
Proof. vm_compute. reflexivity. Qed.

Example generate_srt_demo :
  generate_srt (parse_srt (U := ascii_data) demo_srt)
  = Ok (rstrip demo_srt ++ [nl]).
Proof. vm_compute. reflexivity. Qed.

End PipelineProofs.

(* ===================================================================== *)
(** * More about the cleaning of batch replies *)
(* ===================================================================== *)

Module CleaningProofs.
Import PyStr Translator Shapes StrFacts BatchProofs.

Open Scope N_scope.

(** *** Splitting on a separator *)

Lemma split_go_skip (sep s : str) (n : nat) :
  split_go sep s n = split_go sep (skipn n s) O.
Proof.
  revert n. induction s as [|c r IH]; intros [|n]; try reflexivity.
  cbn [split_go skipn]. apply IH.
Qed.

Lemma starts_with_app (p q : str) : starts_with p (p ++ q) = true.
Proof.
  induction p as [|c p IH]; [reflexivity|].
  cbn [app starts_with]. now rewrite N.eqb_refl, IH.
Qed.

Lemma starts_with_other (c0 c : char) (sep' r : str) :
  c <> c0 -> starts_with (c0 :: sep') (c :: r) = false.
Proof.
  intros H. cbn [starts_with].
  replace (c0 =? c) with false by (symmetry; apply N.eqb_neq; congruence).
  reflexivity.
Qed.

(** A string without the first character of the separator is one
    piece. *)
Lemma split_fresh_last (c0 : char) (sep' x : str) :
  ~ In c0 x -> split (c0 :: sep') x = [x].
Proof.
  unfold split. induction x as [|c x IH]; intros H; [reflexivity|].
  cbn [split_go]. rewrite starts_with_other by (intros ->; apply H; now left).
  rewrite IH by (intros Hin; apply H; now right). reflexivity.
Qed.

Lemma split_fresh_segment (c0 : char) (sep' x rest : str) :
  ~ In c0 x ->
  split (c0 :: sep') (x ++ (c0 :: sep') ++ rest)
  = x :: split (c0 :: sep') rest.
Proof.
  unfold split. induction x as [|c x IH]; intros H.
  - cbn [app]. cbn [split_go].
    change (c0 :: sep' ++ rest) with ((c0 :: sep') ++ rest).
    rewrite starts_with_app. cbn [length Nat.pred].
    rewrite split_go_skip. now rewrite skipn_app, skipn_all, Nat.sub_diag.
  - rewrite <- app_comm_cons. cbn [split_go].
    rewrite starts_with_other by (intros ->; apply H; now left).
    rewrite IH by (intros Hin; apply H; now right). reflexivity.
Qed.

(** Splitting on the separator undoes joining with it, when no piece
    holds the first character of the separator. *)
Lemma split_join_fresh (c0 : char) (sep' : str) (segs : list str) :
  segs <> [] -> Forall (fun x => ~ In c0 x) segs ->
  split (c0 :: sep') (join (c0 :: sep') segs) = segs.
Proof.
  induction segs as [|x segs IH]; [congruence|]. intros _ F.
  apply Forall_cons_iff in F. destruct F as [Hx F].
  destruct segs as [|y segs].
  - now apply split_fresh_last.
  - rewrite join_cons_cons, split_fresh_segment by exact Hx.
    rewrite IH; [reflexivity | discriminate | exact F].
Qed.

Lemma delimiter_head : delimiter = 61 :: u8 "==NEXT===".
Proof. vm_compute. reflexivity. Qed.

Section WithTable.
Context {U : UnicodeData}.

(** *** The parts of a reply *)

Lemma fold_cleaned (parts acc : list str) :
  fold_left
    (fun cleaned_parts part =>
       match strip part with
       | [] => cleaned_parts
       | cleaned =>
           match strip (strip_label cleaned) with
           | [] => cleaned_parts
           | cleaned' => cleaned_parts ++ [cleaned']
           end
       end)
    parts acc
  = acc ++ flat_map cleaned_parts parts.
Proof.
  revert acc. induction parts as [|p parts IH]; intros acc; cbn [fold_left flat_map].
  - now rewrite app_nil_r.
  - rewrite IH. unfold cleaned_parts at 2, clean_part.
    destruct (strip p) as [|c r]; [reflexivity|].
    destruct (strip (strip_label (c :: r))) as [|c' r']; [reflexivity|].
    now rewrite <- app_assoc.
Qed.

Lemma parse_batch_parts (translated_text : str) (expected_count : nat) :
  _parse_batch_translation translated_text expected_count
  = flat_map cleaned_parts (split delimiter translated_text).
Proof. unfold _parse_batch_translation. now rewrite fold_cleaned. Qed.

Lemma strip_fixed (s : str) : strip s <> [] -> strip (strip s) = strip s.
Proof.
  intros H. destruct (strip_spec s H) as (Hs & He & _). now apply strip_solid.
Qed.

Lemma clean_part_clean (part cleaned : str) :
  clean_part part = Some cleaned -> cleaned <> [] /\ strip cleaned = cleaned.
Proof.
  unfold clean_part. destruct (strip part) as [|c r]; [discriminate|].
  destruct (strip (strip_label (c :: r))) as [|c' r'] eqn:E; [discriminate|].
  intros [= <-]. split; [discriminate|].
  rewrite <- E. apply strip_fixed. rewrite E. discriminate.
Qed.

(** X1. Every segment that [_parse_batch_translation] returns is a
    non-empty string without white space at its ends. *)
Theorem parse_batch_segments_clean (translated_text : str) (expected_count : nat) :
  Forall (fun segment => segment <> [] /\ strip segment = segment)
    (_parse_batch_translation translated_text expected_count).
Proof.
  rewrite parse_batch_parts. apply Forall_flat_map, Forall_forall.
  intros part _. unfold cleaned_parts.
  destruct (clean_part part) as [cleaned|] eqn:E; [|constructor].
  constructor; [|constructor]. now apply (clean_part_clean part).
Qed.

(** X2. A reply made of segments joined by the delimiter, none of them
    with an equals sign, is cut back into these segments: the result is
    their cleaned forms, in order, the ones that clean to nothing left
    out. *)
Theorem parse_batch_joined (segments : list str) (expected_count : nat) :
  segments <> [] ->
  Forall (fun segment => ~ In 61 segment) segments ->
  _parse_batch_translation (join delimiter segments) expected_count
  = flat_map cleaned_parts segments.
Proof.
  intros Hne F. rewrite parse_batch_parts, delimiter_head.
  now rewrite split_join_fresh.
Qed.

(** *** Labels *)

Lemma label_rest_digits (digits rest : str) (seen : bool) :
  Forall ascii_digit digits ->
  digits <> [] \/ seen = true ->
  decimal 65306 = None ->
  label_rest (digits ++ 65306 :: rest) seen = Some (lstrip rest).
Proof.
  intros F. revert seen. induction F as [|c ds Hc _ IH]; intros seen Hseen Hcolon.
  - destruct Hseen as [Hseen|Hseen]; [congruence|]. subst seen.
    cbn [app label_rest]. rewrite Hcolon.
    replace (65306 =? 65306) with true by (symmetry; apply N.eqb_refl).
    now rewrite orb_true_r.
  - cbn [app label_rest]. rewrite (decimal_ascii c Hc).
    rewrite IH by auto. reflexivity.
Qed.

Lemma to_decimal_digits (i : Z) :
  (0 <= i)%Z -> to_decimal i <> [] /\ Forall ascii_digit (to_decimal i).
Proof.
  destruct i as [|p|p]; intros H; cbn [to_decimal]; [| |lia].
  - split; [discriminate|]. constructor; [|constructor]. unfold ascii_digit. lia.
  - destruct (digits_spec p) as (Hne & Hd & _). now split.
Qed.

(** X3. The label that the batch prompt writes before the text number
    [i] is what the cleaning removes from the front of a segment, with
    the white space that follows it. *)
Theorem strip_label_prompt_label (i : Z) (rest : str) :
  (0 <= i)%Z ->
  decimal 65306 = None ->
  strip_label (prompt_label i ++ rest) = lstrip rest.
Proof.
  intros Hi Hcolon. destruct (to_decimal_digits i Hi) as [Hne Hd].
  unfold prompt_label.
  replace (u8 "字幕") with [23383; 24149] by (vm_compute; reflexivity).
  replace (u8 "：") with [65306] by (vm_compute; reflexivity).
  rewrite <- !app_assoc. cbn [app strip_label].
  rewrite label_rest_digits by auto. reflexivity.
Qed.

(** The labels of the prompt are the ones [batch_items] writes. *)
Lemma batch_items_label (i : Z) (text' : str) (rest : list str) (prompt : str) :
  batch_items i (text' :: rest) prompt
  = batch_items (i + 1) rest (prompt ++ prompt_label i ++ text' ++ [nl; nl]).
Proof.
  cbn [batch_items]. unfold prompt_label. now rewrite <- !app_assoc.
Qed.

End WithTable.

Lemma strip_label_prompt_label_witness :
  strip_label (U := ascii_data) (prompt_label 12 ++ u8 " Bonjour")
  = lstrip (u8 " Bonjour").
Proof.
  apply (strip_label_prompt_label (U := ascii_data) 12 (u8 " Bonjour")).
  - lia.
  - vm_compute. reflexivity.
Defined.

Lemma parse_batch_joined_witness :
  _parse_batch_translation (U := ascii_data)
    (join delimiter [u8 "Bonjour "; u8 " Monde"]) 2
  = flat_map (cleaned_parts (U := ascii_data)) [u8 "Bonjour "; u8 " Monde"].
Proof.
  apply (parse_batch_joined (U := ascii_data) [u8 "Bonjour "; u8 " Monde"] 2).
  - discriminate.
  - vm_compute. repeat constructor; intros H; repeat destruct H as [H|H];
      try discriminate H; exact H.
Defined.

End CleaningProofs.

(* ===================================================================== *)
(** * More about retries, calls and errors of the translator *)
(* ===================================================================== *)

Module RetryProofs.
Import PyStr Translator Shapes StrFacts BatchProofs CleaningProofs.

Section WithService.
Context {U : UnicodeData}.
Variable World : Type.
Variable text_to_text : Call -> World -> option str * World.

(** *** The first answer *)

Lemma reply_some_calls (n : nat) (c : Call) (st st' : State World) (t : str) :
  first_reply text_to_text n c st = (Some t, st') ->
  exists k, (k < n)%nat /\ calls st' = calls st ++ repeat c (S k).
Proof.
  revert st. induction n as [|n IH]; intros st; cbn [first_reply]; [discriminate|].
  unfold call_service.
  destruct (text_to_text c (world st)) as [[t0|] w].
  - intros [= <- <-]. exists O. split; [lia | reflexivity].
  - intros H. destruct (IH _ H) as (k & Hk & E).
    exists (S k). split; [lia|]. rewrite E. cbn [calls repeat].
    now rewrite <- app_assoc.
Qed.

(** X4. [translate_single_text] returns the first answer of the service,
    stripped, and stops calling there: after [k] failures and one
    success the log holds [k + 1] calls, [k + 1] at most [max_retries]. *)
Theorem translate_single_text_first_answer
    (api_key' model' text' translation_type : str) (max_retries : Z)
    (c : Call) (st st' : State World) (t : str) :
  single_call api_key' model' translation_type text' = Some c ->
  first_reply text_to_text (Z.to_nat max_retries) c st = (Some t, st') ->
  translate_single_text text_to_text api_key' model' text' translation_type
    max_retries st
  = (Ok (strip t), st')
  /\ exists k, (Z.of_nat k < max_retries)%Z
               /\ calls st' = calls st ++ repeat c (S k).
Proof.
  intros Hc Hreply. split.
  - now rewrite (single_text_reply _ _ _ _ _ _ _ _ _ Hc), Hreply.
  - destruct (reply_some_calls _ _ _ _ _ Hreply) as (k & Hk & E).
    exists k. split; [lia | exact E].
Qed.

(** *** The number of calls *)

Lemma single_call_count (api_key' model' text' translation_type : str)
    (max_retries : Z) (st : State World) :
  exists new,
    calls (snd (translate_single_text text_to_text api_key' model' text'
                  translation_type max_retries st))
    = calls st ++ new
    /\ (length new <= Z.to_nat max_retries)%nat.
Proof.
  destruct (single_call api_key' model' translation_type text') as [c|] eqn:Hc.
  - rewrite (single_text_reply _ _ _ _ _ _ _ _ _ Hc).
    destruct (reply_calls _ text_to_text (Z.to_nat max_retries) c st)
      as (k & Hk & E).
    exists (repeat c k). rewrite repeat_length. split; [|exact Hk].
    now destruct (first_reply _ _ c st) as [[t|] st'].
  - unfold single_call in Hc. unfold translate_single_text.
    destruct (dict_get translation_rules_dict translation_type);
      [discriminate|].
    exists []. cbn. split; [now rewrite app_nil_r | lia].
Qed.

Lemma one_by_one_call_count (api_key' model' translation_type : str)
    (max_retries : Z) (texts : list str) (st : State World) :
  exists new,
    calls (snd (_translate_one_by_one text_to_text api_key' model' texts
                  translation_type max_retries st))
    = calls st ++ new
    /\ (length new <= length texts * Z.to_nat max_retries)%nat.
Proof.
  revert st. induction texts as [|t texts IH]; intros st; cbn [_translate_one_by_one].
  - exists []. cbn. split; [now rewrite app_nil_r | lia].
  - unfold bind.
    destruct (single_call_count api_key' model' t translation_type
                max_retries st) as (new1 & E1 & L1).
    destruct (translate_single_text text_to_text api_key' model' t
                translation_type max_retries st) as [[r|e] st1];
      cbn [snd] in E1.
    + destruct (IH st1) as (new2 & E2 & L2).
      destruct (_translate_one_by_one text_to_text api_key' model' texts
                  translation_type max_retries st1) as [[res|e] st2];
        unfold ret; cbn [snd] in E2 |- *;
        exists (new1 ++ new2);
        (split; [rewrite E2, E1; now rewrite app_assoc
                | rewrite length_app; cbn [length]; lia]).
    + exists new1. cbn [snd]. split; [exact E1 | cbn [length]; lia].
Qed.

(** X5. [translate_texts_batch] calls the service a bounded number of
    times: at most [max_retries] batch calls and [max_retries] calls for
    each text, whatever the service answers. *)
Theorem translate_texts_batch_call_bound
    (api_key' model' translation_type : str) (texts : list str)
    (max_retries : Z) (st : State World) :
  exists new,
    calls (snd (translate_texts_batch text_to_text api_key' model' texts
                  translation_type max_retries st))
    = calls st ++ new
    /\ (length new <= (1 + length texts) * Z.to_nat max_retries)%nat.
Proof.
  destruct (le_lt_dec (length texts) 1) as [Hshort|Hlong].
  - rewrite translate_texts_batch_short_eq by exact Hshort.
    destruct (one_by_one_call_count api_key' model' translation_type
                max_retries texts st) as (new & E & L).
    exists new. split; [exact E | lia].
  - destruct (batch_call api_key' model' translation_type texts) as [c|] eqn:Hc.
    + rewrite (batch_reply _ _ _ _ _ _ _ _ _ Hlong Hc).
      destruct (reply_calls _ text_to_text (Z.to_nat max_retries) c st)
        as (k & Hk & E).
      assert (Hfall : forall st1,
                 calls st1 = calls st ++ repeat c k ->
                 exists new,
                   calls (snd (_translate_one_by_one text_to_text api_key' model'
                                 texts translation_type max_retries st1))
                   = calls st ++ new
                   /\ (length new
                       <= (1 + length texts) * Z.to_nat max_retries)%nat).
      { intros st1 E1.
        destruct (one_by_one_call_count api_key' model' translation_type
                    max_retries texts st1) as (new & E2 & L).
        exists (repeat c k ++ new). rewrite E2, E1, app_assoc.
        split; [reflexivity|]. rewrite length_app, repeat_length. lia. }
      destruct (first_reply _ _ c st) as [[t|] st1]; cbn [snd] in E.
      * cbv zeta. destruct (length texts - 1 <=? _)%nat; [|now apply Hfall].
        exists (repeat c k). cbn [snd]. split; [exact E|].
        rewrite repeat_length. lia.
      * now apply Hfall.
    + unfold batch_call in Hc. unfold translate_texts_batch.
      destruct texts as [|t0 texts0] eqn:Et; [cbn in Hlong; lia|].
      rewrite <- Et in *.
      replace (length texts <=? 1)%nat with false
        by (symmetry; apply Nat.leb_gt; lia).
      destruct (dict_get translation_rules_dict translation_type);
        [discriminate|].
      exists []. cbn. split; [now rewrite app_nil_r | lia].
Qed.

(** *** An unsupported mode *)

(** X6. With a translation type that is not in the table, translating a
    non-empty list raises [KeyError] before any call of the service. *)
Theorem translate_texts_batch_unsupported
    (api_key' model' translation_type : str) (texts : list str)
    (max_retries : Z) (st : State World) :
  dict_get translation_rules_dict translation_type = None ->
  texts <> [] ->
  translate_texts_batch text_to_text api_key' model' texts translation_type
    max_retries st
  = (Raise KeyError, st).
Proof.
  intros Hnone Hne. unfold translate_texts_batch.
  destruct texts as [|t [|t2 texts]]; [congruence | |].
  - cbn [length Nat.leb _translate_one_by_one]. unfold bind, translate_single_text.
    rewrite Hnone. reflexivity.
  - cbn [length Nat.leb]. rewrite Hnone. reflexivity.
Qed.

(** *** A complete reply *)

Lemma flat_map_cleaned (segments res : list str) :
  Forall2 (fun segment r => clean_part segment = Some r) segments res ->
  flat_map cleaned_parts segments = res.
Proof.
  induction 1 as [|s r segments res Hs _ IH]; [reflexivity|].
  cbn [flat_map]. unfold cleaned_parts at 1. now rewrite Hs, IH.
Qed.

(** X7. When the first answer to the batch call holds as many segments
    as there are texts, joined by the delimiter and without an equals
    sign, the batch translator returns the cleaned segments, in order,
    and no source text. *)
Theorem translate_texts_batch_complete_reply
    (api_key' model' translation_type : str) (texts segments res : list str)
    (max_retries : Z) (c : Call) (st st' : State World) :
  (2 <= length texts)%nat ->
  batch_call api_key' model' translation_type texts = Some c ->
  first_reply text_to_text (Z.to_nat max_retries) c st
  = (Some (join delimiter segments), st') ->
  length segments = length texts ->
  Forall (fun segment => ~ In 61%N segment) segments ->
  Forall2 (fun segment r => clean_part segment = Some r) segments res ->
  translate_texts_batch text_to_text api_key' model' texts translation_type
    max_retries st
  = (Ok res, st').
Proof.
  intros HN Hc Hreply Hlen Hfresh Hclean.
  assert (Hne : segments <> []) by (destruct segments; [cbn in Hlen; lia | discriminate]).
  pose proof (Forall2_length_eq _ _ _ Hclean) as Hres.
  rewrite (batch_reply _ _ _ _ _ _ _ _ _ HN Hc), Hreply. cbv zeta.
  rewrite parse_batch_parts, delimiter_head,
    (split_join_fresh _ _ _ Hne Hfresh), (flat_map_cleaned _ _ Hclean).
  replace (length texts - 1 <=? length res)%nat with true
    by (symmetry; apply Nat.leb_le; lia).
  rewrite skipn_all2 by lia. rewrite app_nil_r, firstn_all2 by lia.
  reflexivity.
Qed.

(** *** No attempt allowed *)

(** X8. With [max_retries] at zero or below and a supported mode, the
    batch translator returns the texts untranslated as a normal result
    and does not call the service. *)
Theorem translate_texts_batch_no_attempt
    (api_key' model' translation_type rule : str) (texts : list str)
    (max_retries : Z) (st : State World) :
  dict_get translation_rules_dict translation_type = Some rule ->
  (max_retries <= 0)%Z ->
  translate_texts_batch text_to_text api_key' model' texts translation_type
    max_retries st
  = (Ok texts, st).
Proof.
  intros Hrule Hneg.
  destruct (le_lt_dec (length texts) 1) as [Hshort|Hlong].
  - rewrite translate_texts_batch_short_eq by exact Hshort.
    now apply one_by_one_no_attempt with rule.
  - assert (Hc : batch_call api_key' model' translation_type texts
                 = Some (make_call api_key' model' (system_prompt_of rule)
                           (batch_user_prompt texts translation_type)))
      by (unfold batch_call; now rewrite Hrule).
    rewrite (batch_reply _ _ _ _ _ _ _ _ _ Hlong Hc).
    replace (Z.to_nat max_retries) with O by lia. cbn [first_reply].
    now apply one_by_one_no_attempt with rule.
Qed.

End WithService.

Lemma translate_texts_batch_no_attempt_witness :
  translate_texts_batch (U := ascii_data) play demo_key demo_model demo_texts
    to_chinese 0 (fresh [Some (u8 "a")])
  = (Ok demo_texts, fresh [Some (u8 "a")]).
Proof.
  apply (translate_texts_batch_no_attempt (U := ascii_data) script play
           demo_key demo_model to_chinese to_chinese_rule demo_texts 0
           (fresh [Some (u8 "a")])).
  - vm_compute. reflexivity.
  - lia.
Defined.

Lemma translate_single_text_first_answer_witness :
  translate_single_text play demo_key demo_model (u8 "Hello") to_chinese 3
    (fresh [None; Some (u8 " 你好 ")])
  = (Ok (strip (u8 " 你好 ")),
     {| world := []; calls := [demo_single_call; demo_single_call] |}).
Proof.
  apply (translate_single_text_first_answer script play demo_key demo_model
           (u8 "Hello") to_chinese 3 demo_single_call
           (fresh [None; Some (u8 " 你好 ")])
           {| world := []; calls := [demo_single_call; demo_single_call] |}
           (u8 " 你好 "));
    vm_compute; reflexivity.
Defined.

Lemma translate_texts_batch_unsupported_witness :
  translate_texts_batch (U := ascii_data) play demo_key demo_model demo_texts
    (u8 "日本語") 3 (fresh [Some (u8 "a")])
  = (Raise KeyError, fresh [Some (u8 "a")]).
Proof.
  apply (translate_texts_batch_unsupported (U := ascii_data) script play
           demo_key demo_model (u8 "日本語") demo_texts 3
           (fresh [Some (u8 "a")])).
  - vm_compute. reflexivity.
  - discriminate.
Defined.

Lemma translate_texts_batch_complete_reply_witness :
  translate_texts_batch (U := ascii_data) play demo_key demo_model
    [u8 "Hello"; u8 "World"] to_chinese 3
    (fresh [Some (join delimiter [u8 "Bonjour "; u8 " Monde"])])
  = (Ok [u8 "Bonjour"; u8 "Monde"],
     {| world := [];
        calls := [make_call demo_key demo_model
                    (system_prompt_of to_chinese_rule)
                    (batch_user_prompt [u8 "Hello"; u8 "World"] to_chinese)] |}).
Proof.
  apply (translate_texts_batch_complete_reply (U := ascii_data) script play
           demo_key demo_model to_chinese [u8 "Hello"; u8 "World"]
           [u8 "Bonjour "; u8 " Monde"] [u8 "Bonjour"; u8 "Monde"] 3
           (make_call demo_key demo_model (system_prompt_of to_chinese_rule)
              (batch_user_prompt [u8 "Hello"; u8 "World"] to_chinese))
           (fresh [Some (join delimiter [u8 "Bonjour "; u8 " Monde"])])).
  - vm_compute. lia.
  - vm_compute. reflexivity.
  - vm_compute. reflexivity.
  - reflexivity.
  - vm_compute. repeat constructor; intros H; repeat destruct H as [H|H];
      try discriminate H; exact H.
  - repeat constructor; vm_compute; reflexivity.
Defined.

End RetryProofs.

(* ===================================================================== *)
(** * More about reading and writing SRT text *)
(* ===================================================================== *)

Module SrtProofs.
Import PyStr Translator Shapes StrFacts TextFacts ParserProofs.

(** *** Parts of a string *)

Lemma starts_with_app_l (p a b : str) :
  starts_with p a = true -> starts_with p (a ++ b) = true.
Proof.
  revert a. induction p as [|x p IH]; intros a; [reflexivity|].
  destruct a as [|y a]; cbn [starts_with app]; [discriminate|].
  rewrite !andb_true_iff. intros [H1 H2]. split; [exact H1 | now apply IH].
Qed.

Lemma contains_app_l (p a b : str) :
  contains p a = true -> contains p (a ++ b) = true.
Proof.
  induction a as [|y a IH].
  - destruct p; cbn; [now destruct b | discriminate].
  - cbn [contains app]. rewrite !orb_true_iff. intros [H|H].
    + left. now apply (starts_with_app_l p (y :: a) b).
    + right. now apply IH.
Qed.

Lemma contains_app_r (p a b : str) :
  contains p b = true -> contains p (a ++ b) = true.
Proof.
  intros H. induction a as [|y a IH]; [exact H|].
  cbn [contains app]. rewrite IH. apply orb_true_r.
Qed.

Lemma contains_infix (p a s b : str) :
  contains p s = true -> contains p (a ++ s ++ b) = true.
Proof. intros H. now apply contains_app_r, contains_app_l. Qed.

Lemma contains_head (c : char) (p s : str) :
  contains (c :: p) s = true -> In c s.
Proof.
  induction s as [|y s IH]; [discriminate|].
  cbn [contains starts_with]. rewrite orb_true_iff, andb_true_iff.
  intros [[H _]|H].
  - left. symmetry. now apply N.eqb_eq.
  - right. now apply IH.
Qed.

Lemma arrow_chars : arrow = [45; 45; 62].
Proof. vm_compute. reflexivity. Qed.

Lemma arrow_solid (s : str) :
  contains arrow s = true -> exists c, In c s /\ is_space c = false.
Proof.
  rewrite arrow_chars. intros H. exists 45. split.
  - now apply contains_head in H.
  - reflexivity.
Qed.

Lemma join_in (sep x : str) (l : list str) :
  In x l -> exists a b, join sep l = a ++ x ++ b.
Proof.
  induction l as [|y l IH]; [intros []|].
  destruct l as [|z l].
  - intros [<-|[]]. exists [], []. cbn. now rewrite app_nil_r.
  - rewrite join_cons_cons. intros [<-|H].
    + now exists [], (sep ++ join sep (z :: l)).
    + destruct (IH H) as (a & b & E). rewrite E.
      exists (y ++ sep ++ a), b. now rewrite <- !app_assoc.
Qed.

Lemma re_split_infix_bounded (m : nat) (s : str) :
  (length s <= m)%nat ->
  Forall (fun block => exists a b, s = a ++ block ++ b) (re_split_go s O).
Proof.
  revert s. induction m as [|m IH]; intros s Hlen.
  - destruct s; [|simpl in Hlen; lia]. repeat constructor. now exists [], [].
  - destruct s as [|c r]; [repeat constructor; now exists [], []|].
    simpl in Hlen.
    assert (Hplain : re_split_go (c :: r) O = cons_head c (re_split_go r O) ->
                     Forall (fun block => exists a b, c :: r = a ++ block ++ b)
                       (re_split_go (c :: r) O)).
    { intros ->.
      destruct (re_split_pieces_bounded (length r) r (le_n _))
        as [_ (p & ps & q & E & Hr)].
      pose proof (IH r ltac:(lia)) as F. rewrite E in *. cbn [cons_head].
      apply Forall_cons_iff in F. destruct F as [_ Hps].
      constructor.
      - exists [], q. cbn. now rewrite <- Hr.
      - eapply Forall_impl; [|exact Hps].
        intros block (a & b & Eb). exists (c :: a), b. cbn. now rewrite <- Eb. }
    destruct (c =? nl) eqn:Ec; [destruct (blank_run r) as [n|] eqn:Er|].
    + apply N.eqb_eq in Ec. subst c. rewrite (re_split_match _ _ Er).
      constructor; [now exists [], (nl :: r)|].
      pose proof (IH (skipn n r) ltac:(rewrite length_skipn; lia)) as F.
      eapply Forall_impl; [|exact F].
      intros block (a & b & Eb). exists (nl :: firstn n r ++ a), b.
      cbn. rewrite <- app_assoc, <- Eb. now rewrite firstn_skipn.
    + apply Hplain, re_split_plain. now right.
    + apply Hplain, re_split_plain. now left.
Qed.

Lemma re_split_infix (s : str) :
  Forall (fun block => exists a b, s = a ++ block ++ b) (re_split_blank s).
Proof. apply (re_split_infix_bounded (length s)), le_n. Qed.

Section WithTable.
Context {U : UnicodeData}.

(** *** What the parser returns *)

Lemma valid_block_well_formed (block : str) :
  blank_free block = true -> valid_block block = true ->
  well_formed_record (record_of_block block)
  /\ exists a b, block = a ++ timeline (record_of_block block) ++ b.
Proof.
  intros Hfree Hvalid. unfold valid_block in Hvalid.
  apply andb_true_iff in Hvalid. destruct Hvalid as [Hvalid Harrow].
  apply andb_true_iff in Hvalid. destruct Hvalid as [Hlen _].
  apply Nat.leb_le in Hlen.
  destruct (three_lines _ Hlen) as (l0 & l1 & l2 & ls & Elines).
  unfold well_formed_record, record_of_block. rewrite Elines in *.
  cbn [nth skipn index timeline text] in *.
  set (txt := join [nl] (l2 :: ls)).
  assert (Estrip : strip block = l0 ++ nl :: l1 ++ nl :: txt).
  { rewrite <- (join_split_nl (strip block)). fold (block_lines block).
    rewrite Elines. now rewrite !join_cons_cons. }
  assert (Hne : strip block <> []).
  { rewrite Estrip. destruct l0; discriminate. }
  destruct (strip_spec _ Hne) as (_ & Hend & p & q & Hb).
  assert (Hfree' : blank_free (strip block) = true).
  { rewrite Hb in Hfree. apply blank_free_suffix in Hfree.
    now apply blank_free_prefix in Hfree. }
  pose proof (split_nl_lines (strip block)) as Hlines.
  fold (block_lines block) in Hlines. rewrite Elines in Hlines.
  apply Forall_cons_iff in Hlines. destruct Hlines as [_ Hlines].
  apply Forall_cons_iff in Hlines. destruct Hlines as [Hl1 _].
  rewrite Estrip in Hfree', Hend.
  split; [split; [exact Hl1 | split; [exact Harrow | split]]|].
  - apply (solid_end_after_space l1 _ nl nl_is_space).
    now apply (solid_end_after_space l0 _ nl nl_is_space).
  - apply (blank_free_suffix (l0 ++ nl :: l1)). now rewrite <- app_assoc.
  - exists (p ++ l0 ++ [nl]), (nl :: txt ++ q). rewrite Hb at 1. rewrite Estrip.
    repeat (first [rewrite <- app_assoc | progress (cbn [app])]). reflexivity.
Qed.

Lemma parse_srt_records (srt_content : str) :
  Forall (fun r => well_formed_record r
                   /\ exists a b, srt_content = a ++ timeline r ++ b)
    (parse_srt srt_content).
Proof.
  rewrite parse_srt_keeps_blocks_aux.
  pose proof (re_split_pieces (strip srt_content)) as Hfree.
  pose proof (re_split_infix (strip srt_content)) as Hin.
  induction Hfree as [|block blocks Hb _ IH]; [constructor|].
  apply Forall_cons_iff in Hin. destruct Hin as [(a & b & Eb) Hin].
  cbn [filter]. destruct (valid_block block) eqn:Hv; [|now apply IH].
  cbn [map]. constructor; [|now apply IH].
  destruct (valid_block_well_formed _ Hb Hv) as [Hwf (a' & b' & Et)].
  split; [exact Hwf|].
  destruct (lstrip_suffix srt_content) as [p Ep].
  destruct (rstrip_prefix (lstrip srt_content)) as [q Eq].
  fold (strip srt_content) in Eq.
  exists (p ++ a ++ a'), (b' ++ b ++ q).
  rewrite Ep at 1. rewrite Eq at 1. rewrite Eb at 1. rewrite Et at 1.
  now rewrite <- !app_assoc.
Qed.

(** X9. Every record that [parse_srt] returns has a timeline of one
    line that holds the arrow, and a text that is not empty, ends on a
    character that is not white space and has no blank line. *)
Theorem parse_srt_well_formed (srt_content : str) :
  Forall well_formed_record (parse_srt srt_content).
Proof.
  eapply Forall_impl; [|apply parse_srt_records]. now intros r [H _].
Qed.

(** X10. White space before and after the content of a file does not
    change what is read from it. *)
Theorem parse_srt_ignores_margins (before srt_content after : str) :
  all_space before -> all_space after ->
  parse_srt (before ++ srt_content ++ after) = parse_srt srt_content.
Proof.
  intros Ha Hb. rewrite !parse_srt_blocks. now rewrite strip_around.
Qed.

Lemma records_need_arrow (srt_content : str) :
  parse_srt srt_content <> [] -> contains arrow srt_content = true.
Proof.
  intros Hne. pose proof (parse_srt_records srt_content) as F.
  destruct (parse_srt srt_content) as [|r rs]; [congruence|].
  apply Forall_cons_iff in F. destruct F as [[(_ & Harrow & _) (a & b & E)] _].
  rewrite E. now apply contains_infix.
Qed.

(** X11. A text in which the arrow occurs nowhere holds no record. *)
Theorem parse_srt_no_arrow (srt_content : str) :
  contains arrow srt_content = false -> parse_srt srt_content = [].
Proof.
  intros Hno. destruct (parse_srt srt_content) as [|r rs] eqn:E; [reflexivity|].
  rewrite records_need_arrow in Hno; [discriminate|].
  rewrite E. discriminate.
Qed.

(** *** Writing, then reading *)

Lemma blank_run_line (p q : str) :
  ~ In nl p -> (exists c, In c p /\ is_space c = false) ->
  blank_run (p ++ q) = None.
Proof.
  induction p as [|x p IH]; intros Hnl (c & Hc & Hs); [destruct Hc|].
  cbn [app]. apply blank_run_cons.
  destruct (is_space x) eqn:Hx; [right | now left].
  split.
  - apply IH; [intros H; apply Hnl; now right|].
    destruct Hc as [<-|Hc]; [congruence | now exists c].
  - apply N.eqb_neq. intros ->. apply Hnl. now left.
Qed.

Lemma well_formed_rereadable (r : Subtitle) :
  well_formed_record r -> str_fits (index r) = true -> rereadable r.
Proof.
  destruct r as [idx tl txt]. unfold well_formed_record, rereadable, block_text.
  cbn [index timeline text]. intros (Hline & Harrow & Hend & Hfree) Hfits.
  split; [exact Hfits|].
  assert (Hstart : solid_start (to_decimal idx ++ nl :: tl ++ nl :: txt))
    by (apply solid_start_app, to_decimal_solid_start).
  assert (Hend' : solid_end (to_decimal idx ++ nl :: tl ++ nl :: txt)).
  { apply solid_end_app. change (solid_end ([nl] ++ tl ++ nl :: txt)).
    apply solid_end_app, solid_end_app. change (solid_end ([nl] ++ txt)).
    now apply solid_end_app. }
  split; [|split; [|split]]; try assumption.
  - apply blank_free_after_line; [apply to_decimal_line|].
    apply blank_free_cons. split.
    + right. apply blank_run_line; [exact Hline | now apply arrow_solid].
    + now apply blank_free_after_line.
  - rewrite kept_valid. unfold valid_block, record_of_block, block_lines.
    rewrite (strip_solid _ Hstart Hend').
    rewrite (split_nl_app _ _ (to_decimal_line idx)), (split_nl_app _ _ Hline).
    pose proof (split_nl_nonempty txt) as Hne.
    destruct (split [nl] txt) as [|l2 ls] eqn:Et; [congruence|].
    cbn [length nth skipn Nat.leb].
    rewrite (py_int_to_decimal _ Hfits), Harrow. cbn [andb].
    now rewrite <- Et, join_split_nl.
Qed.

Lemma well_formed_all_rereadable (subtitles : list Subtitle) :
  Forall well_formed_record subtitles ->
  Forall (fun r => str_fits (index r) = true) subtitles ->
  Forall rereadable subtitles.
Proof.
  induction 1 as [|r rs Hr _ IH]; intros F; [constructor|].
  apply Forall_cons_iff in F. destruct F as [Hf F].
  constructor; [now apply well_formed_rereadable | now apply IH].
Qed.

(** X12. Records with an index of at most 4300 decimal digits, a
    one-line timeline that holds the arrow and a text without blank
    line that ends on a solid character can be written, and are read
    back from what [generate_srt] writes for them. *)
Theorem generate_parse_roundtrip (subtitles : list Subtitle) :
  Forall well_formed_record subtitles ->
  Forall (fun r => str_fits (index r) = true) subtitles ->
  exists srt_content,
    generate_srt subtitles = Ok srt_content
    /\ parse_srt srt_content = subtitles.
Proof.
  intros F Hfits. eexists.
  now apply parse_generated, well_formed_all_rereadable.
Qed.

End WithTable.

Lemma parse_srt_ignores_margins_witness :
  parse_srt (U := ascii_data) ([nl; 32] ++ demo_srt ++ [32; nl])
  = parse_srt (U := ascii_data) demo_srt.
Proof.
  apply (parse_srt_ignores_margins (U := ascii_data) [nl; 32] demo_srt [32; nl]);
    repeat constructor.
Defined.

Lemma parse_srt_no_arrow_witness :
  parse_srt (U := ascii_data)
    (u8 "1" ++ [nl] ++ u8 "00:00:01,000 - 00:00:02,000" ++ [nl] ++ u8 "Hello")
  = [].
Proof.
  apply (parse_srt_no_arrow (U := ascii_data)). vm_compute. reflexivity.
Defined.

Lemma generate_parse_roundtrip_witness :
  exists srt_content,
    generate_srt
      [ {| index := -7;
           timeline := u8 "00:00:01,000 --> 00:00:02,000";
           text := u8 "Hello" ++ [nl] ++ u8 "World" |} ]
    = Ok srt_content
    /\ parse_srt (U := ascii_data) srt_content
       = [ {| index := -7;
              timeline := u8 "00:00:01,000 --> 00:00:02,000";
              text := u8 "Hello" ++ [nl] ++ u8 "World" |} ].
Proof.
  apply (generate_parse_roundtrip (U := ascii_data)).
  - constructor; [|constructor].
    unfold well_formed_record. cbn [timeline text].
    split; [|split; [|split]].
    + vm_compute. intros H. repeat destruct H as [H|H]; try discriminate H.
      exact H.
    + vm_compute. reflexivity.
    + vm_compute. reflexivity.
    + vm_compute. reflexivity.
  - constructor; [|constructor]. vm_compute. reflexivity.
Defined.

End SrtProofs.

(* ===================================================================== *)
(** * More about formatting and about the file translation *)
(* ===================================================================== *)

Module FileProofs.
Import PyStr Translator Shapes StrFacts BatchProofs ParserProofs PipelineProofs
  SrtProofs.

Lemma str_eqb_eq (a b : str) : str_eqb a b = true -> a = b.
Proof.
  revert b. induction a as [|x a IH]; intros [|y b]; cbn [str_eqb];
    try discriminate; [reflexivity|].
  rewrite andb_true_iff. intros [H1 H2].
  apply N.eqb_eq in H1. subst y. f_equal. now apply IH.
Qed.

(** X13. Formatting is idempotent in every mode: formatting a text that
    is already formatted against the same original adds nothing, so the
    original is never appended twice. *)
Theorem format_translated_subtitle_idempotent
    (original_text translated_text translation_type : str) :
  format_translated_subtitle original_text
    (format_translated_subtitle original_text translated_text translation_type)
    translation_type
  = format_translated_subtitle original_text translated_text translation_type.
Proof.
  destruct (str_eqb translation_type bilingual) eqn:E.
  - apply str_eqb_eq in E. subst translation_type.
    apply format_bilingual_idempotent.
  - unfold format_translated_subtitle. now rewrite E.
Qed.

Section WithService.
Context {U : UnicodeData}.
Variable World : Type.
Variable text_to_text : Call -> World -> option str * World.

Lemma Forall_same_field {A} (f : Subtitle -> A) (P : A -> Prop)
    (subs out : list Subtitle) :
  map f out = map f subs ->
  Forall (fun r => P (f r)) subs -> Forall (fun r => P (f r)) out.
Proof.
  intros E F. apply Forall_map. rewrite E. now apply Forall_map.
Qed.

(** With a supported mode, records in the file and a positive batch
    size the file translation runs to its end: every index can be
    written again, and each record is written with the translated
    text of its own position. *)
Lemma translate_srt_file_runs
    (api_key' model' srt_content translation_type rule : str)
    (batch_size : Z) (st : State World) :
  dict_get translation_rules_dict translation_type = Some rule ->
  parse_srt srt_content <> [] ->
  (0 < batch_size)%Z ->
  exists out st',
    translate_srt_file text_to_text api_key' model' (Some srt_content)
      translation_type batch_size st
    = (Ok (join [nl] (flat_map fields out)), st')
    /\ generate_srt out = Ok (join [nl] (flat_map fields out))
    /\ batches_translated text_to_text api_key' model' translation_type
         (batches (Z.to_nat batch_size) (parse_srt srt_content)) st out st'
    /\ map index out = map index (parse_srt srt_content)
    /\ map timeline out = map timeline (parse_srt srt_content).
Proof.
  intros Hrule Hrecords Hsize. unfold translate_srt_file. rewrite Hrule.
  destruct (translate_batches_batches World text_to_text api_key' model'
              translation_type rule (parse_srt srt_content) batch_size st
              Hrule Hsize)
    as (out & st' & E & R).
  destruct (batches_translated_fields World text_to_text api_key' model'
              translation_type _ _ _ _ R) as [Hi Ht].
  rewrite batches_concat in Hi, Ht by lia.
  assert (Hfits : Forall (fun r => str_fits (index r) = true) out).
  { apply (Forall_same_field index (fun z => str_fits z = true)
             (parse_srt srt_content) out Hi).
    apply rereadable_fits, parse_srt_rereadable. }
  pose proof (generate_srt_fields out Hfits) as Hgen.
  exists out, st'.
  destruct (parse_srt srt_content) as [|sub subs] eqn:Eparse; [congruence|].
  replace (batch_size =? 0)%Z with false by (symmetry; apply Z.eqb_neq; lia).
  unfold bind, lift. rewrite E, Hgen. repeat split; assumption.
Qed.

(** X14. When [translate_srt_file] raises one of the errors of its own
    checks or of the translator, it has not called the service: the
    error comes from a check made before the first batch, and it is
    never the [KeyError] of the batch translator.  Errors of the file
    system while reading or writing are not part of the model. *)
Theorem translate_srt_file_raises_early
    (api_key' model' translation_type : str) (file : option str)
    (batch_size : Z) (st st' : State World) (e : exn) :
  translate_srt_file text_to_text api_key' model' file translation_type
    batch_size st
  = (Raise e, st') ->
  st' = st /\ e <> KeyError.
Proof.
  unfold translate_srt_file.
  destruct (dict_get translation_rules_dict translation_type) as [rule|] eqn:Hrule;
    [|intros [= <- <-]; split; [reflexivity | discriminate]].
  destruct file as [srt_content|];
    [|intros [= <- <-]; split; [reflexivity | discriminate]].
  destruct (parse_srt srt_content) as [|sub subs] eqn:Hrecords;
    [intros [= <- <-]; split; [reflexivity | discriminate]|].
  destruct (batch_size =? 0)%Z eqn:Ez;
    [intros [= <- <-]; split; [reflexivity | discriminate]|].
  apply Z.eqb_neq in Ez. unfold bind.
  destruct (Z_lt_le_dec 0 batch_size) as [Hpos|Hneg].
  - destruct (translate_srt_file_runs api_key' model' srt_content
                translation_type rule batch_size st Hrule
                ltac:(rewrite Hrecords; discriminate) Hpos)
      as (out & st1 & E & _).
    unfold translate_srt_file in E. rewrite Hrule, Hrecords in E.
    replace (batch_size =? 0)%Z with false in E
      by (symmetry; apply Z.eqb_neq; lia).
    unfold bind in E. rewrite E. discriminate.
  - unfold range_step.
    replace (0 <? batch_size)%Z with false by (symmetry; apply Z.ltb_ge; lia).
    discriminate.
Qed.

(** X15. A file in which the arrow occurs nowhere makes
    [translate_srt_file] raise [ValueError], without a call of the
    service, whatever the batch size. *)
Theorem translate_srt_file_no_arrow
    (api_key' model' srt_content translation_type rule : str)
    (batch_size : Z) (st : State World) :
  dict_get translation_rules_dict translation_type = Some rule ->
  contains arrow srt_content = false ->
  translate_srt_file text_to_text api_key' model' (Some srt_content)
    translation_type batch_size st
  = (Raise ValueError, st).
Proof.
  intros Hrule Hno. unfold translate_srt_file. rewrite Hrule.
  destruct (parse_srt srt_content) as [|sub subs] eqn:E; [reflexivity|].
  rewrite records_need_arrow in Hno; [discriminate|].
  rewrite E. discriminate.
Qed.

(** C5 (as amended). With a supported mode, an input in which
    [parse_srt] finds records and a positive batch size,
    [translate_srt_file] writes what [generate_srt] makes of a list
    that has, for each record parsed and at the same position, one
    record with the same index and the same timeline; its text is the
    translated text that the batch translator returned at the position
    of this record in its batch, formatted against the original text.
    No record is dropped and none gets the text of another.  What is
    written reads back as these records when every text written ends
    on a character that is not white space and holds no blank line. *)
Theorem translate_srt_file_keeps_records
    (api_key' model' srt_content translation_type rule : str)
    (batch_size : Z) (st : State World) :
  dict_get translation_rules_dict translation_type = Some rule ->
  parse_srt srt_content <> [] ->
  (0 < batch_size)%Z ->
  exists out written st',
    translate_srt_file text_to_text api_key' model' (Some srt_content)
      translation_type batch_size st
    = (Ok written, st')
    /\ generate_srt out = Ok written
    /\ batches_translated text_to_text api_key' model' translation_type
         (batches (Z.to_nat batch_size) (parse_srt srt_content)) st out st'
    /\ length out = length (parse_srt srt_content)
    /\ map index out = map index (parse_srt srt_content)
    /\ map timeline out = map timeline (parse_srt srt_content)
    /\ (Forall (fun r => solid_end (text r)
                         /\ blank_free (nl :: text r) = true) out ->
        parse_srt written = out).
Proof.
  intros Hrule Hrecords Hsize.
  destruct (translate_srt_file_runs api_key' model' srt_content translation_type
              rule batch_size st Hrule Hrecords Hsize)
    as (out & st' & E & Hgen & R & Hi & Ht).
  exists out, (join [nl] (flat_map fields out)), st'.
  split; [exact E|]. split; [exact Hgen|]. split; [exact R|].
  split; [|split; [exact Hi|split; [exact Ht|]]].
  - rewrite <- (length_map index out), Hi. apply length_map.
  - intros Htexts. apply parse_written, well_formed_all_rereadable.
    + assert (Hlines : Forall (fun r => ~ In nl (timeline r)
                                        /\ contains arrow (timeline r) = true)
                         out).
      { apply (Forall_same_field timeline
                 (fun t => ~ In nl t /\ contains arrow t = true)
                 (parse_srt srt_content) out Ht).
        eapply Forall_impl; [|apply parse_srt_records].
        intros r [(H1 & H2 & _) _]. now split. }
      rewrite Forall_forall in *. intros r Hr.
      destruct (Hlines r Hr) as [H1 H2]. destruct (Htexts r Hr) as [H3 H4].
      repeat split; assumption.
    + apply (Forall_same_field index (fun z => str_fits z = true)
               (parse_srt srt_content) out Hi).
      apply rereadable_fits, parse_srt_rereadable.
Qed.

End WithService.

Lemma translate_srt_file_keeps_records_witness :
  exists out written st',
    translate_srt_file (U := ascii_data) play demo_key demo_model
      (Some demo_srt) to_chinese 50 (fresh [Some (u8 "你好 ===NEXT=== 世界")])
    = (Ok written, st')
    /\ generate_srt out = Ok written
    /\ batches_translated (U := ascii_data) play demo_key demo_model to_chinese
         (batches (Z.to_nat 50) (parse_srt (U := ascii_data) demo_srt))
         (fresh [Some (u8 "你好 ===NEXT=== 世界")]) out st'
    /\ length out = length (parse_srt (U := ascii_data) demo_srt)
    /\ map index out = map index (parse_srt (U := ascii_data) demo_srt)
    /\ map timeline out = map timeline (parse_srt (U := ascii_data) demo_srt)
    /\ (Forall (fun r => solid_end (text r)
                         /\ blank_free (nl :: text r) = true) out ->
        parse_srt (U := ascii_data) written = out).
Proof.
  apply (translate_srt_file_keeps_records (U := ascii_data) script play
           demo_key demo_model demo_srt to_chinese to_chinese_rule 50
           (fresh [Some (u8 "你好 ===NEXT=== 世界")])).
  - vm_compute. reflexivity.
  - vm_compute. discriminate.
  - lia.
Defined.

(** Without the condition on the batch size, and read as a statement
    on the file, the property fails.  With the batch size [-1] the two
    records of the sample are parsed, no batch is run and the text
    written is empty: no list of two records is written.  With the
    batch size [1] and a blank answer for the first text, the first
    record is written with an empty text, and what is written no
    longer reads as a record with the index [1]. *)
Lemma translate_srt_file_drops_records :
  (~ exists out written st',
       translate_srt_file (U := ascii_data) play demo_key demo_model
         (Some demo_srt) to_chinese (-1) (fresh [])
       = (Ok written, st')
       /\ generate_srt out = Ok written
       /\ length out = length (parse_srt (U := ascii_data) demo_srt))
  /\ (exists written st',
        translate_srt_file (U := ascii_data) play demo_key demo_model
          (Some demo_srt) to_chinese 1
          (fresh [Some (u8 " "); Some (u8 "世界")])
        = (Ok written, st')
        /\ map index (parse_srt (U := ascii_data) demo_srt) = [1; 2]%Z
        /\ map index (parse_srt (U := ascii_data) written) = [2]%Z).
Proof.
  split.
  - intros (out & written & st' & E & Hgen & L).
    assert (R : translate_srt_file (U := ascii_data) play demo_key demo_model
                  (Some demo_srt) to_chinese (-1) (fresh [])
                = (Ok [], fresh []))
      by (vm_compute; reflexivity).
    rewrite R in E. injection E as <- _.
    apply generate_srt_nonempty in Hgen. subst out.
    rewrite parse_srt_demo in L. discriminate L.
  - eexists. eexists. split; [vm_compute; reflexivity|].
    split; vm_compute; reflexivity.
Qed.

Lemma translate_srt_file_raises_early_witness :
  fresh [Some (u8 "a")] = fresh [Some (u8 "a")] /\ FileNotFoundError <> KeyError.
Proof.
  apply (translate_srt_file_raises_early (U := ascii_data) script play
           demo_key demo_model to_chinese None 50 (fresh [Some (u8 "a")])).
  vm_compute. reflexivity.
Defined.

Lemma translate_srt_file_no_arrow_witness :
  translate_srt_file (U := ascii_data) play demo_key demo_model
    (Some (u8 "1" ++ [nl] ++ u8 "00:00:01,000 - 00:00:02,000" ++ [nl]
           ++ u8 "Hello"))
    to_chinese 50 (fresh [Some (u8 "a")])
  = (Raise ValueError, fresh [Some (u8 "a")]).
Proof.
  apply (translate_srt_file_no_arrow (U := ascii_data) script play demo_key
           demo_model _ to_chinese to_chinese_rule 50 (fresh [Some (u8 "a")]));
    vm_compute; reflexivity.
Defined.

End FileProofs.

(* ===================================================================== *)
(** * The translation loops of [generate_subtitles] *)
(* ===================================================================== *)

Module AudioProofs.
Import PyStr Translator Shapes StrFacts BatchProofs ParserProofs PipelineProofs.
Import FileProofs AudioTranslator.

Lemma Forall2_concat {A B} (R : A -> B -> Prop) (ls : list (list A))
    (ls' : list (list B)) :
  Forall2 (Forall2 R) ls ls' -> Forall2 R (concat ls) (concat ls').
Proof.
  induction 1 as [|l l' ls ls' H _ IH]; [constructor|].
  cbn [concat]. now apply Forall2_app.
Qed.

(** With no translated text, the subtitles stay as they are. *)
Lemma format_subtitles_none (translation_type : str) (subtitles : list Subtitle)
    (i : nat) :
  format_subtitles i subtitles [] translation_type = subtitles.
Proof.
  revert i. induction subtitles as [|sub subs IH]; intros i; [reflexivity|].
  cbn [format_subtitles length]. now rewrite IH.
Qed.

Lemma format_subtitles_records (translation_type : str)
    (translated_texts : list str) (subtitles : list Subtitle) (i : nat) :
  (i + length subtitles <= length translated_texts)%nat ->
  Forall2 (translated_record translation_type) subtitles
    (format_subtitles i subtitles translated_texts translation_type).
Proof.
  revert i. induction subtitles as [|sub subs IH]; intros i Hlen;
    [constructor|].
  cbn [format_subtitles]. cbn [length] in Hlen.
  replace (i <? length translated_texts)%nat with true
    by (symmetry; apply Nat.ltb_lt; lia).
  constructor; [|apply IH; lia].
  repeat split. now exists (nth i translated_texts []).
Qed.

Section WithTimes.
Variable Time : Type.

Lemma format_segments_records (translation_type : str)
    (translated_texts : list str) (segments_group : list (Segment Time))
    (j : nat) :
  (j + length segments_group <= length translated_texts)%nat ->
  Forall2 (translated_segment translation_type) segments_group
    (format_segments j segments_group translated_texts translation_type).
Proof.
  revert j. induction segments_group as [|seg segs IH]; intros j Hlen;
    [constructor|].
  cbn [format_segments]. cbn [length] in Hlen.
  replace (j <? length translated_texts)%nat with true
    by (symmetry; apply Nat.ltb_lt; lia).
  constructor; [|apply IH; lia].
  repeat split. now exists (nth j translated_texts []).
Qed.

Section WithService.
Context {U : UnicodeData}.
Variable World : Type.
Variable text_to_text : Call -> World -> option str * World.

(** *** As many translated texts as texts *)

Lemma by_size_same_length (api_key' text_models translation_type rule : str)
    (batch_min : Z) (texts : list str) (st : State World) :
  dict_get translation_rules_dict translation_type = Some rule ->
  exists res st',
    translate_by_size text_to_text api_key' text_models texts translation_type
      batch_min st
    = (Ok res, st')
    /\ length res = length texts.
Proof.
  intros Hrule. unfold translate_by_size.
  destruct (batch_min <=? Z.of_nat (length texts))%Z.
  - now apply (batch_same_length World text_to_text) with rule.
  - now apply (one_by_one_same_length World text_to_text) with rule.
Qed.

Lemma text_batches_same_length (api_key' text_models translation_type rule : str)
    (texts : list str) (batch_size batch_min : Z) :
  dict_get translation_rules_dict translation_type = Some rule ->
  (0 < batch_size)%Z ->
  forall (n k : nat) (acc : list str) (st : State World),
  exists out st',
    translate_text_batches text_to_text api_key' text_models texts
      translation_type batch_size batch_min
      (map (fun i => (Z.of_nat i * batch_size)%Z) (seq k n)) acc st
    = (Ok (acc ++ out), st')
    /\ length out
       = length (firstn (n * Z.to_nat batch_size)
                   (skipn (k * Z.to_nat batch_size) texts)).
Proof.
  intros Hrule Hsize. induction n as [|n IH]; intros k acc st.
  - exists [], st. cbn [seq map translate_text_batches]. unfold ret.
    rewrite app_nil_r. split; reflexivity.
  - cbn [seq map translate_text_batches]. unfold bind.
    rewrite slice_batch by exact Hsize.
    set (batch_texts :=
           firstn (Z.to_nat batch_size)
             (skipn (k * Z.to_nat batch_size) texts)).
    destruct (by_size_same_length api_key' text_models translation_type rule
                batch_min batch_texts st Hrule)
      as (translated_batch & st1 & -> & Hlen).
    destruct (IH (S k) (acc ++ translated_batch) st1)
      as (out & st' & -> & Hout).
    exists (translated_batch ++ out), st'.
    split; [now rewrite app_assoc|].
    replace (S n * Z.to_nat batch_size)%nat
      with (Z.to_nat batch_size + n * Z.to_nat batch_size)%nat by lia.
    rewrite firstn_add, !length_app, Hlen, Hout, skipn_skipn.
    replace (Z.to_nat batch_size + k * Z.to_nat batch_size)%nat
      with (S k * Z.to_nat batch_size)%nat by lia.
    reflexivity.
Qed.

(** *** Embedded subtitles *)

(** X16. In the mode that translates the embedded subtitles, with a
    supported translation type and a positive batch size, what is
    written is the text that [generate_srt] makes of a list that holds
    one record for each subtitle, in order, with the same index and
    the same timeline, whatever the service answers and whatever
    [batch_min] is.  [generate_srt] returns this text whenever the
    indices of the subtitles can be written, as those that [parse_srt]
    reads can. *)
Theorem embedded_srt_content_keeps_records
    (api_key' text_models translation_type rule : str)
    (subtitles : list Subtitle) (batch_size batch_min : Z) (st : State World) :
  dict_get translation_rules_dict translation_type = Some rule ->
  (0 < batch_size)%Z ->
  exists out st',
    embedded_srt_content text_to_text api_key' text_models subtitles
      translation_type batch_size batch_min st
    = (generate_srt out, st')
    /\ Forall2 (translated_record translation_type) subtitles out
    /\ (Forall (fun r => str_fits (index r) = true) subtitles ->
        exists written, generate_srt out = Ok written).
Proof.
  intros Hrule Hsize. unfold embedded_srt_content.
  replace (batch_size =? 0)%Z with false by (symmetry; apply Z.eqb_neq; lia).
  unfold range_step.
  replace (0 <? batch_size)%Z with true by (symmetry; now apply Z.ltb_lt).
  set (texts := map Translator.text subtitles).
  set (n := Z.to_nat ((Z.of_nat (length texts) + batch_size - 1) / batch_size)).
  destruct (text_batches_same_length api_key' text_models translation_type rule
              texts batch_size batch_min Hrule Hsize n 0 [] st)
    as (translated_texts & st' & E & Hlen).
  unfold bind. rewrite E. cbn [app]. unfold lift.
  assert (F : Forall2 (translated_record translation_type) subtitles
                (format_subtitles 0 subtitles translated_texts
                   translation_type)).
  { apply format_subtitles_records.
    cbn [Nat.mul skipn] in Hlen. rewrite firstn_all2 in Hlen.
    - rewrite Hlen. subst texts. rewrite length_map. lia.
    - pose proof (ceil_covers (Z.of_nat (length texts)) batch_size
                    ltac:(lia) Hsize) as Hc.
      assert (0 <= (Z.of_nat (length texts) + batch_size - 1) / batch_size)%Z
        by (apply Z.div_pos; lia).
      subst n. nia. }
  eexists _, st'. split; [reflexivity|]. split; [exact F|].
  intros Hfits. eexists. apply generate_srt_fields.
  destruct (Forall2_index _ _ _ F) as (_ & Hi & _).
  exact (Forall_same_field index (fun z => str_fits z = true) _ _ Hi Hfits).
Qed.

(** X17. In the same mode a negative batch size translates nothing:
    what is written is what [generate_srt] makes of the subtitles as
    they were parsed, and the service is not called. *)
Theorem embedded_srt_content_negative_batch
    (api_key' text_models translation_type : str)
    (subtitles : list Subtitle) (batch_size batch_min : Z) (st : State World) :
  (batch_size < 0)%Z ->
  embedded_srt_content text_to_text api_key' text_models subtitles
    translation_type batch_size batch_min st
  = (generate_srt subtitles, st).
Proof.
  intros Hneg. unfold embedded_srt_content.
  replace (batch_size =? 0)%Z with false by (symmetry; apply Z.eqb_neq; lia).
  unfold range_step.
  replace (0 <? batch_size)%Z with false by (symmetry; apply Z.ltb_ge; lia).
  cbn [translate_text_batches]. unfold bind, ret, lift.
  now rewrite format_subtitles_none.
Qed.

(** *** Transcribed audio *)

Lemma translate_groups_records
    (api_key' text_models translation_type rule : str) (batch_min : Z)
    (audio_segments_groups : list (list (Segment Time))) :
  dict_get translation_rules_dict translation_type = Some rule ->
  forall (acc : list (list (Segment Time))) (st : State World),
  exists out st',
    translate_groups text_to_text api_key' text_models translation_type
      batch_min audio_segments_groups acc st
    = (Ok (acc ++ out), st')
    /\ Forall2 (Forall2 (translated_segment translation_type))
         audio_segments_groups out.
Proof.
  intros Hrule.
  induction audio_segments_groups as [|group groups IH]; intros acc st.
  - exists [], st. cbn [translate_groups]. unfold ret. rewrite app_nil_r.
    split; [reflexivity | constructor].
  - cbn [translate_groups]. destruct group as [|seg segs].
    + destruct (IH (acc ++ [[]]) st) as (out & st' & -> & F).
      exists ([] :: out), st'. split; [now rewrite <- app_assoc|].
      constructor; [constructor | exact F].
    + unfold bind.
      destruct (by_size_same_length api_key' text_models translation_type rule
                  batch_min (map text (seg :: segs)) st Hrule)
        as (translated_texts & st1 & -> & Hlen).
      rewrite length_map in Hlen.
      destruct (IH (acc ++ [format_segments 0 (seg :: segs) translated_texts
                              translation_type]) st1)
        as (out & st' & -> & F).
      eexists (_ :: out), st'. split; [now rewrite <- app_assoc|].
      constructor; [|exact F].
      apply format_segments_records. lia.
Qed.

(** X18. In the modes that translate the transcribed audio, with a
    supported translation type, every segment of every group comes out
    once, in order, with its times unchanged and a formatted text: no
    segment is dropped, whatever the service answers. *)
Theorem all_translated_segments_keeps_segments
    (api_key' text_models translation_type rule : str) (batch_min : Z)
    (audio_segments_groups : list (list (Segment Time))) (st : State World) :
  dict_get translation_rules_dict translation_type = Some rule ->
  exists out st',
    all_translated_segments text_to_text api_key' text_models translation_type
      batch_min audio_segments_groups st
    = (Ok out, st')
    /\ Forall2 (translated_segment translation_type)
         (concat audio_segments_groups) out.
Proof.
  intros Hrule. unfold all_translated_segments, bind.
  destruct (translate_groups_records api_key' text_models translation_type rule
              batch_min audio_segments_groups Hrule [] st)
    as (out & st' & -> & F).
  cbn [app]. unfold ret. exists (concat out), st'.
  split; [reflexivity | now apply Forall2_concat].
Qed.

End WithService.
End WithTimes.

Lemma embedded_srt_content_keeps_records_witness :
  exists out st',
    embedded_srt_content (U := ascii_data) play demo_key demo_model
      (parse_srt (U := ascii_data) demo_srt) to_chinese 50 10
      (fresh [Some (u8 "你好"); None; Some (u8 "世界")])
    = (generate_srt out, st')
    /\ Forall2 (translated_record to_chinese)
         (parse_srt (U := ascii_data) demo_srt) out
    /\ (Forall (fun r => str_fits (index r) = true)
          (parse_srt (U := ascii_data) demo_srt) ->
        exists written, generate_srt out = Ok written).
Proof.
  apply (embedded_srt_content_keeps_records (U := ascii_data) script play
           demo_key demo_model to_chinese to_chinese_rule
           (parse_srt (U := ascii_data) demo_srt) 50 10
           (fresh [Some (u8 "你好"); None; Some (u8 "世界")])).
  - vm_compute. reflexivity.
  - lia.
Defined.

Lemma embedded_srt_content_negative_batch_witness :
  embedded_srt_content (U := ascii_data) play demo_key demo_model
    (parse_srt (U := ascii_data) demo_srt) to_chinese (-1) 10
    (fresh [Some (u8 "你好")])
  = (generate_srt (parse_srt (U := ascii_data) demo_srt),
     fresh [Some (u8 "你好")]).
Proof.
  apply (embedded_srt_content_negative_batch (U := ascii_data) script play
           demo_key demo_model to_chinese
           (parse_srt (U := ascii_data) demo_srt) (-1) 10
           (fresh [Some (u8 "你好")])).
  lia.
Defined.

Lemma all_translated_segments_keeps_segments_witness :
  exists out st',
    all_translated_segments (U := ascii_data) play demo_key demo_model
      to_chinese 10
      [ [ {| start_time := 0%Z; end_time := 2%Z; text := u8 "Hello" |} ];
        [];
        [ {| start_time := 30%Z; end_time := 31%Z; text := u8 "World" |};
          {| start_time := 31%Z; end_time := 33%Z; text := u8 "Bye" |} ] ]
      (fresh [Some (u8 "你好"); None])
    = (Ok out, st')
    /\ Forall2 (translated_segment to_chinese)
         [ {| start_time := 0%Z; end_time := 2%Z; text := u8 "Hello" |};
           {| start_time := 30%Z; end_time := 31%Z; text := u8 "World" |};
           {| start_time := 31%Z; end_time := 33%Z; text := u8 "Bye" |} ]
         out.
Proof.
  apply (all_translated_segments_keeps_segments Z (U := ascii_data) script play
           demo_key demo_model to_chinese to_chinese_rule 10
           [ [ {| start_time := 0%Z; end_time := 2%Z; text := u8 "Hello" |} ];
             [];
             [ {| start_time := 30%Z; end_time := 31%Z; text := u8 "World" |};
               {| start_time := 31%Z; end_time := 33%Z; text := u8 "Bye" |} ] ]
           (fresh [Some (u8 "你好"); None])).
  vm_compute. reflexivity.
Defined.

End AudioProofs.
